(** * Ae.Chat front end: connection orchestration

    A shallow embedding of [Frontend/src/PeerConnector.ts],
    [Frontend/src/ConnectionManager.ts] and the [Envelope] record of
    [Frontend/src/Broker.ts], with the properties of the orchestration layer
    proved over it.

    Conventions of the embedding.
    - A JavaScript string is a [string]; [==] on two strings is [String.eqb]
      and [<] is the lexicographic order on character codes, [String.ltb]
      (on the identities the relay hands out, uuid strings, and on every
      string of ASCII characters, bytes and UTF-16 code units coincide).
    - The registry [this.connectors] is a JavaScript object keyed by
      identities that come off the wire: its own properties, in creation
      order, and its prototype.  The identities for which the difference
      from a map shows, "hasOwnProperty" and "__proto__", are part of the
      model.
    - A method is a state transformer [Prog S E A]: it takes the object it
      runs on, and gives back how it ended ([Ret] or a thrown exception), the
      object as it left it (mutations made before a throw persist) and the
      callbacks it invoked, oldest first.
    - An [async] method never throws into its caller: a failure rejects the
      returned promise, which none of the callers here awaits.  Awaited steps
      are run in program order; interleavings of several pending promises are
      not part of the model.
    - What the browser decides is not in the sources: the text of the
      descriptions it generates, whether it can parse and use a description
      or a candidate that came over the wire.  These decisions are the
      parameters [agentSdp], [agentAccepts] and [agentTakes] of the
      development; the rules of the signaling state machine, which do not
      depend on the browser, are written out.
    - [console] output is left out. *)

From stdpp Require Import gmap strings list sorting.
From Stdlib Require Import String Ascii.

Local Open Scope string_scope.
Local Open Scope list_scope.

(** ** Outcomes and programs *)

Inductive Exception :=
  | InvalidStateError
  | InvalidAccessError
  | OperationError
  | TypeError.

Inductive Outcome (A : Type) :=
  | Ret (a : A)
  | Throw (e : Exception).
Arguments Ret {A} a.
Arguments Throw {A} e.

Definition Prog (S E A : Type) : Type := S → Outcome A * S * list E.

Definition ret {S E A} (a : A) : Prog S E A := λ s, (Ret a, s, []).

Definition throw {S E A} (e : Exception) : Prog S E A := λ s, (Throw e, s, []).

Definition bind {S E A B} (p : Prog S E A) (k : A → Prog S E B) : Prog S E B :=
  λ s, match p s with
       | (Ret a, s1, es1) =>
           match k a s1 with (r, s2, es2) => (r, s2, es1 ++ es2) end
       | (Throw e, s1, es1) => (Throw e, s1, es1)
       end.

Notation "'let!' x ':=' p 'in' k" := (bind p (λ x, k))
  (at level 10, x name, p at level 100, k at level 200, only parsing).
Notation "p ;; k" := (bind p (λ _, k))
  (at level 100, k at level 200, right associativity, only parsing).

Definition get {S E} : Prog S E S := λ s, (Ret s, s, []).

Definition modify {S E} (f : S → S) : Prog S E unit := λ s, (Ret tt, f s, []).

Definition emit {S E} (e : E) : Prog S E unit := λ s, (Ret tt, s, [e]).

(** [try { p } catch (err) { h }] *)
Definition try_catch {S E A} (p : Prog S E A) (h : Exception → Prog S E A)
    : Prog S E A :=
  λ s, match p s with
       | (Throw e, s1, es1) =>
           match h e s1 with (r, s2, es2) => (r, s2, es1 ++ es2) end
       | r => r
       end.

(** The body of an [async] function, seen from a caller that does not await
    it: a throw inside becomes a rejected promise. *)
Definition async {S E} (p : Prog S E unit) : Prog S E unit :=
  try_catch p (λ _, ret tt).

(** [if (c) { p }] *)
Definition when {S E} (c : bool) (p : Prog S E unit) : Prog S E unit :=
  if c then p else ret tt.

(** [l.forEach(f)]; a throw of [f] ends the iteration. *)
Fixpoint forEach {S E A} (f : A → Prog S E unit) (l : list A) : Prog S E unit :=
  match l with
  | [] => ret tt
  | x :: l' => f x ;; forEach f l'
  end.

(** ** The connection capability ([RTCPeerConnection])

    The browser object a [PeerConnector] drives, reduced to the operations
    the code calls and to the state they read and write.  The operations
    follow the W3C WebRTC recommendation and RFC 9429: a closed connection
    refuses everything, a description is refused in a signaling state it
    does not fit, an answer is created only for a pending remote offer, a
    candidate is refused while there is no remote description.  Beyond these
    rules the user agent refuses what it cannot parse or use; that decision
    is a parameter of the section below. *)

Definition MediaStreamTrack := nat.

(** A stream is its track set; [getTracks] lists it in an order of the user
    agent's choosing, without repetition. *)
Record MediaStream := { tracks : gset MediaStreamTrack }.

Definition getTracks (stream : MediaStream) : list MediaStreamTrack :=
  elements (tracks stream).

Definition RTCIceCandidate := string.

Record RTCSessionDescription := {
  type : string;
  sdp : string
}.

(** A sender is named by its position in the connection's sender list. *)
Definition RTCRtpSender := nat.

Record RTCPeerConnection := {
  (** what the attributes of these names return: the pending description,
      or else the current one *)
  localDescription : option RTCSessionDescription;
  remoteDescription : option RTCSessionDescription;
  (** the pair last negotiated, to which a rollback returns *)
  currentLocalDescription : option RTCSessionDescription;
  currentRemoteDescription : option RTCSessionDescription;
  signalingState : string;
  iceConnectionState : string;
  connectionState : string;
  (** candidates accepted by [addIceCandidate], oldest first *)
  appliedCandidates : list RTCIceCandidate;
  (** the track each sender carries, [None] once removed *)
  senders : list (option MediaStreamTrack);
  isClosed : bool
}.

Definition newRTCPeerConnection : RTCPeerConnection :=
  {| localDescription := None; remoteDescription := None;
     currentLocalDescription := None; currentRemoteDescription := None;
     signalingState := "stable"; iceConnectionState := "new";
     connectionState := "new"; appliedCandidates := []; senders := [];
     isClosed := false |}.

Definition Cap (A : Type) : Type := Prog RTCPeerConnection Empty_set A.

Definition open_or_throw : Cap unit :=
  let! pc := get in if isClosed pc then throw InvalidStateError else ret tt.

Definition signalingAfter (isLocal : bool) (ty : string) : string :=
  if ty =? "offer" then (if isLocal then "have-local-offer" else "have-remote-offer")
  else if ty =? "pranswer" then (if isLocal then "have-local-pranswer" else "have-remote-pranswer")
  else "stable".

(** Whether a description of the kind [ty] may be set, locally or remotely,
    in a signaling state (RFC 9429, sections 5.5 and 5.6).  A remote offer
    that meets a pending local offer is not refused: the connection rolls
    its own offer back first (W3C WebRTC, 4.4.1.6). *)
Definition fits (isLocal : bool) (ty state : string) : bool :=
  if ty =? "offer" then
    (state =? "stable")
    || (state =? (if isLocal then "have-local-offer" else "have-remote-offer"))
    || (negb isLocal && (state =? "have-local-offer"))
  else if (ty =? "answer") || (ty =? "pranswer") then
    if isLocal
    then (state =? "have-remote-offer") || (state =? "have-local-pranswer")
    else (state =? "have-local-offer") || (state =? "have-remote-pranswer")
  else if ty =? "rollback" then
    (state =? "have-local-offer") || (state =? "have-remote-offer")
  else false.

Definition set_descriptions
    (l r cl cr : option RTCSessionDescription) (state : string)
    (pc : RTCPeerConnection) : RTCPeerConnection :=
  {| localDescription := l; remoteDescription := r;
     currentLocalDescription := cl; currentRemoteDescription := cr;
     signalingState := state;
     iceConnectionState := iceConnectionState pc;
     connectionState := connectionState pc;
     appliedCandidates := appliedCandidates pc; senders := senders pc;
     isClosed := isClosed pc |}.

(** The connection once a description that fits has been set.  An offer or
    a provisional answer is pending; an answer concludes the negotiation and
    makes both descriptions current; a rollback drops what is pending. *)
Definition applyDescription (isLocal : bool) (d : RTCSessionDescription)
    (pc : RTCPeerConnection) : RTCPeerConnection :=
  let state := signalingAfter isLocal (type d) in
  if type d =? "rollback" then
    set_descriptions (currentLocalDescription pc) (currentRemoteDescription pc)
      (currentLocalDescription pc) (currentRemoteDescription pc) state pc
  else if type d =? "answer" then
    if isLocal
    then set_descriptions (Some d) (remoteDescription pc)
           (Some d) (remoteDescription pc) state pc
    else set_descriptions (localDescription pc) (Some d)
           (localDescription pc) (Some d) state pc
  else
    if isLocal
    then set_descriptions (Some d) (remoteDescription pc)
           (currentLocalDescription pc) (currentRemoteDescription pc) state pc
    else set_descriptions
           (if (type d =? "offer") && (signalingState pc =? "have-local-offer")
            then currentLocalDescription pc else localDescription pc)
           (Some d)
           (currentLocalDescription pc) (currentRemoteDescription pc) state pc.

Definition set_senders (ss : list (option MediaStreamTrack))
    (pc : RTCPeerConnection) : RTCPeerConnection :=
  {| localDescription := localDescription pc;
     remoteDescription := remoteDescription pc;
     currentLocalDescription := currentLocalDescription pc;
     currentRemoteDescription := currentRemoteDescription pc;
     signalingState := signalingState pc;
     iceConnectionState := iceConnectionState pc;
     connectionState := connectionState pc;
     appliedCandidates := appliedCandidates pc;
     senders := ss; isClosed := isClosed pc |}.

(** [addTrack(track, stream)]: refused on a closed connection and for a track
    that a sender already carries; otherwise a new sender is appended (the
    reuse of an idle sender, which carries no track either way, is not
    modelled). *)
Definition addTrack (track : MediaStreamTrack) : Cap RTCRtpSender :=
  open_or_throw ;;
  let! pc := get in
  if bool_decide (Some track ∈ senders pc) then throw InvalidAccessError
  else modify (set_senders (senders pc ++ [Some track])) ;;
       ret (List.length (senders pc)).

(** [removeTrack(sender)]: the sender stays in the list and stops carrying
    its track; removing twice changes nothing more. *)
Definition removeTrack (sender : RTCRtpSender) : Cap unit :=
  open_or_throw ;;
  let! pc := get in
  if bool_decide (sender < List.length (senders pc))
  then modify (set_senders (<[sender := None]> (senders pc)))
  else throw InvalidAccessError.

Definition close (pc : RTCPeerConnection) : RTCPeerConnection :=
  {| localDescription := localDescription pc;
     remoteDescription := remoteDescription pc;
     currentLocalDescription := currentLocalDescription pc;
     currentRemoteDescription := currentRemoteDescription pc;
     signalingState := "closed"; iceConnectionState := "closed";
     connectionState := "closed";
     appliedCandidates := appliedCandidates pc; senders := senders pc;
     isClosed := true |}.

(** The tracks the connection currently sends. *)
Definition attachedTracks (pc : RTCPeerConnection) : list MediaStreamTrack :=
  omap id (senders pc).

(** The candidates the connection has accepted, replaced. *)
Definition set_appliedCandidates (cs : list RTCIceCandidate)
    (pc : RTCPeerConnection) : RTCPeerConnection :=
  {| localDescription := localDescription pc;
     remoteDescription := remoteDescription pc;
     currentLocalDescription := currentLocalDescription pc;
     currentRemoteDescription := currentRemoteDescription pc;
     signalingState := signalingState pc;
     iceConnectionState := iceConnectionState pc;
     connectionState := connectionState pc;
     appliedCandidates := cs; senders := senders pc; isClosed := isClosed pc |}.

Section Orchestration.

(** The user agent.  [agentSdp] is the description text it generates, from
    the kind of description and the state of the connection; [agentAccepts]
    says whether it can parse a remote description and apply it to the
    connection; [agentTakes] says whether it can use a remote candidate on
    the connection. *)
Variable agentSdp : string → RTCPeerConnection → string.
Variable agentAccepts : RTCSessionDescription → RTCPeerConnection → bool.
Variable agentTakes : RTCIceCandidate → RTCPeerConnection → bool.

Definition implicitDescription (pc : RTCPeerConnection) : RTCSessionDescription :=
  let ty := if (signalingState pc =? "have-remote-offer")
               || (signalingState pc =? "have-local-pranswer")
            then "answer" else "offer" in
  {| type := ty; sdp := agentSdp ty pc |}.

(** [setLocalDescription(d)]; without a description the user agent creates
    the one that fits the signaling state.  The only local descriptions the
    code sets are made by the user agent itself, so nothing is to be parsed:
    the description is refused only where it does not fit the state. *)
Definition setLocalDescription (d : option RTCSessionDescription) : Cap unit :=
  open_or_throw ;;
  let! pc := get in
  let d' := default (implicitDescription pc) d in
  if fits true (type d') (signalingState pc)
  then modify (applyDescription true d')
  else throw InvalidStateError.

(** [createAnswer()]: there must be a remote offer to answer. *)
Definition createAnswer : Cap RTCSessionDescription :=
  open_or_throw ;;
  let! pc := get in
  if (signalingState pc =? "have-remote-offer")
     || (signalingState pc =? "have-local-pranswer")
  then ret {| type := "answer"; sdp := agentSdp "answer" pc |}
  else throw InvalidStateError.

(** [setRemoteDescription(d)]: refused where the description does not fit
    the signaling state, and where the user agent cannot parse or apply it
    (a rollback has no text to parse). *)
Definition setRemoteDescription (d : RTCSessionDescription) : Cap unit :=
  open_or_throw ;;
  let! pc := get in
  if negb (fits false (type d) (signalingState pc)) then throw InvalidStateError
  else if negb (type d =? "rollback") && negb (agentAccepts d pc)
  then throw OperationError
  else modify (applyDescription false d).

(** [addIceCandidate(c)]: refused without a remote description, and where
    the user agent cannot use the candidate. *)
Definition addIceCandidate (c : RTCIceCandidate) : Cap unit :=
  open_or_throw ;;
  let! pc := get in
  match remoteDescription pc with
  | None => throw InvalidStateError
  | Some _ =>
      if agentTakes c pc
      then modify (λ pc, set_appliedCandidates (appliedCandidates pc ++ [c]) pc)
      else throw OperationError
  end.

(** ** PeerConnector.ts *)

Inductive ConnectionChangeType := Ice | RTC | Signal.

Record ConnectionChange := {
  ChangeType : ConnectionChangeType;
  State : string
}.

Record PeerConnector := {
  connector : RTCPeerConnection;
  localCandidates : list RTCIceCandidate;
  remoteCandidates : list RTCIceCandidate;
  shouldOffer : bool;
  rtpSenders : list RTCRtpSender
}.

(** The five delegates of a connector; an [Output] is one invocation. *)
Inductive Output :=
  | OnHasIceCandidates (candidates : list RTCIceCandidate)
  | OnHasStreams (streams : list MediaStream)
  | OnHasOffer (offer : option RTCSessionDescription)
  | OnAcceptedOffer (offer : option RTCSessionDescription)
  | OnConnectionChanged (change : ConnectionChange).

Definition Method (A : Type) : Type := Prog PeerConnector Output A.

Definition set_connector (pc : RTCPeerConnection) (p : PeerConnector) : PeerConnector :=
  {| connector := pc; localCandidates := localCandidates p;
     remoteCandidates := remoteCandidates p; shouldOffer := shouldOffer p;
     rtpSenders := rtpSenders p |}.

Definition set_localCandidates (cs : list RTCIceCandidate) (p : PeerConnector)
    : PeerConnector :=
  {| connector := connector p; localCandidates := cs;
     remoteCandidates := remoteCandidates p; shouldOffer := shouldOffer p;
     rtpSenders := rtpSenders p |}.

Definition set_remoteCandidates (cs : list RTCIceCandidate) (p : PeerConnector)
    : PeerConnector :=
  {| connector := connector p; localCandidates := localCandidates p;
     remoteCandidates := cs; shouldOffer := shouldOffer p;
     rtpSenders := rtpSenders p |}.

Definition set_rtpSenders (ss : list RTCRtpSender) (p : PeerConnector)
    : PeerConnector :=
  {| connector := connector p; localCandidates := localCandidates p;
     remoteCandidates := remoteCandidates p; shouldOffer := shouldOffer p;
     rtpSenders := ss |}.

(** A call on [this.connector]. *)
Definition onConnector {A} (c : Cap A) : Method A :=
  λ p, match c (connector p) with
       | (r, pc, _) => (r, set_connector pc p, [])
       end.

(** The constructor, up to the registration of the event handlers below. *)
Definition newPeerConnector (shouldOffer : bool) : PeerConnector :=
  {| connector := newRTCPeerConnection; localCandidates := [];
     remoteCandidates := []; shouldOffer := shouldOffer; rtpSenders := [] |}.

Definition onconnectionstatechange : Method unit :=
  let! p := get in
  emit (OnConnectionChanged
          {| ChangeType := RTC; State := connectionState (connector p) |}).

Definition oniceconnectionstatechange : Method unit :=
  let! p := get in
  emit (OnConnectionChanged
          {| ChangeType := Ice; State := iceConnectionState (connector p) |}).

Definition onsignalingstatechange : Method unit :=
  let! p := get in
  emit (OnConnectionChanged
          {| ChangeType := Signal; State := signalingState (connector p) |}).

(** [event.candidate] is [None] for the end-of-gathering event. *)
Definition onicecandidate (candidate : option RTCIceCandidate) : Method unit :=
  match candidate with
  | None =>
      let! p := get in
      emit (OnHasIceCandidates (localCandidates p)) ;;
      modify (set_localCandidates [])
  | Some c =>
      modify (λ p, set_localCandidates (localCandidates p ++ [c]) p)
  end.

Definition onnegotiationneeded : Method unit :=
  async (
    let! p := get in
    if negb (shouldOffer p)
       && bool_decide (localDescription (connector p) = None)
       && bool_decide (remoteDescription (connector p) = None)
    then ret tt
    else
      try_catch
        (onConnector (setLocalDescription None) ;;
         let! p := get in
         emit (OnHasOffer (localDescription (connector p))))
        (λ _, ret tt)).

Definition ontrack (streams : list MediaStream) : Method unit :=
  emit (OnHasStreams streams).

Definition Shutdown : Method unit :=
  modify (λ p, set_connector (close (connector p)) p).

Definition AddRemoteCandidates (candidates : list RTCIceCandidate) : Method unit :=
  async (
    forEach
      (λ candidate,
         async (try_catch
                  (onConnector (addIceCandidate candidate))
                  (λ _, modify (λ p, set_remoteCandidates
                                       (remoteCandidates p ++ [candidate]) p))))
      candidates).

Definition AcceptAnswer (answer : RTCSessionDescription) : Method unit :=
  async (onConnector (setRemoteDescription answer)).

Definition AcceptOffer (offer : RTCSessionDescription) : Method unit :=
  async (
    onConnector (setRemoteDescription offer) ;;
    let! answer := onConnector createAnswer in
    onConnector (setLocalDescription (Some answer)) ;;
    let! p := get in
    forEach (λ candidate, async (onConnector (addIceCandidate candidate)))
            (remoteCandidates p) ;;
    modify (set_remoteCandidates []) ;;
    let! p := get in
    emit (OnAcceptedOffer (localDescription (connector p)))).

(** [a.slice(start)] for a [start] within the array: a new array, [a] itself
    is left as it is. *)
Definition slice {A} (start : nat) (a : list A) : list A := drop start a.

Definition StopLocalStream : Method unit :=
  let! p := get in
  forEach (λ sender, onConnector (removeTrack sender)) (rtpSenders p) ;;
  let! p := get in
  let! _ := ret (slice (List.length (rtpSenders p) - 1) (rtpSenders p)) in
  ret tt.

Definition StartLocalStream (stream : MediaStream) : Method unit :=
  StopLocalStream ;;
  forEach
    (λ track,
       let! sender := onConnector (addTrack track) in
       modify (λ p, set_rtpSenders (rtpSenders p ++ [sender]) p))
    (getTracks stream).

(** ** Broker.ts: the envelope and the relay *)

(** A payload ([any]): what [JSON.parse] can hand over, reduced to the shapes
    of the relay protocol: [null], an object with string members, an array
    of candidates. *)
Inductive Any :=
  | ANull
  | AObject (props : list (string * string))
  | AArray (items : list RTCIceCandidate).

Record Envelope := {
  RoomId : string;
  FromId : string;
  Type' : string;
  Data : Any
}.

Fixpoint getOwn {V} (props : list (string * V)) (k : string) : option V :=
  match props with
  | [] => None
  | (k', v) :: props' => if k' =? k then Some v else getOwn props' k
  end.

(** [data[k]]: [undefined] for a missing member, a [TypeError] on [null]. *)
Definition member {S E} (data : Any) (k : string) : Prog S E (option string) :=
  match data with
  | ANull => throw TypeError
  | AObject props => ret (getOwn props k)
  | AArray _ => ret None
  end.

(** A payload read as [RTCSessionDescriptionInit]: it needs a [type] member
    that is one of the four kinds of description; the text defaults to the
    empty string. *)
Definition asDescription (data : Any) : option RTCSessionDescription :=
  match data with
  | AObject props =>
      match getOwn props "type" with
      | Some ty =>
          if (ty =? "offer") || (ty =? "answer") || (ty =? "pranswer")
             || (ty =? "rollback")
          then Some {| type := ty; sdp := default "" (getOwn props "sdp") |}
          else None
      | None => None
      end
  | _ => None
  end.

Definition ofDescription (d : option RTCSessionDescription) : Any :=
  match d with
  | Some d => AObject [("type", type d); ("sdp", sdp d)]
  | None => ANull
  end.

(** ** ConnectionManager.ts *)

Record ClientLocation := {
  CityName : option string;
  CountryName : option string;
  CountryCode : option string;
  ContinentName : option string;
  SubdivisionName : option string
}.

(** What the manager does to the outside: a [broker.Send] or one of its own
    three notification delegates. *)
Inductive Effect :=
  | Send (payload : Any) (type : string) (connectionId : string)
  | HasStreams (fromId : string) (streams : list MediaStream)
  | ConnectionChanged (clientId : string) (change : ConnectionChange)
  | Location (clientId : string) (location : ClientLocation).

(** The manager and the connector objects it has created.  The object
    [this.connectors], created as [{}] and used as a map, is its own
    properties [connectors], in creation order, from a remote identity to a
    reference into [objects], and its prototype: [Object.prototype] at first
    ([None]), a connector once one has been assigned to the key
    ["__proto__"].  A connector deleted from [connectors] stays in
    [objects], as the object it is. *)
Record ConnectionManager := {
  (** [sessionConfig.AttendeeId]; [ISessionConfig] is used for this member
      only *)
  AttendeeId : string;
  (** the stream [OnNeedLocalStream()] returns *)
  OnNeedLocalStream : MediaStream;
  connectors : list (string * nat);
  prototype : option nat;
  objects : list PeerConnector
}.

Definition Manager (A : Type) : Type := Prog ConnectionManager Effect A.

Definition set_connectors (r : list (string * nat)) (m : ConnectionManager)
    : ConnectionManager :=
  {| AttendeeId := AttendeeId m; OnNeedLocalStream := OnNeedLocalStream m;
     connectors := r; prototype := prototype m; objects := objects m |}.

Definition set_prototype (o : option nat) (m : ConnectionManager)
    : ConnectionManager :=
  {| AttendeeId := AttendeeId m; OnNeedLocalStream := OnNeedLocalStream m;
     connectors := connectors m; prototype := o; objects := objects m |}.

Definition set_objects (h : list PeerConnector) (m : ConnectionManager)
    : ConnectionManager :=
  {| AttendeeId := AttendeeId m; OnNeedLocalStream := OnNeedLocalStream m;
     connectors := connectors m; prototype := prototype m; objects := h |}.


(** The own properties of an object: whether [k] is one, the definition of
    one (in place for an own property, a new last one otherwise). *)
Definition hasOwn {V} (props : list (string * V)) (k : string) : bool :=
  bool_decide (k ∈ props.*1).

Definition setOwn {V} (props : list (string * V)) (k : string) (v : V)
    : list (string * V) :=
  if hasOwn props k
  then (λ kv, if kv.1 =? k then (k, v) else kv) <$> props
  else props ++ [(k, v)].

(** [delete props[k]] *)
Definition deleteOwn {V} (props : list (string * V)) (k : string)
    : list (string * V) :=
  filter (λ kv, kv.1 ≠ k) props.

(** The order of [for (k in props)]: the keys that are array indices
    (canonical decimal numerals below 2^32 - 1) in ascending numeric order,
    then the other keys in creation order. *)
Definition isDigit (a : ascii) : bool :=
  ((48 <=? N_of_ascii a) && (N_of_ascii a <=? 57))%N.

Fixpoint decimal (acc : N) (s : string) : option N :=
  match s with
  | EmptyString => Some acc
  | String a s' =>
      if isDigit a then decimal (10 * acc + (N_of_ascii a - 48))%N s' else None
  end.

Definition arrayIndex (k : string) : option N :=
  match k with
  | EmptyString => None
  | String a k' =>
      if (N_of_ascii a =? 48)%N && negb (k' =? "") then None
      else match decimal 0 k with
           | Some n => if (n <? 2 ^ 32 - 1)%N then Some n else None
           | None => None
           end
  end.

Definition indexLe (a b : N * string) : Prop := (a.1 ≤ b.1)%N.

#[local] Instance indexLe_dec : RelDecision indexLe.
Proof. intros a b. unfold indexLe. apply _. Defined.

Definition forInKeys {V} (props : list (string * V)) : list string :=
  let indexed := omap (λ k, (λ n, (n, k)) <$> arrayIndex k) props.*1 in
  (merge_sort indexLe indexed).*2
  ++ filter (λ k, arrayIndex k = None) props.*1.

(** Running a method on the connector object [o] and writing the object
    back; the delegate invocations are handed to the caller.  ([o] always
    names an object; a dangling reference is given a [TypeError].) *)
Definition runOn {A} (o : nat) (op : Method A)
    : Manager (Outcome A * list Output) :=
  λ m, match objects m !! o with
       | None => (Throw TypeError, m, [])
       | Some p =>
           match op p with
           | (r, p', outs) =>
               (Ret (r, outs), set_objects (<[o := p']> (objects m)) m, [])
           end
       end.

(** [this.connectors.hasOwnProperty(k)].  The method is looked up on the
    object like any member: an own property of that name, which is a
    connector and not a function, is found first, and the call throws.
    Otherwise the method of [Object.prototype] is reached, through a
    connector prototype as well, and tests the own properties. *)
Definition hasOwnProperty (k : string) : Manager bool :=
  let! m := get in
  if hasOwn (connectors m) "hasOwnProperty" then throw TypeError
  else ret (hasOwn (connectors m) k).

(** [this.connectors[fromId]], about to be used as a connector: an own
    property, or else, for the key ["__proto__"], the prototype.  Any other
    inherited member is not a connector, and neither is [Object.prototype]:
    the method call on it throws, as it does on [undefined]. *)
Definition getConnector (fromId : string) : Manager nat :=
  let! m := get in
  match getOwn (connectors m) fromId with
  | Some o => ret o
  | None =>
      match prototype m with
      | Some o => if fromId =? "__proto__" then ret o else throw TypeError
      | None => throw TypeError
      end
  end.

(** [this.connectors[fromId] = peerConnector]: an own property is written,
    or created, except for the key ["__proto__"], whose inherited setter
    makes the connector the prototype of the object and creates nothing. *)
Definition setConnector (fromId : string) (o : nat) (m : ConnectionManager)
    : ConnectionManager :=
  if negb (hasOwn (connectors m) fromId) && (fromId =? "__proto__")
  then set_prototype (Some o) m
  else set_connectors (setOwn (connectors m) fromId o) m.

(** The five delegates [CreateConnector] assigns to the connector it creates
    for [fromId]. *)
Definition delegate (fromId : string) (out : Output) : Manager unit :=
  match out with
  | OnConnectionChanged change =>
      emit (ConnectionChanged fromId change) ;;
      (* If any change type is failed, clean up *)
      when (State change =? "failed") (
        let! o := getConnector fromId in
        runOn o Shutdown ;;
        modify (λ m, set_connectors (deleteOwn (connectors m) fromId) m))
  | OnHasIceCandidates candidates =>
      emit (Send (AArray candidates) "candidates" fromId)
  | OnHasStreams streams =>
      emit (HasStreams fromId streams)
  | OnHasOffer offer =>
      emit (Send (ofDescription offer) "offer" fromId)
  | OnAcceptedOffer offer =>
      emit (Send (ofDescription offer) "accept" fromId)
  end.

(** A method call on the connector [o] created for [fromId]: its delegate
    invocations reach the manager, then its own outcome reaches the caller. *)
Definition invoke (fromId : string) (o : nat) (op : Method unit) : Manager unit :=
  let! res := runOn o op in
  forEach (delegate fromId) res.2 ;;
  match res.1 with
  | Ret _ => ret tt
  | Throw e => throw e
  end.

(** Modelled from the spec: [PeerConnectorFactory.ts] is not part of the
    sources; by section 2 the factory "constructs a PeerConnector given an
    assigned role", here [new PeerConnector(shouldOffer)], a new object. *)
Definition CreatePeerConnector (shouldOffer : bool) : Manager nat :=
  let! m := get in
  modify (set_objects (objects m ++ [newPeerConnector shouldOffer])) ;;
  ret (List.length (objects m)).

(** The loop visits the own keys of the registry.  Keys inherited from a
    connector prototype are enumerated after them; none of these passes the
    [hasOwnProperty] test, and the test cannot throw on them without having
    thrown on an own key before: they are left out. *)
Definition RefreshLocalStream : Manager unit :=
  let! m := get in
  let localStream := OnNeedLocalStream m in
  forEach
    (λ clientId,
       let! own := hasOwnProperty clientId in
       when own (
         let! o := getConnector clientId in
         invoke clientId o (StartLocalStream localStream)))
    (forInKeys (connectors m)).

Definition CreateConnector (fromId : string) : Manager unit :=
  let! known := hasOwnProperty fromId in
  if known then ret tt
  else
    let! m := get in
    let shouldOffer := String.ltb fromId (AttendeeId m) in
    let! peerConnector := CreatePeerConnector shouldOffer in
    invoke fromId peerConnector (StartLocalStream (OnNeedLocalStream m)) ;;
    modify (setConnector fromId peerConnector).

(** A payload handed to an [async] method that expects a description or an
    array: on any other payload the method rejects before it does anything. *)
Definition withDescription (data : Any)
    (method : RTCSessionDescription → Method unit) : Method unit :=
  match asDescription data with
  | Some d => method d
  | None => ret tt
  end.

Definition withCandidates (data : Any)
    (method : list RTCIceCandidate → Method unit) : Method unit :=
  match data with
  | AArray cs => method cs
  | _ => ret tt
  end.

Definition OnMessage (message : Envelope) : Manager unit :=
  let! m := get in
  if FromId message =? AttendeeId m then ret tt
  else
    CreateConnector (FromId message) ;;
    when (Type' message =? "offer") (
      let! o := getConnector (FromId message) in
      invoke (FromId message) o (withDescription (Data message) AcceptOffer)) ;;
    when (Type' message =? "accept") (
      let! o := getConnector (FromId message) in
      invoke (FromId message) o (withDescription (Data message) AcceptAnswer)) ;;
    when (Type' message =? "candidates") (
      let! o := getConnector (FromId message) in
      invoke (FromId message) o (withCandidates (Data message) AddRemoteCandidates)) ;;
    when (Type' message =? "location") (
      let! cityName := member (Data message) "cityName" in
      let! countryName := member (Data message) "countryName" in
      let! countryCode := member (Data message) "countryCode" in
      let! continentName := member (Data message) "continentName" in
      let! subdivisionName := member (Data message) "subdivisionName" in
      emit (Location (FromId message)
              {| CityName := cityName; CountryName := countryName;
                 CountryCode := countryCode; ContinentName := continentName;
                 SubdivisionName := subdivisionName |})) ;;
    when (Type' message =? "discover") (
      emit (Send (AObject []) "acknowledge" (FromId message))).

(** ** Vocabulary of the properties *)

Inductive Role := Offerer | Answerer.

(** The role of a connector is its [shouldOffer] flag. *)
Definition role (p : PeerConnector) : Role :=
  if shouldOffer p then Offerer else Answerer.

(** The connector registered for an identity, if any. *)
Definition registered (m : ConnectionManager) (k : string) : option PeerConnector :=
  getOwn (connectors m) k ≫= λ o, objects m !! o.

(** Every sender of the connection that carries a track is one the connector
    has recorded, and the recorded senders are senders of the connection.
    The constructor establishes this and [StartLocalStream], the only caller
    of [addTrack], keeps it. *)
Definition tracked (p : PeerConnector) : Prop :=
  Forall (λ s, s < List.length (senders (connector p))) (rtpSenders p)
  ∧ ∀ i t, senders (connector p) !! i = Some (Some t) → i ∈ rtpSenders p.

(** A connector in service: its connection is open and its senders are
    recorded.  Only [Shutdown] ends this. *)
Definition live (p : PeerConnector) : Prop :=
  isClosed (connector p) = false ∧ tracked p.

(** A call on the connection that neither closes it nor touches its
    senders. *)
Definition gentle {A} (c : Cap A) : Prop :=
  ∀ pc, senders (c pc).1.2 = senders pc ∧ isClosed (c pc).1.2 = isClosed pc.

(** The registry names each identity once, no connector twice, and only
    connectors that exist; a connector that is the prototype of the registry
    exists and is not named by it. *)
Definition wellFormed (m : ConnectionManager) : Prop :=
  NoDup (connectors m).*1 ∧ NoDup (connectors m).*2
  ∧ Forall (λ o, o < List.length (objects m)) (connectors m).*2
  ∧ ∀ o, prototype m = Some o →
         o < List.length (objects m) ∧ o ∉ (connectors m).*2.

(** The registry has an entry that hides the method the manager calls on
    it: an identity named ["hasOwnProperty"] has been registered. *)
Definition shadowed (m : ConnectionManager) : bool :=
  hasOwn (connectors m) "hasOwnProperty".

(** The state of a manager at rest: a well-formed registry of connectors in
    service. *)
Definition sound (m : ConnectionManager) : Prop :=
  wellFormed m ∧ ∀ k p, registered m k = Some p → live p.

(** The sender list after [removeTrack] on each of the senders [l]. *)
Definition detach (l : list RTCRtpSender) (ss : list (option MediaStreamTrack))
    : list (option MediaStreamTrack) :=
  foldl (λ ss i, <[i := None]> ss) ss l.

(** An output other than a connection change, and a connector of a given
    role: no method of a connector reports a connection change (the three
    state-change handlers do) and none changes the role. *)
Definition noChange (out : Output) : Prop :=
  match out with OnConnectionChanged _ => False | _ => True end.

Definition hasRole (b : bool) (p : PeerConnector) : Prop := shouldOffer p = b.

(** The connection applies the remote description [d]: it is open, the
    description fits its signaling state, and the user agent accepts it. *)
Definition applies (d : RTCSessionDescription) (pc : RTCPeerConnection) : bool :=
  negb (isClosed pc) && fits false (type d) (signalingState pc)
  && ((type d =? "rollback") || agentAccepts d pc).

(** The user agent can use each of the candidates [cs], whatever the state
    of the connection. *)
Definition usable (cs : list RTCIceCandidate) : Prop :=
  ∀ c pc, c ∈ cs → agentTakes c pc = true.

(** The description a connector hands out when its connection needs
    negotiation, the one its user agent creates for the state of the
    connection (an offer, when it is stable), and the connector once it has
    done so. *)
Definition offerOf (p : PeerConnector) : RTCSessionDescription :=
  implicitDescription (connector p).

Definition offering (p : PeerConnector) : PeerConnector :=
  (onnegotiationneeded p).1.2.

(** The answer the user agent of [q] creates once [offer] is the remote
    description of its connection. *)
Definition answerTo (offer : RTCSessionDescription) (q : PeerConnector)
    : RTCSessionDescription :=
  {| type := "answer";
     sdp := agentSdp "answer" (applyDescription false offer (connector q)) |}.

(** The connector once its connection has accepted the candidates [cs]. *)
Definition fed (cs : list RTCIceCandidate) (p : PeerConnector) : PeerConnector :=
  set_connector
    (set_appliedCandidates (appliedCandidates (connector p) ++ cs) (connector p)) p.

(** The identity an effect of the manager is addressed to or is about. *)
Definition concerns (k : string) (e : Effect) : Prop :=
  match e with
  | Send _ _ connectionId => connectionId = k
  | HasStreams fromId _ => fromId = k
  | ConnectionChanged clientId _ => clientId = k
  | Location clientId _ => clientId = k
  end.

(** The registry is [r], its prototype [pr], and there are [n] connector
    objects. *)
Definition census (r : list (string * nat)) (pr : option nat) (n : nat)
    (m : ConnectionManager) : Prop :=
  connectors m = r ∧ prototype m = pr ∧ List.length (objects m) = n.

(** The connector object [o] has the [shouldOffer] flag [b]. *)
Definition flagged (o : nat) (b : bool) (m : ConnectionManager) : Prop :=
  ∃ p, objects m !! o = Some p ∧ shouldOffer p = b.

(** The connector [CreateConnector] makes for [fromId]: a new connector of
    the role the comparison gives, with the local stream started. *)
Definition freshConnector (fromId : string) (m : ConnectionManager) : PeerConnector :=
  (StartLocalStream (OnNeedLocalStream m)
     (newPeerConnector (String.ltb fromId (AttendeeId m)))).1.2.

(** Handling took the manager from [m] to [m'] and created the connector
    object [p]. *)
Definition created (m m' : ConnectionManager) (p : PeerConnector) : Prop :=
  List.length (objects m') = S (List.length (objects m))
  ∧ objects m' !! List.length (objects m) = Some p.

(** ** Sample sessions *)

(** A user agent for the sample sessions.  The text of a session
    description is long and only a user agent can write one; the sample
    agent abbreviates it to a token that names the kind of the description.
    It accepts a description exactly when it carries the token of its type,
    which is what an agent of its kind generates, and it takes every
    candidate but the one named "garbage", which stands for a candidate
    that no user agent can use. *)
Definition sampleSdp : string → RTCPeerConnection → string :=
  λ ty _, "sdp:" +:+ ty.

Definition sampleAccepts : RTCSessionDescription → RTCPeerConnection → bool :=
  λ d _, sdp d =? "sdp:" +:+ type d.

Definition sampleTakes : RTCIceCandidate → RTCPeerConnection → bool :=
  λ c _, negb (c =? "garbage").

Definition camera : MediaStream := {| tracks := {[1; 2]} |}.

Definition screen : MediaStream := {| tracks := {[3]} |}.

(** The manager of attendee "200", and of attendee "100", before any
    envelope. *)
Definition manager200 : ConnectionManager :=
  {| AttendeeId := "200"; OnNeedLocalStream := camera;
     connectors := []; prototype := None; objects := [] |}.

Definition manager100 : ConnectionManager :=
  {| AttendeeId := "100"; OnNeedLocalStream := camera;
     connectors := []; prototype := None; objects := [] |}.

Definition discoverFrom (fromId : string) : Envelope :=
  {| RoomId := "room"; FromId := fromId; Type' := "discover"; Data := AObject [] |}.

(** The manager of "200" once it has heard of "100". *)
Definition manager200_knows100 : ConnectionManager :=
  (CreateConnector "100" manager200).1.2.

(** The manager of "200" once it has also heard of an attendee that calls
    itself "hasOwnProperty", and of one that calls itself "__proto__". *)
Definition manager200_shadowed : ConnectionManager :=
  (CreateConnector "hasOwnProperty" manager200_knows100).1.2.

Definition manager200_knows_proto : ConnectionManager :=
  (CreateConnector "__proto__" manager200_knows100).1.2.

(** The connector that the manager of "200" holds for "100": an offerer with
    the camera attached. *)
Definition connector100 : PeerConnector :=
  (StartLocalStream camera (newPeerConnector true)).1.2.

(** An offer and an answer as the sample agent writes them, and an offer
    that it refuses. *)
Definition sampleOffer : RTCSessionDescription :=
  {| type := "offer"; sdp := "sdp:offer" |}.

Definition sampleAnswer : RTCSessionDescription :=
  {| type := "answer"; sdp := "sdp:answer" |}.

Definition refusedOffer : RTCSessionDescription :=
  {| type := "offer"; sdp := "v=0" |}.

(** The manager of "200" once its connector for "100" has made its offer
    and awaits the answer. *)
Definition manager200_offered100 : ConnectionManager :=
  (invoke "100" 0 onnegotiationneeded manager200_knows100).1.2.

(** An envelope from "100" in the sample room. *)
Definition from100 (ty : string) (data : Any) : Envelope :=
  {| RoomId := "room"; FromId := "100"; Type' := ty; Data := data |}.

(** A program keeps the invariant [I] of its state and invokes only
    callbacks that satisfy [Q]. *)
Definition respects {S E A} (I : S → Prop) (Q : E → Prop) (p : Prog S E A) : Prop :=
  ∀ s, I s → I (p s).1.2 ∧ Forall Q (p s).2.

(** ** Programs, step by step *)

Lemma bind_ret_step {S E A B} (p : Prog S E A) (k : A → Prog S E B) s a s1 es1 :
  p s = (Ret a, s1, es1) →
  bind p k s = (let '(r, s2, es2) := k a s1 in (r, s2, es1 ++ es2)).
Proof. intros H. unfold bind. rewrite H. by destruct (k a s1) as [[??]?]. Qed.

Lemma bind_throw_step {S E A B} (p : Prog S E A) (k : A → Prog S E B) s e s1 es1 :
  p s = (Throw e, s1, es1) → bind p k s = (Throw e, s1, es1).
Proof. intros H. unfold bind. by rewrite H. Qed.

Lemma bind_ret_state {S E A B} (p : Prog S E A) (k : A → Prog S E B) s a s1 es1 :
  p s = (Ret a, s1, es1) → (bind p k s).1.2 = (k a s1).1.2.
Proof.
  intros H. rewrite (bind_ret_step _ _ _ _ _ _ H). by destruct (k a s1) as [[??]?].
Qed.

Lemma async_returns {S E} (p : Prog S E unit) s s' es :
  p s = (Ret tt, s', es) → async p s = (Ret tt, s', es).
Proof. intros H. unfold async, try_catch. by rewrite H. Qed.

Lemma respects_state {S E A} (I : S → Prop) (Q : E → Prop) (p : Prog S E A) s :
  respects I Q p → I s → I (p s).1.2.
Proof. intros Hp Hs. by destruct (Hp s Hs). Qed.

Lemma set_connector_id p : set_connector (connector p) p = p.
Proof. by destruct p. Qed.

Lemma set_localCandidates_id p : set_localCandidates (localCandidates p) p = p.
Proof. by destruct p. Qed.

Lemma set_remoteCandidates_id p : set_remoteCandidates (remoteCandidates p) p = p.
Proof. by destruct p. Qed.

(** ** Local candidate gathering *)

Lemma gathering_accumulates cs : ∀ p,
  forEach onicecandidate (Some <$> cs) p
  = (Ret tt, set_localCandidates (localCandidates p ++ cs) p, []).
Proof.
  induction cs as [|c cs IH]; intros p; simpl.
  - by rewrite app_nil_r, set_localCandidates_id.
  - unfold bind at 1. simpl. rewrite IH. simpl.
    by rewrite <- app_assoc.
Qed.

Lemma forEach_app {S E A} (f : A → Prog S E unit) l1 l2 s s1 es1 :
  forEach f l1 s = (Ret tt, s1, es1) →
  forEach f (l1 ++ l2) s
  = (let '(r, s2, es2) := forEach f l2 s1 in (r, s2, es1 ++ es2)).
Proof.
  revert s es1. induction l1 as [|x l1 IH]; intros s es1 H; simpl in *.
  - injection H as <- <-. by destruct (forEach f l2 s) as [[??]?].
  - unfold bind in *. destruct (f x s) as [[[[]|e] s'] es'] eqn:Hx; [|done].
    destruct (forEach f l1 s') as [[r1 s1'] es1'] eqn:H1.
    injection H as -> -> <-.
    rewrite (IH _ _ H1).
    destruct (forEach f l2 s1) as [[??]?]. by rewrite app_assoc.
Qed.

(** C5. A run of locally gathered candidates followed by the
    end-of-gathering event: the candidates are appended to the local buffer
    in discovery order without any emission, the end-of-gathering event makes
    the one emission of the run, [OnHasIceCandidates] with the whole buffer,
    and leaves the buffer empty. *)
Theorem local_candidates_batch (p : PeerConnector) (cs : list RTCIceCandidate) :
  forEach onicecandidate (Some <$> cs) p
  = (Ret tt, set_localCandidates (localCandidates p ++ cs) p, [])
  ∧ forEach onicecandidate ((Some <$> cs) ++ [None]) p
    = (Ret tt, set_localCandidates [] p,
       [OnHasIceCandidates (localCandidates p ++ cs)]).
Proof.
  split; [apply gathering_accumulates|].
  rewrite (forEach_app _ _ _ _ _ _ (gathering_accumulates cs p)).
  by destruct p.
Qed.

(** ** Negotiation needed *)

(** C6. On a connector that should not offer (an Answerer) and whose
    connection has neither a local nor a remote description, the
    negotiation-needed handler returns at once: the connector is left as it
    was, no description is created and [OnHasOffer] is not invoked. *)
Theorem answerer_never_offers_first (p : PeerConnector) :
  shouldOffer p = false →
  localDescription (connector p) = None →
  remoteDescription (connector p) = None →
  onnegotiationneeded p = (Ret tt, p, []).
Proof.
  intros Hrole Hlocal Hremote.
  unfold onnegotiationneeded, async, try_catch, bind, get. simpl.
  by rewrite Hrole, Hlocal, Hremote.
Qed.

(** ** Remote candidates *)

Lemma addIceCandidate_refused c pc :
  remoteDescription pc = None →
  addIceCandidate c pc = (Throw InvalidStateError, pc, []).
Proof.
  intros H. unfold addIceCandidate, open_or_throw, bind, get. simpl.
  destruct (isClosed pc); simpl; [done|]. by rewrite H.
Qed.

Lemma addIceCandidate_closed c pc :
  isClosed pc = true → addIceCandidate c pc = (Throw InvalidStateError, pc, []).
Proof.
  intros H. unfold addIceCandidate, open_or_throw, bind, get. simpl. by rewrite H.
Qed.

Lemma addIceCandidate_applied c pc :
  isClosed pc = false → is_Some (remoteDescription pc) → agentTakes c pc = true →
  addIceCandidate c pc
  = (Ret tt, set_appliedCandidates (appliedCandidates pc ++ [c]) pc, []).
Proof.
  intros Hopen [d Hd] Htakes.
  unfold addIceCandidate, open_or_throw, bind, get. simpl.
  rewrite Hopen. simpl. by rewrite Hd, Htakes.
Qed.

(** [addIceCandidate] either appends the candidate to those applied or
    throws and changes nothing. *)
Lemma addIceCandidate_cases c pc :
  addIceCandidate c pc
  = (Ret tt, set_appliedCandidates (appliedCandidates pc ++ [c]) pc, [])
  ∨ ∃ e, addIceCandidate c pc = (Throw e, pc, []).
Proof.
  unfold addIceCandidate, open_or_throw, bind, get. simpl.
  destruct (isClosed pc); simpl; [right; by eexists|].
  destruct (remoteDescription pc); [|right; by eexists].
  destruct (agentTakes c pc); simpl; [by left|right; by eexists].
Qed.

Lemma set_appliedCandidates_id pc :
  set_appliedCandidates (appliedCandidates pc) pc = pc.
Proof. by destruct pc. Qed.

Lemma fed_nil p : fed [] p = p.
Proof.
  unfold fed. by rewrite app_nil_r, set_appliedCandidates_id, set_connector_id.
Qed.

Lemma fed_fed cs1 cs2 p : fed cs2 (fed cs1 p) = fed (cs1 ++ cs2) p.
Proof. unfold fed. simpl. by rewrite <- app_assoc. Qed.

Lemma buffering cs : ∀ p,
  remoteDescription (connector p) = None →
  forEach
    (λ candidate,
       async (try_catch
                (onConnector (addIceCandidate candidate))
                (λ _, modify (λ p, set_remoteCandidates
                                     (remoteCandidates p ++ [candidate]) p))))
    cs p
  = (Ret tt, set_remoteCandidates (remoteCandidates p ++ cs) p, []).
Proof.
  induction cs as [|c cs IH]; intros p Hnone; simpl.
  - by rewrite app_nil_r, set_remoteCandidates_id.
  - unfold bind at 1, async at 1, try_catch at 1 2, onConnector at 1.
    rewrite (addIceCandidate_refused _ _ Hnone). simpl.
    rewrite set_connector_id, IH by (by destruct p).
    simpl. by rewrite <- app_assoc.
Qed.

(** The flush of [AcceptOffer]: each candidate is offered to the connection
    in turn; a refusal is a rejected promise that nobody awaits, and the
    candidate is gone. *)
Lemma flushing cs : ∀ p,
  ∃ taken,
    forEach (λ candidate, async (onConnector (addIceCandidate candidate))) cs p
    = (Ret tt, fed taken p, [])
    ∧ taken `sublist_of` cs
    ∧ (isClosed (connector p) = false →
       is_Some (remoteDescription (connector p)) → usable cs → taken = cs).
Proof.
  induction cs as [|c cs IH]; intros p.
  - exists []. simpl. rewrite fed_nil. by split_and!.
  - simpl forEach.
    destruct (addIceCandidate_cases c (connector p)) as [Happlied|[e Hthrown]].
    + destruct (IH (fed [c] p)) as (taken & Hrun & Hsub & Hall).
      exists (c :: taken). split; [|split].
      * unfold bind at 1, async at 1, try_catch at 1, onConnector at 1.
        rewrite Happlied. simpl. fold (fed [c] p). rewrite Hrun.
        by rewrite fed_fed.
      * by apply sublist_skip.
      * intros Hopen Hsome Huse. f_equal. apply Hall; [done|done|].
        intros c' pc' Hc'. apply Huse. by right.
    + destruct (IH p) as (taken & Hrun & Hsub & Hall).
      exists taken. split; [|split].
      * unfold bind at 1, async at 1, try_catch at 1, onConnector at 1.
        rewrite Hthrown. simpl. rewrite set_connector_id. by rewrite Hrun.
      * by apply sublist_cons.
      * intros Hopen Hsome Huse.
        rewrite addIceCandidate_applied in Hthrown;
          [done|done|done|apply Huse; by left].
Qed.

Lemma onConnector_step {A} (c : Cap A) p r pc es :
  c (connector p) = (r, pc, es) → onConnector c p = (r, set_connector pc p, []).
Proof. intros H. unfold onConnector. by rewrite H. Qed.

(** ** Descriptions *)

Lemma applies_true d pc :
  applies d pc = true
  ↔ isClosed pc = false ∧ fits false (type d) (signalingState pc) = true
    ∧ (type d = "rollback" ∨ agentAccepts d pc = true).
Proof.
  unfold applies. rewrite !andb_true_iff, orb_true_iff, negb_true_iff.
  rewrite String.eqb_eq. tauto.
Qed.

Lemma setRemoteDescription_applied d pc :
  applies d pc = true →
  setRemoteDescription d pc = (Ret tt, applyDescription false d pc, []).
Proof.
  intros (Hopen & Hfits & Hagent)%applies_true.
  unfold setRemoteDescription, open_or_throw, bind, get, modify.
  simpl. rewrite Hopen. simpl. rewrite Hfits. simpl.
  destruct Hagent as [Hty|Hagent].
  - by rewrite Hty.
  - rewrite Hagent. simpl. by rewrite andb_false_r.
Qed.

Lemma setRemoteDescription_refused d pc :
  applies d pc = false →
  ∃ e, setRemoteDescription d pc = (Throw e, pc, []).
Proof.
  unfold applies. intros Hno.
  unfold setRemoteDescription, open_or_throw, bind, get, modify. simpl.
  destruct (isClosed pc); simpl in *; [by eexists|].
  destruct (fits false (type d) (signalingState pc)); simpl in *; [|by eexists].
  apply orb_false_iff in Hno as [-> ->]. simpl. by eexists.
Qed.

Lemma setLocalDescription_applied d pc :
  isClosed pc = false →
  fits true (type (default (implicitDescription pc) d)) (signalingState pc) = true →
  setLocalDescription d pc
  = (Ret tt, applyDescription true (default (implicitDescription pc) d) pc, []).
Proof.
  intros Hopen Hfits.
  unfold setLocalDescription, open_or_throw, bind, get, modify.
  simpl. rewrite Hopen. simpl. by rewrite Hfits.
Qed.

Lemma createAnswer_answers pc :
  isClosed pc = false → signalingState pc = "have-remote-offer" →
  createAnswer pc
  = (Ret {| type := "answer"; sdp := agentSdp "answer" pc |}, pc, []).
Proof.
  intros Hopen Hstate. unfold createAnswer, open_or_throw, bind, get.
  simpl. rewrite Hopen. simpl. by rewrite Hstate.
Qed.

(** A remote offer, applied: it is the remote description and is pending. *)
Lemma applyDescription_remote_offer d pc :
  type d = "offer" →
  remoteDescription (applyDescription false d pc) = Some d
  ∧ signalingState (applyDescription false d pc) = "have-remote-offer"
  ∧ isClosed (applyDescription false d pc) = isClosed pc
  ∧ senders (applyDescription false d pc) = senders pc
  ∧ appliedCandidates (applyDescription false d pc) = appliedCandidates pc.
Proof. intros Hty. unfold applyDescription. rewrite Hty. by simpl. Qed.

(** A local answer, applied: it is the local description, the remote
    description stays, and the connection is stable. *)
Lemma applyDescription_local_answer d pc :
  type d = "answer" →
  localDescription (applyDescription true d pc) = Some d
  ∧ remoteDescription (applyDescription true d pc) = remoteDescription pc
  ∧ signalingState (applyDescription true d pc) = "stable"
  ∧ isClosed (applyDescription true d pc) = isClosed pc
  ∧ senders (applyDescription true d pc) = senders pc
  ∧ appliedCandidates (applyDescription true d pc) = appliedCandidates pc.
Proof. intros Hty. unfold applyDescription. rewrite Hty. by simpl. Qed.

(** A local offer, applied: it is the local description and is pending. *)
Lemma applyDescription_local_offer d pc :
  type d = "offer" →
  localDescription (applyDescription true d pc) = Some d
  ∧ remoteDescription (applyDescription true d pc) = remoteDescription pc
  ∧ signalingState (applyDescription true d pc) = "have-local-offer".
Proof. intros Hty. unfold applyDescription. rewrite Hty. by simpl. Qed.

(** Whatever is applied, the connection stays as open as it was and keeps
    its senders and the candidates it has accepted. *)
Lemma applyDescription_frame isLocal d pc :
  isClosed (applyDescription isLocal d pc) = isClosed pc
  ∧ senders (applyDescription isLocal d pc) = senders pc
  ∧ appliedCandidates (applyDescription isLocal d pc) = appliedCandidates pc.
Proof.
  unfold applyDescription.
  by destruct (type d =? "rollback"), (type d =? "answer"), isLocal.
Qed.

(** One step of a program whose first action is known to return. *)
Ltac step lem :=
  erewrite bind_ret_step by (lem); cbv beta.

Ltac on_connector lem :=
  eapply onConnector_step; apply lem; simpl; eauto.

(** [AcceptOffer] on a connection that applies the offer. *)
Lemma AcceptOffer_applied_run offer p :
  type offer = "offer" → applies offer (connector p) = true →
  ∃ p' answer taken,
    AcceptOffer offer p = (Ret tt, p', [OnAcceptedOffer (Some answer)])
    ∧ type answer = "answer"
    ∧ localDescription (connector p') = Some answer
    ∧ remoteDescription (connector p') = Some offer
    ∧ signalingState (connector p') = "stable"
    ∧ isClosed (connector p') = false
    ∧ senders (connector p') = senders (connector p)
    ∧ appliedCandidates (connector p') = appliedCandidates (connector p) ++ taken
    ∧ taken `sublist_of` remoteCandidates p
    ∧ (usable (remoteCandidates p) → taken = remoteCandidates p)
    ∧ remoteCandidates p' = []
    ∧ localCandidates p' = localCandidates p
    ∧ rtpSenders p' = rtpSenders p
    ∧ shouldOffer p' = shouldOffer p
    ∧ answer = {| type := "answer";
                  sdp := agentSdp "answer"
                           (applyDescription false offer (connector p)) |}.
Proof.
  intros Hty Happlies.
  pose proof Happlies as (Hopen & _ & _)%applies_true.
  destruct (applyDescription_remote_offer offer (connector p) Hty)
    as (Hremote1 & Hstate1 & Hopen1 & Hsenders1 & Happlied1).
  remember (applyDescription false offer (connector p)) as pc1 eqn:Hpc1.
  remember {| type := "answer"; sdp := agentSdp "answer" pc1 |} as answer
    eqn:Hanswer.
  assert (type answer = "answer") as Htya by (by subst answer).
  destruct (applyDescription_local_answer answer pc1 Htya)
    as (Hlocal2 & Hremote2 & Hstate2 & Hopen2 & Hsenders2 & Happlied2).
  remember (applyDescription true answer pc1) as pc2 eqn:Hpc2.
  destruct (flushing (remoteCandidates p) (set_connector pc2 p))
    as (taken & Hflush & Hsub & Hall).
  exists (set_remoteCandidates [] (fed taken (set_connector pc2 p))), answer, taken.
  split.
  - unfold AcceptOffer, async, try_catch.
    step ltac:(eapply onConnector_step; by apply setRemoteDescription_applied).
    rewrite <- Hpc1.
    step ltac:(eapply onConnector_step; apply createAnswer_answers; simpl;
               [congruence|done]).
    cbn [connector set_connector]. rewrite <- Hanswer.
    step ltac:(eapply onConnector_step; apply setLocalDescription_applied; simpl;
               [congruence|by rewrite Htya, Hstate1]).
    cbn [connector set_connector]. change (default _ (Some answer)) with answer.
    rewrite <- Hpc2.
    step ltac:(reflexivity).
    step ltac:(exact Hflush).
    simpl. by rewrite Hlocal2.
  - simpl. split_and!; try done.
    + congruence.
    + congruence.
    + congruence.
    + congruence.
    + intros Huse. apply Hall; simpl; [congruence| |done].
      rewrite Hremote2, Hremote1. by eexists.
Qed.

(** [AcceptOffer] on a connection that does not apply the description: the
    promise is rejected at the first step and nothing has happened. *)
Lemma AcceptOffer_refused_run offer p :
  applies offer (connector p) = false → AcceptOffer offer p = (Ret tt, p, []).
Proof.
  intros Hno. destruct (setRemoteDescription_refused _ _ Hno) as [e He].
  unfold AcceptOffer, async, try_catch.
  rewrite (bind_throw_step _ _ _ _ _ _ (onConnector_step _ _ _ _ _ He)).
  simpl. by rewrite set_connector_id.
Qed.

Lemma createAnswer_refused pc :
  signalingState pc ≠ "have-remote-offer" →
  signalingState pc ≠ "have-local-pranswer" →
  createAnswer pc = (Throw InvalidStateError, pc, []).
Proof.
  intros H1 H2. unfold createAnswer, open_or_throw, bind, get. simpl.
  destruct (isClosed pc); simpl; [done|].
  by rewrite (proj2 (String.eqb_neq _ _) H1), (proj2 (String.eqb_neq _ _) H2).
Qed.

(** [AcceptOffer] given a description that is not an offer: if the
    connection applies it, there is nothing to answer, and the method stops
    there. *)
Lemma AcceptOffer_no_offer_run d p :
  type d ≠ "offer" → applies d (connector p) = true →
  AcceptOffer d p
  = (Ret tt, set_connector (applyDescription false d (connector p)) p, []).
Proof.
  intros Hty Happlies.
  assert (signalingState (applyDescription false d (connector p))
          = signalingAfter false (type d)) as Hstate.
  { unfold applyDescription.
    by destruct (type d =? "rollback"), (type d =? "answer"). }
  assert (signalingAfter false (type d) ≠ "have-remote-offer"
          ∧ signalingAfter false (type d) ≠ "have-local-pranswer") as [H1 H2].
  { unfold signalingAfter. rewrite (proj2 (String.eqb_neq _ _) Hty).
    by destruct (type d =? "pranswer"). }
  unfold AcceptOffer, async, try_catch.
  step ltac:(eapply onConnector_step; by apply setRemoteDescription_applied).
  erewrite bind_throw_step;
    [|eapply onConnector_step; apply createAnswer_refused; simpl; by rewrite Hstate].
  reflexivity.
Qed.


(** ** Outbound tracks *)

Lemma removeTrack_open i pc :
  isClosed pc = false → i < List.length (senders pc) →
  removeTrack i pc = (Ret tt, set_senders (<[i := None]> (senders pc)) pc, []).
Proof.
  intros H Hi. unfold removeTrack, open_or_throw, bind, get, modify.
  simpl. rewrite H. simpl. by rewrite bool_decide_eq_true_2.
Qed.

Lemma addTrack_open t pc :
  isClosed pc = false → Some t ∉ senders pc →
  addTrack t pc
  = (Ret (List.length (senders pc)), set_senders (senders pc ++ [Some t]) pc, []).
Proof.
  intros H Ht. unfold addTrack, open_or_throw, bind, get, modify.
  simpl. rewrite H. simpl. by rewrite bool_decide_eq_false_2.
Qed.

Lemma length_detach l : ∀ ss, List.length (detach l ss) = List.length ss.
Proof.
  induction l as [|i l IH]; intros ss; simpl; [done|].
  by rewrite IH, length_insert.
Qed.

Lemma detach_lookup l : ∀ ss i,
  detach l ss !! i
  = if bool_decide (i ∈ l) then (λ _, None) <$> ss !! i else ss !! i.
Proof.
  induction l as [|j l IH]; intros ss i.
  - done.
  - change (detach (j :: l) ss) with (detach l (<[j := None]> ss)).
    rewrite IH. destruct (decide (i = j)) as [Heq|Hne]; [subst i|].
    + rewrite (bool_decide_eq_true_2 (j ∈ j :: l)) by (by left).
      destruct (decide (j < List.length ss)).
      * rewrite list_lookup_insert_eq by done.
        destruct (lookup_lt_is_Some_2 ss j) as [x ->]; [done|].
        by case_bool_decide.
      * rewrite list_insert_ge by lia.
        rewrite (lookup_ge_None_2 ss j) by lia. by case_bool_decide.
    + rewrite list_lookup_insert_ne by done.
      rewrite (bool_decide_ext (i ∈ j :: l) (i ∈ l)); [done|].
      rewrite elem_of_cons. split; [|by right]. by intros [?|?].
Qed.

Lemma detaching l : ∀ p,
  isClosed (connector p) = false →
  Forall (λ s, s < List.length (senders (connector p))) l →
  forEach (λ sender, onConnector (removeTrack sender)) l p
  = (Ret tt,
     set_connector (set_senders (detach l (senders (connector p))) (connector p)) p,
     []).
Proof.
  induction l as [|i l IH]; intros p Hopen Hl; simpl.
  - by destruct p as [[] ????].
  - inversion Hl as [|?? Hi Hl']; subst.
    step ltac:(on_connector removeTrack_open).
    rewrite IH; simpl; [done|done|].
    by rewrite length_insert.
Qed.

Lemma attach_one t p :
  isClosed (connector p) = false → Some t ∉ senders (connector p) →
  bind (onConnector (addTrack t))
       (λ sender, modify (λ p, set_rtpSenders (rtpSenders p ++ [sender]) p)) p
  = (Ret tt,
     set_rtpSenders (rtpSenders p ++ [List.length (senders (connector p))])
       (set_connector
          (set_senders (senders (connector p) ++ [Some t]) (connector p)) p),
     []).
Proof.
  intros Hopen Ht.
  by step ltac:(eapply onConnector_step; by apply addTrack_open).
Qed.

Lemma attaching ts : ∀ p,
  isClosed (connector p) = false → NoDup ts →
  (∀ t, t ∈ ts → Some t ∉ senders (connector p)) →
  forEach
    (λ track,
       let! sender := onConnector (addTrack track) in
       modify (λ p, set_rtpSenders (rtpSenders p ++ [sender]) p))
    ts p
  = (Ret tt,
     set_rtpSenders
       (rtpSenders p ++ seq (List.length (senders (connector p))) (List.length ts))
       (set_connector
          (set_senders (senders (connector p) ++ (Some <$> ts)) (connector p)) p),
     []).
Proof.
  induction ts as [|t ts IH]; intros p Hopen Hnd Hfresh; simpl.
  - rewrite !app_nil_r. by destruct p as [[] ????].
  - apply NoDup_cons in Hnd as [Ht Hnd].
    step ltac:(apply attach_one; [done|apply Hfresh; left]).
    rewrite IH; simpl; [|done|done|].
    + rewrite length_app. simpl.
      rewrite <- !(assoc_L (++)). simpl.
      by replace (List.length (senders (connector p)) + 1)
        with (S (List.length (senders (connector p)))) by lia.
    + intros t' Ht'. rewrite elem_of_app, list_elem_of_singleton.
      intros [?|[= ->]]; [|done]. eapply Hfresh; [right|]; done.
Qed.

Lemma detach_tracked p :
  tracked p →
  detach (rtpSenders p) (senders (connector p))
  = replicate (List.length (senders (connector p))) None.
Proof.
  intros [_ Hlive]. apply list_eq. intros i.
  rewrite detach_lookup.
  destruct (decide (i < List.length (senders (connector p)))) as [Hi|Hi].
  - rewrite lookup_replicate_2 by done.
    destruct (lookup_lt_is_Some_2 _ _ Hi) as [x Hx]. rewrite Hx.
    case_bool_decide as Hin; [done|].
    destruct x as [t|]; [|done]. by apply Hlive in Hx.
  - rewrite (lookup_ge_None_2 (replicate _ _)) by (rewrite length_replicate; lia).
    rewrite (lookup_ge_None_2 (senders _)) by lia. by case_bool_decide.
Qed.

Lemma StopLocalStream_run p :
  isClosed (connector p) = false →
  Forall (λ s, s < List.length (senders (connector p))) (rtpSenders p) →
  StopLocalStream p
  = (Ret tt,
     set_connector
       (set_senders (detach (rtpSenders p) (senders (connector p))) (connector p)) p,
     []).
Proof.
  intros Hopen Hvalid. unfold StopLocalStream.
  step ltac:(reflexivity).
  step ltac:(by apply detaching).
  reflexivity.
Qed.

Lemma omap_id_replicate_None {A} n : omap id (replicate n (@None A)) = [].
Proof. induction n; simpl; done. Qed.

Lemma omap_id_Some {A} (l : list A) : omap id (Some <$> l) = l.
Proof. induction l; simpl; [done|]. by f_equal. Qed.

Lemma StartLocalStream_run stream p :
  isClosed (connector p) = false → tracked p →
  StartLocalStream stream p
  = (Ret tt,
     set_rtpSenders
       (rtpSenders p
        ++ seq (List.length (senders (connector p))) (List.length (getTracks stream)))
       (set_connector
          (set_senders
             (replicate (List.length (senders (connector p))) None
              ++ (Some <$> getTracks stream))
             (connector p)) p),
     []).
Proof.
  intros Hopen Htr. unfold StartLocalStream.
  step ltac:(apply StopLocalStream_run; [done|apply Htr]).
  rewrite attaching; simpl.
  - rewrite (detach_tracked p Htr), length_replicate. done.
  - done.
  - unfold getTracks. apply NoDup_elements.
  - intros t _. rewrite (detach_tracked p Htr).
    intros Hin%elem_of_replicate. by destruct Hin.
Qed.

Lemma StartLocalStream_keeps_live stream p :
  live p → live (StartLocalStream stream p).1.2.
Proof.
  intros [Hopen Htr]. rewrite StartLocalStream_run by done.
  destruct Htr as [Hvalid Hlive]. split; [done|]. split; simpl.
  - rewrite Forall_app, length_app, length_replicate, length_fmap. split.
    + eapply Forall_impl; [exact Hvalid|]. simpl. lia.
    + apply Forall_forall. intros i Hi%elem_of_seq. lia.
  - intros i t Hi. rewrite elem_of_app. right. apply elem_of_seq.
    apply lookup_lt_Some in Hi as Hlt.
    rewrite length_app, length_replicate, length_fmap in Hlt.
    split; [|lia].
    destruct (decide (i < List.length (senders (connector p)))) as [Hlt'|]; [|lia].
    rewrite lookup_app_l in Hi by (by rewrite length_replicate).
    by rewrite lookup_replicate_2 in Hi.
Qed.

Lemma StartLocalStream_attaches stream p :
  live p →
  attachedTracks (connector (StartLocalStream stream p).1.2) = getTracks stream.
Proof.
  intros [Hopen Htr]. rewrite StartLocalStream_run by done.
  unfold attachedTracks. simpl.
  by rewrite omap_app, omap_id_replicate_None, omap_id_Some.
Qed.

Lemma omap_id_nil {A} (l : list (option A)) :
  omap id l = [] → l = replicate (List.length l) None.
Proof.
  induction l as [|[x|] l IH]; simpl; [done|done|].
  intros H. f_equal. by apply IH.
Qed.

Lemma StartLocalStream_closed stream p :
  isClosed (connector p) = true →
  rtpSenders p ≠ [] ∨ getTracks stream ≠ [] →
  StartLocalStream stream p = (Throw InvalidStateError, p, []).
Proof.
  intros Hclosed Hwork.
  assert (∀ i, onConnector (removeTrack i) p = (Throw InvalidStateError, p, []))
    as Hremove.
  { intros i. unfold onConnector, removeTrack, open_or_throw, bind, get.
    simpl. rewrite Hclosed. simpl. by rewrite set_connector_id. }
  assert (∀ t, onConnector (addTrack t) p = (Throw InvalidStateError, p, []))
    as Hadd.
  { intros t. unfold onConnector, addTrack, open_or_throw, bind, get.
    simpl. rewrite Hclosed. simpl. by rewrite set_connector_id. }
  unfold StartLocalStream, StopLocalStream.
  destruct (rtpSenders p) as [|s ss] eqn:Hss.
  - destruct Hwork as [?|Hwork]; [done|].
    destruct (getTracks stream) as [|t ts]; [done|].
    erewrite bind_ret_step; cycle 1.
    { unfold bind, get. simpl. rewrite Hss. reflexivity. }
    simpl. by rewrite (bind_throw_step _ _ _ _ _ _
                         (bind_throw_step _ _ _ _ _ _ (Hadd t))).
  - apply bind_throw_step. unfold bind at 1, get at 1. simpl. rewrite Hss. simpl.
    by rewrite (bind_throw_step _ _ _ _ _ _
                  (bind_throw_step _ _ _ _ _ _ (Hremove s))).
Qed.

(** C7, as the code has it.  On a connector whose senders are all recorded,
    as they are on every connector the code creates.  While the connection
    is open: [StopLocalStream], the first step of [StartLocalStream],
    detaches every track the connection sends, and changes nothing when the
    connection sends none; [StartLocalStream(stream)] then returns normally,
    the tracks the connection sends are exactly the tracks of [stream], and
    the connector is again open with all its senders recorded, so that the
    call can be repeated.  Once the connection is closed: the call throws
    [InvalidStateError] at the first sender to remove or track to add, and
    nothing is detached or attached. *)
Theorem start_local_stream_replaces_tracks (p : PeerConnector) (stream : MediaStream) :
  tracked p →
  if isClosed (connector p)
  then rtpSenders p ≠ [] ∨ getTracks stream ≠ [] →
       StartLocalStream stream p = (Throw InvalidStateError, p, [])
  else
    (∃ p1, StopLocalStream p = (Ret tt, p1, [])
       ∧ attachedTracks (connector p1) = []
       ∧ (attachedTracks (connector p) = [] → p1 = p))
    ∧ (∃ p2, StartLocalStream stream p = (Ret tt, p2, [])
         ∧ attachedTracks (connector p2) = getTracks stream
         ∧ list_to_set (attachedTracks (connector p2)) = tracks stream
         ∧ isClosed (connector p2) = false ∧ tracked p2).
Proof.
  intros Htr. destruct (isClosed (connector p)) eqn:Hopen.
  { intros Hwork. by apply StartLocalStream_closed. }
  split.
  - eexists. split; [apply StopLocalStream_run; [done|apply Htr]|].
    split.
    + simpl. unfold attachedTracks. simpl.
      by rewrite (detach_tracked p Htr), omap_id_replicate_None.
    + intros Hnone. rewrite (detach_tracked p Htr).
      unfold attachedTracks in Hnone. rewrite <- (omap_id_nil _ Hnone).
      by destruct p as [[] ????].
  - exists (StartLocalStream stream p).1.2.
    pose proof (StartLocalStream_run stream p Hopen Htr) as Hrun.
    pose proof (StartLocalStream_attaches stream p (conj Hopen Htr)) as Hatt.
    destruct (StartLocalStream_keeps_live stream p (conj Hopen Htr)) as [Hopen2 Htr2].
    split; [by rewrite Hrun|]. split; [done|].
    split; [rewrite Hatt; unfold getTracks; apply list_to_set_elements_L|done].
Qed.

(** ** Invariants of programs *)

Section Respects.
Context {S E : Type} (I : S → Prop) (Q : E → Prop).

Lemma respects_ret {A} (a : A) : respects I Q (ret a).
Proof. intros s Hs. by split. Qed.

Lemma respects_throw {A} e : respects I Q (@throw S E A e).
Proof. intros s Hs. by split. Qed.

Lemma respects_get : respects I Q get.
Proof. intros s Hs. by split. Qed.

Lemma respects_emit e : Q e → respects I Q (emit e).
Proof. intros He s Hs. split; [done|]. by apply Forall_singleton. Qed.

Lemma respects_modify f : (∀ s, I s → I (f s)) → respects I Q (modify f).
Proof. intros Hf s Hs. split; [by apply Hf|done]. Qed.

Lemma respects_bind {A B} (p : Prog S E A) (k : A → Prog S E B) :
  respects I Q p → (∀ a, respects I Q (k a)) → respects I Q (bind p k).
Proof.
  intros Hp Hk s Hs. unfold bind. specialize (Hp s Hs).
  destruct (p s) as [[[a|e] s1] es1]; simpl in *; [|done].
  destruct Hp as [Hs1 Hes1]. specialize (Hk a s1 Hs1).
  destruct (k a s1) as [[r s2] es2]; simpl in *.
  split; [tauto|]. apply Forall_app. tauto.
Qed.

Lemma respects_try_catch {A} (p : Prog S E A) h :
  respects I Q p → (∀ e, respects I Q (h e)) → respects I Q (try_catch p h).
Proof.
  intros Hp Hh s Hs. unfold try_catch. specialize (Hp s Hs).
  destruct (p s) as [[[a|e] s1] es1]; simpl in *; [done|].
  destruct Hp as [Hs1 Hes1]. specialize (Hh e s1 Hs1).
  destruct (h e s1) as [[r s2] es2]; simpl in *.
  split; [tauto|]. apply Forall_app. tauto.
Qed.

Lemma respects_async p : respects I Q p → respects I Q (async p).
Proof. intros Hp. apply respects_try_catch; [done|]. intros _. apply respects_ret. Qed.

Lemma respects_when c p : respects I Q p → respects I Q (when c p).
Proof. intros Hp. destruct c; [done|apply respects_ret]. Qed.

Lemma respects_forEach {A} (f : A → Prog S E unit) l :
  (∀ x, x ∈ l → respects I Q (f x)) → respects I Q (forEach f l).
Proof.
  induction l as [|x l IH]; intros Hf; simpl; [apply respects_ret|].
  apply respects_bind; [apply Hf; by left|]. intros _.
  apply IH. intros y Hy. apply Hf. by right.
Qed.
End Respects.

Lemma respects_onConnector {A} (I : PeerConnector → Prop) Q (c : Cap A) :
  (∀ p pc, I p → I (set_connector pc p)) → respects I Q (onConnector c).
Proof.
  intros HI p Hp. unfold onConnector.
  destruct (c (connector p)) as [[r pc] es]; simpl. split; [by apply HI|done].
Qed.

Ltac calm :=
  repeat first
    [ apply respects_async | apply respects_try_catch | apply respects_bind
    | apply respects_forEach | apply respects_get | apply respects_ret
    | apply respects_throw | apply respects_onConnector
    | apply respects_modify | apply respects_emit | apply respects_when
    | progress intros | done ].

Lemma AcceptOffer_calm b offer : respects (hasRole b) noChange (AcceptOffer offer).
Proof. unfold AcceptOffer. calm. Qed.

Lemma AcceptAnswer_calm b answer : respects (hasRole b) noChange (AcceptAnswer answer).
Proof. unfold AcceptAnswer. calm. Qed.

Lemma AddRemoteCandidates_calm b cs :
  respects (hasRole b) noChange (AddRemoteCandidates cs).
Proof. unfold AddRemoteCandidates. calm. Qed.

Lemma withDescription_calm b data method :
  (∀ d, respects (hasRole b) noChange (method d)) →
  respects (hasRole b) noChange (withDescription data method).
Proof.
  intros H. unfold withDescription.
  destruct (asDescription data); [done|apply respects_ret].
Qed.

Lemma withCandidates_calm b data method :
  (∀ cs, respects (hasRole b) noChange (method cs)) →
  respects (hasRole b) noChange (withCandidates data method).
Proof. intros H. destruct data; simpl; [apply respects_ret|apply respects_ret|done]. Qed.

Lemma StartLocalStream_silent stream p : (StartLocalStream stream p).2 = [].
Proof.
  assert (respects (λ _, True) (λ _ : Output, False) (StartLocalStream stream)) as H.
  { unfold StartLocalStream, StopLocalStream. calm. }
  destruct (H p I) as [_ HF]. destruct (StartLocalStream stream p).2 as [|out outs]; [done|].
  by inversion HF.
Qed.

(** ** The registry *)

Lemma getOwn_Some {V} (props : list (string * V)) k v :
  getOwn props k = Some v → (k, v) ∈ props.
Proof.
  induction props as [|[k' v'] props IH]; simpl; [done|].
  destruct (String.eqb_spec k' k) as [->|Hne].
  - intros [= ->]. by left.
  - intros H. right. by apply IH.
Qed.

Lemma getOwn_None {V} (props : list (string * V)) k :
  getOwn props k = None ↔ k ∉ props.*1.
Proof.
  induction props as [|[k' v'] props IH]; simpl.
  - split; [intros _; apply not_elem_of_nil|done].
  - rewrite not_elem_of_cons. destruct (String.eqb_spec k' k) as [->|Hne].
    + split; [done|]. by intros [? _].
    + rewrite IH. split; [by split|by intros [_ ?]].
Qed.

Lemma hasOwn_false {V} (props : list (string * V)) k :
  hasOwn props k = false ↔ getOwn props k = None.
Proof. unfold hasOwn. by rewrite bool_decide_eq_false, getOwn_None. Qed.

Lemma hasOwn_true {V} (props : list (string * V)) k v :
  getOwn props k = Some v → hasOwn props k = true.
Proof.
  intros H. destruct (hasOwn props k) eqn:Hh; [done|].
  apply hasOwn_false in Hh. congruence.
Qed.

Lemma getOwn_app {V} (props1 props2 : list (string * V)) k :
  getOwn (props1 ++ props2) k
  = match getOwn props1 k with Some v => Some v | None => getOwn props2 k end.
Proof.
  induction props1 as [|[k' v'] props1 IH]; simpl; [done|].
  by destruct (k' =? k).
Qed.

Lemma getOwn_setOwn_new {V} (props : list (string * V)) k v :
  hasOwn props k = false → getOwn (setOwn props k v) k = Some v.
Proof.
  intros H. unfold setOwn. rewrite H, getOwn_app.
  apply hasOwn_false in H. rewrite H. simpl. by rewrite String.eqb_refl.
Qed.

Lemma getOwn_deleteOwn {V} (props : list (string * V)) k k' :
  getOwn (deleteOwn props k) k' = if decide (k' = k) then None else getOwn props k'.
Proof.
  unfold deleteOwn. induction props as [|[k0 v0] props IH]; simpl.
  - by case_decide.
  - rewrite filter_cons. simpl. destruct (decide (k0 ≠ k)) as [Hne|Heq]; simpl.
    + rewrite IH. destruct (String.eqb_spec k0 k') as [->|Hne']; [|done].
      by rewrite decide_False.
    + apply dec_stable in Heq. subst k0. rewrite IH.
      destruct (String.eqb_spec k k') as [->|Hne']; [|done].
      by rewrite !decide_True.
Qed.

Lemma NoDup_snd_inj {A B} (l : list (A * B)) x1 x2 y :
  NoDup l.*2 → (x1, y) ∈ l → (x2, y) ∈ l → x1 = x2.
Proof.
  induction l as [|[x0 y0] l IH]; simpl; intros Hnd H1 H2.
  - by apply elem_of_nil in H1.
  - apply NoDup_cons in Hnd as [Hy0 Hnd].
    assert (∀ x, (x, y0) ∉ l) as Hfresh.
    { intros x Hx. apply Hy0. apply list_elem_of_fmap. by exists (x, y0). }
    apply elem_of_cons in H1 as [H1|H1]; apply elem_of_cons in H2 as [H2|H2].
    + congruence.
    + injection H1 as -> ->. by apply Hfresh in H2.
    + injection H2 as -> ->. by apply Hfresh in H1.
    + by apply IH.
Qed.

(** ** Connection changes *)

Lemma runOn_step {A} o (op : Method A) m p r p' outs :
  objects m !! o = Some p → op p = (r, p', outs) →
  runOn o op m = (Ret (r, outs), set_objects (<[o := p']> (objects m)) m, []).
Proof. intros Ho Hop. unfold runOn. by rewrite Ho, Hop. Qed.

Lemma getConnector_step fromId m o :
  getOwn (connectors m) fromId = Some o → getConnector fromId m = (Ret o, m, []).
Proof. intros H. unfold getConnector, bind, get. simpl. by rewrite H. Qed.

(** C3, as the code has it.  For a connector registered under [fromId], every
    connection change it reports is forwarded as [ConnectionChanged fromId
    change], and nothing else is sent or notified.  When the state of the
    change is "failed", whichever of the three kinds (Ice, RTC, Signal) the
    change has, the connector is shut down (its connection closed) and its
    entry leaves the registry, the other entries and connectors staying as
    they were; for any other state the manager is unchanged. *)
Theorem failed_change_tears_down
    (m : ConnectionManager) (fromId : string) (o : nat) (p : PeerConnector)
    (change : ConnectionChange) :
  getOwn (connectors m) fromId = Some o →
  objects m !! o = Some p →
  ∃ m', delegate fromId (OnConnectionChanged change) m
        = (Ret tt, m', [ConnectionChanged fromId change])
    ∧ if State change =? "failed"
      then objects m' !! o = Some (set_connector (close (connector p)) p)
           ∧ registered m' fromId = None
           ∧ (∀ k, k ≠ fromId → getOwn (connectors m') k = getOwn (connectors m) k)
           ∧ (∀ i, i ≠ o → objects m' !! i = objects m !! i)
      else m' = m.
Proof.
  intros Hreg Hobj. unfold delegate.
  step ltac:(reflexivity).
  destruct (State change =? "failed") eqn:Hfailed; simpl.
  - step ltac:(by apply getConnector_step).
    step ltac:(by eapply runOn_step).
    simpl. eexists. split; [reflexivity|]. simpl.
    split; [apply list_lookup_insert_eq; by eapply lookup_lt_Some|].
    split; [unfold registered; simpl; by rewrite getOwn_deleteOwn, decide_True|].
    split.
    + intros k Hk. by rewrite getOwn_deleteOwn, decide_False.
    + intros i Hi. by apply list_lookup_insert_ne.
  - by exists m.
Qed.

(** ** Envelopes *)

(** C9. An envelope whose [FromId] is the local [AttendeeId] is dropped:
    [OnMessage] returns with the manager (registry and connectors) as it was
    and with nothing sent and nothing notified. *)
Theorem own_envelope_ignored (m : ConnectionManager) (message : Envelope) :
  FromId message = AttendeeId m →
  OnMessage message m = (Ret tt, m, []).
Proof.
  intros Hself. unfold OnMessage, bind, get. simpl.
  by rewrite Hself, String.eqb_refl.
Qed.

(** C10. An envelope is its room, its sender, its type and its payload, and
    nothing more (no addressee); and the room plays no part in the handling:
    two envelopes that differ in [RoomId] only are handled alike, with the
    same outcome, the same manager afterwards and the same sends and
    notifications. *)
Theorem room_plays_no_part
    (m : ConnectionManager) (room1 room2 fromId ty : string) (data : Any) :
  (∀ e : Envelope,
     e = {| RoomId := RoomId e; FromId := FromId e; Type' := Type' e;
            Data := Data e |})
  ∧ OnMessage {| RoomId := room1; FromId := fromId; Type' := ty; Data := data |} m
    = OnMessage {| RoomId := room2; FromId := fromId; Type' := ty; Data := data |} m.
Proof. split; [by intros []|reflexivity]. Qed.

(** ** Creation of connectors *)

Lemma invoke_step fromId o op m p r p' :
  objects m !! o = Some p → op p = (r, p', []) →
  invoke fromId o op m
  = (match r with Ret _ => Ret tt | Throw e => Throw e end,
     set_objects (<[o := p']> (objects m)) m, []).
Proof.
  intros Ho Hop. unfold invoke.
  step ltac:(by eapply runOn_step).
  simpl. unfold bind, ret. simpl. by destruct r.
Qed.

Lemma invoke_returns fromId o op m p p' :
  objects m !! o = Some p → op p = (Ret tt, p', []) →
  invoke fromId o op m = (Ret tt, set_objects (<[o := p']> (objects m)) m, []).
Proof. intros Ho Hop. by rewrite (invoke_step _ _ _ _ _ _ _ Ho Hop). Qed.

Lemma invoke_throws fromId o op m p p' e :
  objects m !! o = Some p → op p = (Throw e, p', []) →
  invoke fromId o op m = (Throw e, set_objects (<[o := p']> (objects m)) m, []).
Proof. intros Ho Hop. by rewrite (invoke_step _ _ _ _ _ _ _ Ho Hop). Qed.

Lemma newPeerConnector_tracked b : tracked (newPeerConnector b).
Proof. split; [by apply Forall_nil|]. intros i t. simpl. by destruct i. Qed.

Lemma hasOwnProperty_plain k m :
  shadowed m = false →
  hasOwnProperty k m = (Ret (hasOwn (connectors m) k), m, []).
Proof.
  unfold shadowed. intros H. unfold hasOwnProperty, bind, get. simpl. by rewrite H.
Qed.

Lemma hasOwnProperty_shadowed k m :
  shadowed m = true → hasOwnProperty k m = (Throw TypeError, m, []).
Proof.
  unfold shadowed. intros H. unfold hasOwnProperty, bind, get. simpl. by rewrite H.
Qed.

Lemma hasOwnProperty_respects (I : ConnectionManager → Prop) (Q : Effect → Prop) k :
  respects I Q (hasOwnProperty k).
Proof.
  unfold hasOwnProperty. apply respects_bind; [apply respects_get|]. intros m.
  destruct (hasOwn _ _); [apply respects_throw|apply respects_ret].
Qed.

Lemma setConnector_new k o m :
  k ≠ "__proto__" → hasOwn (connectors m) k = false →
  setConnector k o m = set_connectors (connectors m ++ [(k, o)]) m.
Proof.
  intros Hk Hnew. unfold setConnector, setOwn. rewrite Hnew.
  by rewrite (proj2 (String.eqb_neq _ _) Hk).
Qed.

Lemma setConnector_proto o m :
  hasOwn (connectors m) "__proto__" = false →
  setConnector "__proto__" o m = set_prototype (Some o) m.
Proof. intros Hnew. unfold setConnector. by rewrite Hnew. Qed.

(** A registry whose method is hidden: the connector is not even looked up. *)
Lemma CreateConnector_shadowed fromId m :
  shadowed m = true → CreateConnector fromId m = (Throw TypeError, m, []).
Proof.
  intros H. unfold CreateConnector.
  by rewrite (bind_throw_step _ _ _ _ _ _ (hasOwnProperty_shadowed fromId m H)).
Qed.

Lemma CreateConnector_known fromId m :
  shadowed m = false → hasOwn (connectors m) fromId = true →
  CreateConnector fromId m = (Ret tt, m, []).
Proof.
  intros Hplain H. unfold CreateConnector.
  step ltac:(by apply hasOwnProperty_plain). by rewrite H.
Qed.

Lemma CreateConnector_new fromId m :
  shadowed m = false → hasOwn (connectors m) fromId = false →
  CreateConnector fromId m
  = (Ret tt,
     setConnector fromId (List.length (objects m))
       (set_objects (objects m ++ [freshConnector fromId m]) m), []).
Proof.
  intros Hplain Hnew. unfold CreateConnector.
  step ltac:(by apply hasOwnProperty_plain). rewrite Hnew.
  step ltac:(reflexivity).
  step ltac:(reflexivity).
  step ltac:(eapply invoke_returns;
             [simpl; apply list_lookup_middle; reflexivity
             |apply StartLocalStream_run;
              [reflexivity|apply newPeerConnector_tracked]]).
  simpl. unfold modify, freshConnector. simpl.
  rewrite insert_app_r_alt by done. rewrite Nat.sub_diag. simpl.
  by rewrite StartLocalStream_run by (done || apply newPeerConnector_tracked).
Qed.

Lemma StartLocalStream_keeps_role stream p :
  shouldOffer (StartLocalStream stream p).1.2 = shouldOffer p.
Proof.
  assert (respects (hasRole (shouldOffer p)) (λ _, True) (StartLocalStream stream))
    as H by (unfold StartLocalStream, StopLocalStream; calm).
  by destruct (H p eq_refl).
Qed.

Lemma freshConnector_flag fromId m :
  shouldOffer (freshConnector fromId m) = String.ltb fromId (AttendeeId m).
Proof. unfold freshConnector. by rewrite StartLocalStream_keeps_role. Qed.

Lemma delegates_of_calm_method fromId outs : ∀ m,
  Forall noChange outs →
  ∃ es, forEach (delegate fromId) outs m = (Ret tt, m, es).
Proof.
  induction outs as [|out outs IH]; intros m Houts; simpl; [by eexists|].
  inversion Houts as [|?? Hout Houts']; subst.
  destruct (IH m Houts') as [es Hes]. unfold bind.
  destruct out; simpl in *; try done; rewrite Hes; by eexists.
Qed.

(** A method that reports no connection change, called through the manager:
    the registry, its prototype and the number of connector objects stay as
    they are, and no connector changes its role. *)
Lemma invoke_calm r pr n o b fromId o' op :
  (∀ b', respects (hasRole b') noChange op) →
  respects (λ m, census r pr n m ∧ flagged o b m) (λ _, True) (invoke fromId o' op).
Proof.
  intros Hop m [(Hr & Hpr & Hn) (p & Hp & Hb)]. split; [|apply Forall_true; done].
  unfold invoke, bind, runOn.
  destruct (objects m !! o') as [p0|] eqn:Hp0; [|by split; [|eexists]].
  destruct (Hop (shouldOffer p0) p0) as [Hrole Houts]; [done|].
  destruct (op p0) as [[res p0'] outs]; simpl in *.
  destruct (delegates_of_calm_method fromId outs
              (set_objects (<[o' := p0']> (objects m)) m) Houts) as [es ->].
  assert (census r pr n (set_objects (<[o' := p0']> (objects m)) m)
          ∧ flagged o b (set_objects (<[o' := p0']> (objects m)) m)) as HJ.
  { split; [split_and!; simpl; [done|done|by rewrite length_insert]|].
    unfold flagged. simpl. destruct (decide (o = o')) as [->|Hne].
    - exists p0'. split; [apply list_lookup_insert_eq; by eapply lookup_lt_Some|].
      unfold hasRole in Hrole. congruence.
    - exists p. by rewrite list_lookup_insert_ne. }
  by destruct res.
Qed.

Lemma invoke_calm_census r pr n k o op :
  (∀ b, respects (hasRole b) noChange op) →
  respects (census r pr n) (λ _, True) (invoke k o op).
Proof.
  intros Hop m (Hr & Hpr & Hn). split; [|apply Forall_true; done].
  unfold invoke, bind, runOn.
  destruct (objects m !! o) as [p0|] eqn:Hp0; [|by split].
  destruct (Hop (shouldOffer p0) p0) as [_ Houts]; [done|].
  destruct (op p0) as [[res p0'] outs]; simpl in *.
  destruct (delegates_of_calm_method k outs
              (set_objects (<[o := p0']> (objects m)) m) Houts) as [es ->].
  assert (census r pr n (set_objects (<[o := p0']> (objects m)) m)) as HJ.
  { split_and!; simpl; [done|done|by rewrite length_insert]. }
  by destruct res.
Qed.

Lemma getConnector_respects {I : ConnectionManager → Prop} {Q} fromId :
  respects I Q (getConnector fromId).
Proof.
  unfold getConnector. apply respects_bind; [apply respects_get|].
  intros m. destruct (getOwn _ _); [apply respects_ret|].
  destruct (prototype m); [|apply respects_throw].
  destruct (fromId =? "__proto__"); [apply respects_ret|apply respects_throw].
Qed.

Lemma member_respects {S E} (I : S → Prop) (Q : E → Prop) data k :
  respects I Q (member data k).
Proof. destruct data; simpl; [apply respects_throw|apply respects_ret..]. Qed.

(** What the dispatch on the type of an envelope keeps: anything that the
    methods it calls keep when called through the manager. *)
Lemma dispatch_keeps (I : ConnectionManager → Prop) message m :
  (∀ k o op, (∀ b, respects (hasRole b) noChange op) →
             respects I (λ _, True) (invoke k o op)) →
  FromId message ≠ AttendeeId m →
  (CreateConnector (FromId message) m).1.1 = Ret tt →
  I (CreateConnector (FromId message) m).1.2 →
  I (OnMessage message m).1.2.
Proof.
  intros Hinvoke Hother Hret Hcreated. unfold OnMessage.
  rewrite (bind_ret_state get _ m m m []) by reflexivity.
  rewrite (proj2 (String.eqb_neq _ _) Hother).
  destruct (CreateConnector (FromId message) m) as [[r m1] es1] eqn:Hcreate.
  simpl in Hret, Hcreated. subst r.
  rewrite (bind_ret_state _ _ _ _ _ _ Hcreate).
  apply (respects_state _ (λ _ : Effect, True)); [|done].
  repeat first
    [ apply getConnector_respects | apply member_respects
    | apply Hinvoke | apply withDescription_calm
    | apply withCandidates_calm | apply AcceptOffer_calm
    | apply AcceptAnswer_calm | apply AddRemoteCandidates_calm
    | apply respects_when | apply respects_emit | apply respects_bind
    | progress intros | done ].
Qed.

(** An envelope that is not handled: the registry hides its method. *)
Lemma OnMessage_shadowed m message :
  FromId message ≠ AttendeeId m → shadowed m = true →
  OnMessage message m = (Throw TypeError, m, []).
Proof.
  intros Hother Hshadow. unfold OnMessage.
  step ltac:(reflexivity).
  rewrite (proj2 (String.eqb_neq _ _) Hother).
  by rewrite (bind_throw_step _ _ _ _ _ _ (CreateConnector_shadowed _ m Hshadow)).
Qed.

(** What [OnMessage] does for an envelope of a remote identity that has no
    entry in the registry: one connector object is created, with the
    [shouldOffer] flag [FromId < AttendeeId]; it becomes the entry of the
    identity, or, for the identity ["__proto__"], the prototype of the
    registry; the dispatch on the type of the envelope changes none of
    this. *)
Lemma OnMessage_new_connector m message :
  FromId message ≠ AttendeeId m →
  shadowed m = false →
  hasOwn (connectors m) (FromId message) = false →
  census (if FromId message =? "__proto__" then connectors m
          else connectors m ++ [(FromId message, List.length (objects m))])
         (if FromId message =? "__proto__" then Some (List.length (objects m))
          else prototype m)
         (S (List.length (objects m)))
         (OnMessage message m).1.2
  ∧ flagged (List.length (objects m))
            (String.ltb (FromId message) (AttendeeId m))
            (OnMessage message m).1.2.
Proof.
  intros Hother Hplain Hnew.
  apply (dispatch_keeps (λ m', census _ _ _ m' ∧ flagged _ _ m')); [|done|..].
  - intros k o op Hop. by apply invoke_calm.
  - by rewrite CreateConnector_new.
  - rewrite CreateConnector_new by done. simpl.
    assert (∀ r pr, flagged (List.length (objects m))
                      (String.ltb (FromId message) (AttendeeId m))
                      {| AttendeeId := AttendeeId m;
                         OnNeedLocalStream := OnNeedLocalStream m;
                         connectors := r; prototype := pr;
                         objects := objects m ++ [freshConnector (FromId message) m] |})
      as Hflag.
    { intros r pr. eexists. split; [by apply list_lookup_middle|].
      apply freshConnector_flag. }
    destruct (String.eqb_spec (FromId message) "__proto__") as [Heq|Hne].
    + rewrite Heq in *. rewrite setConnector_proto by done.
      split; [|apply Hflag].
      split_and!; simpl; [done|done|]. rewrite length_app. simpl. lia.
    + rewrite setConnector_new by done.
      split; [|apply Hflag].
      split_and!; simpl; [done|done|]. rewrite length_app. simpl. lia.
Qed.

(** An envelope from an identity that has an entry creates nothing. *)
Lemma OnMessage_known m message :
  FromId message ≠ AttendeeId m →
  shadowed m = false →
  hasOwn (connectors m) (FromId message) = true →
  census (connectors m) (prototype m) (List.length (objects m))
         (OnMessage message m).1.2.
Proof.
  intros Hother Hplain Hknown.
  apply (dispatch_keeps (census _ _ _)); [|done|..].
  - intros k o op Hop. by apply invoke_calm_census.
  - by rewrite CreateConnector_known.
  - by rewrite CreateConnector_known.
Qed.

(** Every connector that [OnMessage] creates has the flag that the
    comparison of the two identities gives. *)
Lemma created_flag m message p :
  created m (OnMessage message m).1.2 p →
  shouldOffer p = String.ltb (FromId message) (AttendeeId m).
Proof.
  intros [Hlen Hp].
  destruct (String.eqb_spec (FromId message) (AttendeeId m)) as [Hself|Hother].
  { unfold OnMessage, bind, get in Hlen. simpl in Hlen.
    rewrite Hself, String.eqb_refl in Hlen. simpl in Hlen. lia. }
  destruct (shadowed m) eqn:Hplain.
  { rewrite OnMessage_shadowed in Hlen by done. simpl in Hlen. lia. }
  destruct (hasOwn (connectors m) (FromId message)) eqn:Hknown.
  { destruct (OnMessage_known m message Hother Hplain Hknown) as (_ & _ & Hn). lia. }
  destruct (OnMessage_new_connector m message Hother Hplain Hknown)
    as [_ (p' & Hp' & Hb)].
  congruence.
Qed.

Lemma ltb_opposite (a b : string) : a ≠ b → String.ltb a b = negb (String.ltb b a).
Proof.
  intros Hne. unfold String.ltb. rewrite (String.compare_antisym b a).
  destruct (String.compare a b) eqn:Hc; simpl; try done.
  apply String.compare_eq_iff in Hc. congruence.
Qed.


(** C2. Two distinct identities, each side handling an envelope of the
    other: whenever both sides create a connector for the other, which is
    when the role is computed, the two connectors, created independently,
    have opposite roles, one Offerer and one Answerer. *)
Theorem exactly_one_offerer
    (ma mb : ConnectionManager) (fromB fromA : Envelope) (pa pb : PeerConnector) :
  AttendeeId ma ≠ AttendeeId mb →
  FromId fromB = AttendeeId mb →
  FromId fromA = AttendeeId ma →
  created ma (OnMessage fromB ma).1.2 pa →
  created mb (OnMessage fromA mb).1.2 pb →
  (role pa = Offerer ∧ role pb = Answerer)
  ∨ (role pa = Answerer ∧ role pb = Offerer).
Proof.
  intros Hne HB HA Hpa%created_flag Hpb%created_flag.
  unfold role. rewrite Hpa, Hpb, HB, HA.
  rewrite (ltb_opposite (AttendeeId mb) (AttendeeId ma)) by done.
  destruct (String.ltb (AttendeeId ma) (AttendeeId mb)); simpl; auto.
Qed.

(** ** Connectors in service *)

Lemma gentle_setRemoteDescription d : gentle (setRemoteDescription d).
Proof.
  intros pc. destruct (applies d pc) eqn:Happlies.
  - rewrite setRemoteDescription_applied by done. simpl.
    by destruct (applyDescription_frame false d pc) as (-> & -> & _).
  - by destruct (setRemoteDescription_refused d pc Happlies) as [e ->].
Qed.

Lemma gentle_setLocalDescription d : gentle (setLocalDescription d).
Proof.
  intros pc. unfold setLocalDescription, open_or_throw, bind, get, modify.
  simpl. destruct (isClosed pc) eqn:H; simpl; [done|].
  destruct (fits true _ _); simpl; [|done].
  by destruct (applyDescription_frame true (default (implicitDescription pc) d) pc)
    as (-> & -> & _).
Qed.

Lemma gentle_createAnswer : gentle createAnswer.
Proof.
  intros pc. unfold createAnswer, open_or_throw, bind, get.
  simpl. destruct (isClosed pc) eqn:H; simpl; [done|].
  by destruct (_ || _).
Qed.

Lemma gentle_addIceCandidate c : gentle (addIceCandidate c).
Proof.
  intros pc. by destruct (addIceCandidate_cases c pc) as [->|[e ->]].
Qed.

Lemma respects_gentle {A} Q (c : Cap A) :
  gentle c → respects live Q (onConnector c).
Proof.
  intros Hc p [Hopen [Hvalid Hrec]]. unfold onConnector.
  destruct (Hc (connector p)) as [Hs Hcl].
  destruct (c (connector p)) as [[r pc] es]; simpl in *.
  split; [|done]. split; [simpl; congruence|].
  split; simpl; rewrite Hs; done.
Qed.

Ltac in_service :=
  repeat first
    [ apply respects_gentle;
      first [ apply gentle_setRemoteDescription | apply gentle_setLocalDescription
            | apply gentle_createAnswer | apply gentle_addIceCandidate ]
    | apply respects_async | apply respects_try_catch | apply respects_bind
    | apply respects_forEach | apply respects_get | apply respects_ret
    | apply respects_throw | apply respects_modify | apply respects_emit
    | progress intros | done ].

(** Whatever a connector is asked to do, short of [Shutdown], and whatever
    its connection reports, it stays in service. *)
Lemma service_continues :
  (∀ stream, respects live (λ _, True) (StartLocalStream stream))
  ∧ (∀ offer, respects live (λ _, True) (AcceptOffer offer))
  ∧ (∀ answer, respects live (λ _, True) (AcceptAnswer answer))
  ∧ (∀ cs, respects live (λ _, True) (AddRemoteCandidates cs))
  ∧ (∀ c, respects live (λ _, True) (onicecandidate c))
  ∧ respects live (λ _, True) onnegotiationneeded
  ∧ respects live (λ _, True) onconnectionstatechange
  ∧ respects live (λ _, True) oniceconnectionstatechange
  ∧ respects live (λ _, True) onsignalingstatechange
  ∧ (∀ streams, respects live (λ _, True) (ontrack streams)).
Proof.
  split_and!.
  - intros stream p Hp. split; [by apply StartLocalStream_keeps_live|].
    by rewrite StartLocalStream_silent.
  - intros offer. unfold AcceptOffer. in_service.
  - intros answer. unfold AcceptAnswer. in_service.
  - intros cs. unfold AddRemoteCandidates. in_service.
  - intros [c|]; unfold onicecandidate; in_service.
  - unfold onnegotiationneeded. apply respects_async, respects_bind; [in_service|].
    intros p. destruct (_ && _); in_service.
  - unfold onconnectionstatechange. in_service.
  - unfold oniceconnectionstatechange. in_service.
  - unfold onsignalingstatechange. in_service.
  - intros streams. unfold ontrack. in_service.
Qed.

Lemma wellFormed_set_objects m h :
  List.length h = List.length (objects m) → wellFormed m →
  wellFormed (set_objects h m).
Proof.
  intros Hlen (? & ? & ? & ?). split_and!; simpl; [done..|by rewrite Hlen|].
  rewrite Hlen. done.
Qed.

Lemma registered_Some m k p :
  registered m k = Some p
  ↔ ∃ o, getOwn (connectors m) k = Some o ∧ objects m !! o = Some p.
Proof.
  unfold registered. destruct (getOwn (connectors m) k) as [o|]; simpl.
  - split; [by exists o|]. by intros (? & [= <-] & ?).
  - split; [done|]. by intros (? & ? & ?).
Qed.

Lemma registry_inj m k1 k2 o :
  wellFormed m → getOwn (connectors m) k1 = Some o →
  getOwn (connectors m) k2 = Some o → k1 = k2.
Proof.
  intros (_ & Hnd & _) H1%getOwn_Some H2%getOwn_Some.
  by eapply NoDup_snd_inj.
Qed.

Lemma registered_exists m k o :
  wellFormed m → getOwn (connectors m) k = Some o → is_Some (objects m !! o).
Proof.
  intros (_ & _ & Hexist & _) Hreg. apply lookup_lt_is_Some_2.
  rewrite Forall_forall in Hexist. apply Hexist.
  apply list_elem_of_fmap. exists (k, o). split; [done|]. by apply getOwn_Some.
Qed.

Lemma registry_value m k o :
  getOwn (connectors m) k = Some o → o ∈ (connectors m).*2.
Proof.
  intros H. apply list_elem_of_fmap. exists (k, o). split; [done|].
  by apply getOwn_Some.
Qed.

Lemma runOn_sound {A} o (op : Method A) :
  respects live (λ _, True) op → respects sound (λ _, True) (runOn o op).
Proof.
  intros Hop m [Hwf Hlive]. unfold runOn.
  destruct (objects m !! o) as [p|] eqn:Hp; [|by split].
  destruct (op p) as [[r p'] outs] eqn:Hrun. simpl. split; [|done]. split.
  - apply wellFormed_set_objects; [apply length_insert|done].
  - intros k q (o' & Hreg & Hq)%registered_Some. simpl in *.
    destruct (decide (o' = o)) as [->|Hne].
    + rewrite list_lookup_insert_eq in Hq by (by eapply lookup_lt_Some).
      injection Hq as <-.
      destruct (Hop p) as [Hp' _]; [|by rewrite Hrun in Hp'].
      apply (Hlive k). apply registered_Some. eauto.
    + rewrite list_lookup_insert_ne in Hq by done.
      apply (Hlive k). apply registered_Some. eauto.
Qed.

Lemma wellFormed_deleteOwn m k h :
  List.length h = List.length (objects m) → wellFormed m →
  wellFormed (set_connectors (deleteOwn (connectors (set_objects h m)) k)
                (set_objects h m)).
Proof.
  intros Hlen (Hk & Hv & Hexist & Hproto). split_and!; simpl.
  - eapply sublist_NoDup; [exact Hk|]. apply fmap_sublist, sublist_filter.
  - eapply sublist_NoDup; [exact Hv|]. apply fmap_sublist, sublist_filter.
  - rewrite Hlen. rewrite Forall_forall in *. intros o' Ho'.
    apply Hexist. apply list_elem_of_fmap in Ho' as ([k' o''] & -> & Hin).
    apply list_elem_of_filter in Hin as [_ Hin].
    apply list_elem_of_fmap. by exists (k', o'').
  - intros o Ho. destruct (Hproto o Ho) as [Hlt Hfree]. rewrite Hlen.
    split; [done|]. intros Hin. apply Hfree.
    apply list_elem_of_fmap in Hin as ([k' o''] & -> & Hin).
    apply list_elem_of_filter in Hin as [_ Hin].
    apply list_elem_of_fmap. by exists (k', o'').
Qed.

(** The teardown as a whole: between [Shutdown] and [delete] the registry
    names a closed connector, after both it does not.  For the identity
    "__proto__" the connector shut down is the prototype of the registry,
    which the registry does not name. *)
Lemma teardown_sound fromId :
  respects sound (λ _, True)
    (let! o := getConnector fromId in
     runOn o Shutdown ;;
     modify (λ m, set_connectors (deleteOwn (connectors m) fromId) m)).
Proof.
  intros m [Hwf Hlive]. split; [|by apply Forall_true].
  destruct (getOwn (connectors m) fromId) as [o|] eqn:Hreg.
  - rewrite (bind_ret_state _ _ _ _ _ _ (getConnector_step _ _ _ Hreg)).
    destruct (registered_exists m fromId o Hwf Hreg) as [p Hp].
    rewrite (bind_ret_state _ _ _ _ _ _
               (runOn_step o Shutdown m p (Ret tt) _ [] Hp eq_refl)).
    simpl. split.
    + apply (wellFormed_deleteOwn m fromId); [apply length_insert|done].
    + intros k q (o' & Hreg' & Hq)%registered_Some. simpl in *.
      rewrite getOwn_deleteOwn in Hreg'. case_decide as Hk; [done|].
      assert (o' ≠ o) as Hne.
      { intros ->. apply Hk. by eapply registry_inj. }
      rewrite list_lookup_insert_ne in Hq by done.
      apply (Hlive k). apply registered_Some. eauto.
  - destruct (prototype m) as [o|] eqn:Hproto;
      [|unfold getConnector, bind, get; simpl; by rewrite Hreg, Hproto].
    destruct (fromId =? "__proto__") eqn:Hkey;
      [|unfold getConnector, bind, get; simpl; by rewrite Hreg, Hproto, Hkey].
    assert (getConnector fromId m = (Ret o, m, [])) as Hget.
    { unfold getConnector, bind, get. simpl. by rewrite Hreg, Hproto, Hkey. }
    rewrite (bind_ret_state _ _ _ _ _ _ Hget).
    destruct Hwf as (Hk & Hv & Hexist & Hfree).
    destruct (Hfree o Hproto) as [Hlt Hout].
    destruct (lookup_lt_is_Some_2 (objects m) o Hlt) as [p Hp].
    rewrite (bind_ret_state _ _ _ _ _ _
               (runOn_step o Shutdown m p (Ret tt) _ [] Hp eq_refl)).
    simpl. split.
    + apply (wellFormed_deleteOwn m fromId); [apply length_insert|done].
    + intros k q (o' & Hreg' & Hq)%registered_Some. simpl in *.
      rewrite getOwn_deleteOwn in Hreg'. case_decide as Hk'; [done|].
      assert (o' ≠ o) as Hne.
      { intros ->. apply Hout. by eapply registry_value. }
      rewrite list_lookup_insert_ne in Hq by done.
      apply (Hlive k). apply registered_Some. eauto.
Qed.

Lemma delegate_sound fromId out :
  respects sound (λ _, True) (delegate fromId out).
Proof.
  destruct out; simpl; try by apply respects_emit.
  apply respects_bind; [by apply respects_emit|]. intros _.
  apply respects_when, teardown_sound.
Qed.

Lemma invoke_sound fromId o op :
  respects live (λ _, True) op → respects sound (λ _, True) (invoke fromId o op).
Proof.
  intros Hop. unfold invoke.
  apply respects_bind; [by apply runOn_sound|]. intros [r outs].
  apply respects_bind.
  - apply respects_forEach. intros out _. apply delegate_sound.
  - intros _. destruct r; [apply respects_ret|apply respects_throw].
Qed.

Lemma freshConnector_live fromId m : live (freshConnector fromId m).
Proof.
  apply StartLocalStream_keeps_live. split; [done|apply newPeerConnector_tracked].
Qed.

Lemma CreateConnector_sound fromId :
  respects sound (λ _, True) (CreateConnector fromId).
Proof.
  intros m [Hwf Hlive].
  destruct (shadowed m) eqn:Hplain.
  { rewrite CreateConnector_shadowed by done. by split. }
  destruct (hasOwn (connectors m) fromId) eqn:Hnew.
  { rewrite CreateConnector_known by done. by split. }
  rewrite (CreateConnector_new fromId m Hplain Hnew). simpl. split; [|done].
  pose proof Hwf as (Hk & Hv & Hexist & Hproto).
  rewrite Forall_forall in Hexist.
  assert (∀ k q o,
            getOwn (connectors m) k = Some o →
            (objects m ++ [freshConnector fromId m]) !! o = Some q → live q)
    as Hold.
  { intros k q o Hreg Hq.
    destruct (registered_exists m k o Hwf Hreg) as [q' Hq'].
    rewrite lookup_app_l in Hq by (by eapply lookup_lt_Some).
    apply (Hlive k). apply registered_Some. eauto. }
  destruct (String.eqb_spec fromId "__proto__") as [->|Hkey].
  - rewrite setConnector_proto by done. split.
    + split_and!; simpl; [done|done| |].
      * rewrite length_app. apply Forall_forall. intros o Ho.
        apply Hexist in Ho. lia.
      * intros o [= <-]. rewrite length_app. simpl. split; [lia|].
        intros Hin%Hexist. lia.
    + intros k q (o & Hreg & Hq)%registered_Some. simpl in *. by eapply Hold.
  - rewrite setConnector_new by done. split.
    + split_and!; simpl.
      * rewrite fmap_app. apply NoDup_app. split; [done|]. split.
        -- intros k Hk' ->%list_elem_of_singleton.
           apply hasOwn_false, getOwn_None in Hnew. done.
        -- apply NoDup_singleton.
      * rewrite fmap_app. apply NoDup_app. split; [done|]. split.
        -- intros o Ho ->%list_elem_of_singleton. apply Hexist in Ho.
           simpl in Ho. lia.
        -- apply NoDup_singleton.
      * rewrite fmap_app, length_app. apply Forall_app. split.
        -- apply Forall_forall. intros o Ho. apply Hexist in Ho. lia.
        -- apply Forall_singleton. simpl. lia.
      * intros o Ho. destruct (Hproto o Ho) as [Hlt Hfree].
        rewrite length_app, fmap_app. simpl. split; [lia|].
        rewrite elem_of_app, list_elem_of_singleton. intros [?| ->]; [done|lia].
    + intros k q (o & Hreg & Hq)%registered_Some. simpl in *.
      rewrite getOwn_app in Hreg.
      destruct (getOwn (connectors m) k) as [o'|] eqn:Hreg'.
      * injection Hreg as <-. by eapply Hold.
      * simpl in Hreg. destruct (fromId =? k); [|done]. injection Hreg as <-.
        rewrite list_lookup_middle in Hq by done. injection Hq as <-.
        apply freshConnector_live.
Qed.

Ltac at_rest :=
  repeat first
    [ done | apply getConnector_respects | apply member_respects
    | apply hasOwnProperty_respects
    | apply CreateConnector_sound | apply invoke_sound
    | apply respects_when | apply respects_emit | apply respects_forEach
    | apply respects_get | apply respects_ret | apply respects_bind
    | progress intros ].

(** Every operation of the manager takes a manager at rest to a manager at
    rest: handling an envelope, refreshing the local stream, and the
    delegates of a connector, whatever it reports. *)
Lemma manager_stays_sound :
  (∀ message, respects sound (λ _, True) (OnMessage message))
  ∧ respects sound (λ _, True) RefreshLocalStream
  ∧ (∀ fromId out, respects sound (λ _, True) (delegate fromId out)).
Proof.
  destruct service_continues as (Hstart & Hoffer & Hanswer & Hadd & _).
  split_and!.
  - intros message. unfold OnMessage.
    apply respects_bind; [apply respects_get|]. intros m.
    destruct (FromId message =? AttendeeId m); [apply respects_ret|].
    at_rest.
    + unfold withDescription. by destruct (asDescription _); [|apply respects_ret].
    + unfold withDescription. by destruct (asDescription _); [|apply respects_ret].
    + unfold withCandidates. by destruct (Data message); [apply respects_ret..|].
  - unfold RefreshLocalStream. at_rest.
  - apply delegate_sound.
Qed.

(** ** Refreshing the local stream *)






Lemma registered_set_objects m h k :
  (∀ o, getOwn (connectors m) k = Some o → h !! o = objects m !! o) →
  registered (set_objects h m) k = registered m k.
Proof.
  intros H. unfold registered. simpl.
  destruct (getOwn (connectors m) k) as [o|]; simpl; [by apply H|done].
Qed.




(** * Further properties of the connector *)

(** ** Remote candidates, whatever the state of the connection *)

(** The loop of [AddRemoteCandidates]: each candidate is offered to the
    connection in turn, and is buffered when the connection refuses it. *)
Lemma sorting_candidates cs : ∀ p,
  ∃ taken refused,
    forEach
      (λ candidate,
         async (try_catch
                  (onConnector (addIceCandidate candidate))
                  (λ _, modify (λ p, set_remoteCandidates
                                       (remoteCandidates p ++ [candidate]) p))))
      cs p
    = (Ret tt, set_remoteCandidates (remoteCandidates p ++ refused) (fed taken p), [])
    ∧ taken ++ refused ≡ₚ cs
    ∧ taken `sublist_of` cs
    ∧ refused `sublist_of` cs
    ∧ (isClosed (connector p) = true ∨ remoteDescription (connector p) = None →
       taken = [] ∧ refused = cs)
    ∧ (isClosed (connector p) = false →
       is_Some (remoteDescription (connector p)) → usable cs →
       taken = cs ∧ refused = []).
Proof.
  induction cs as [|c cs IH]; intros p.
  - exists [], []. simpl. rewrite fed_nil, app_nil_r, set_remoteCandidates_id.
    by split_and!.
  - simpl forEach.
    destruct (addIceCandidate_cases c (connector p)) as [Happlied|[e Hthrown]].
    + destruct (IH (fed [c] p)) as (taken & refused & Hrun & Hperm & Ht & Hr & Hno & Hall).
      exists (c :: taken), refused. split_and!.
      * assert (async (try_catch
                         (onConnector (addIceCandidate c))
                         (λ _, modify (λ p, set_remoteCandidates
                                              (remoteCandidates p ++ [c]) p))) p
                = (Ret tt, fed [c] p, [])) as Hone.
        { unfold async, try_catch, onConnector. by rewrite Happlied. }
        step ltac:(exact Hone). rewrite Hrun. by rewrite fed_fed.
      * simpl. by f_equiv.
      * by apply sublist_skip.
      * by apply sublist_cons.
      * intros [Hclosed|Hnone].
        -- by rewrite addIceCandidate_closed in Happlied.
        -- by rewrite addIceCandidate_refused in Happlied.
      * intros Hopen Hsome Huse.
        destruct Hall as [-> ->]; [done|done| |done].
        intros c' pc' Hc'. apply Huse. by right.
    + destruct (IH (set_remoteCandidates (remoteCandidates p ++ [c]) p))
        as (taken & refused & Hrun & Hperm & Ht & Hr & Hno & Hall).
      exists taken, (c :: refused). split_and!.
      * assert (async (try_catch
                         (onConnector (addIceCandidate c))
                         (λ _, modify (λ p, set_remoteCandidates
                                              (remoteCandidates p ++ [c]) p))) p
                = (Ret tt, set_remoteCandidates (remoteCandidates p ++ [c]) p, []))
          as Hone.
        { unfold async, try_catch, onConnector. rewrite Hthrown. simpl.
          by rewrite set_connector_id. }
        step ltac:(exact Hone). rewrite Hrun. simpl.
        by rewrite <- app_assoc.
      * rewrite <- Permutation_middle. by f_equiv.
      * by apply sublist_cons.
      * by apply sublist_skip.
      * intros Hcase. by destruct Hno as [-> ->].
      * intros Hopen Hsome Huse.
        rewrite addIceCandidate_applied in Hthrown;
          [done|done|done|apply Huse; by left].
Qed.

(** X1. [AddRemoteCandidates] in every state: it returns normally and invokes
    no delegate, and it sorts the batch: every candidate is either applied
    to the connection or appended to the buffer, none is lost and none is
    doubled, and each of the two keeps the order of receipt.  On a closed
    connection and without a remote description all are buffered; on an
    open connection with a remote description all are applied, when the
    user agent can use them all. *)
Theorem remote_candidates_applied_or_buffered
    (p : PeerConnector) (cs : list RTCIceCandidate) :
  ∃ taken refused,
    AddRemoteCandidates cs p
    = (Ret tt, set_remoteCandidates (remoteCandidates p ++ refused) (fed taken p), [])
    ∧ taken ++ refused ≡ₚ cs
    ∧ taken `sublist_of` cs
    ∧ refused `sublist_of` cs
    ∧ (isClosed (connector p) = true ∨ remoteDescription (connector p) = None →
       taken = [] ∧ refused = cs)
    ∧ (isClosed (connector p) = false →
       is_Some (remoteDescription (connector p)) → usable cs →
       taken = cs ∧ refused = []).
Proof.
  destruct (sorting_candidates cs p) as (taken & refused & Hrun & H).
  exists taken, refused. split; [|done].
  unfold AddRemoteCandidates. by apply async_returns.
Qed.

(** ** Answers *)

Lemma AcceptAnswer_applied answer p :
  applies answer (connector p) = true →
  AcceptAnswer answer p
  = (Ret tt, set_connector (applyDescription false answer (connector p)) p, []).
Proof.
  intros H. unfold AcceptAnswer, async, try_catch.
  by rewrite (onConnector_step _ _ _ _ _ (setRemoteDescription_applied answer _ H)).
Qed.

Lemma AcceptAnswer_refused answer p :
  applies answer (connector p) = false → AcceptAnswer answer p = (Ret tt, p, []).
Proof.
  intros H. destruct (setRemoteDescription_refused _ _ H) as [e He].
  unfold AcceptAnswer, async, try_catch.
  rewrite (onConnector_step _ _ _ _ _ He). simpl. by rewrite set_connector_id.
Qed.

Lemma applies_closed d pc : isClosed pc = true → applies d pc = false.
Proof. intros H. unfold applies. by rewrite H. Qed.

Lemma AcceptAnswer_closed answer p :
  isClosed (connector p) = true → AcceptAnswer answer p = (Ret tt, p, []).
Proof. intros H. by apply AcceptAnswer_refused, applies_closed. Qed.

(** X2. [AcceptAnswer], whatever it is given and whatever the connection
    makes of it, returns normally to its caller, invokes no delegate, and,
    unlike [AcceptOffer], leaves the buffer of remote candidates as it is:
    nothing buffered is applied, nothing is dropped.  The senders are not
    touched either, and where the connection does not apply the description
    nothing changes at all. *)
Theorem accept_answer_does_not_flush
    (p : PeerConnector) (answer : RTCSessionDescription) :
  ∃ p', AcceptAnswer answer p = (Ret tt, p', [])
    ∧ remoteCandidates p' = remoteCandidates p
    ∧ localCandidates p' = localCandidates p
    ∧ appliedCandidates (connector p') = appliedCandidates (connector p)
    ∧ senders (connector p') = senders (connector p)
    ∧ rtpSenders p' = rtpSenders p
    ∧ isClosed (connector p') = isClosed (connector p)
    ∧ if applies answer (connector p)
      then connector p' = applyDescription false answer (connector p)
      else p' = p.
Proof.
  destruct (applies answer (connector p)) eqn:Happlies.
  - eexists. rewrite AcceptAnswer_applied by done. simpl.
    destruct (applyDescription_frame false answer (connector p))
      as (Hopen & Hsenders & Happlied).
    by split_and!.
  - exists p. by rewrite AcceptAnswer_refused.
Qed.

(** A remote answer, applied: it is the remote description, and the
    connection is stable. *)
Lemma applyDescription_remote_answer d pc :
  type d = "answer" →
  remoteDescription (applyDescription false d pc) = Some d
  ∧ localDescription (applyDescription false d pc) = localDescription pc
  ∧ signalingState (applyDescription false d pc) = "stable".
Proof. intros Hty. unfold applyDescription. rewrite Hty. by simpl. Qed.

(** X3. Candidates that reach a connector before the answer to its offer
    does stay behind: buffered while there is no remote description, they
    are still in the buffer, unapplied, after [AcceptAnswer] has applied the
    answer, and candidates that arrive after the answer, which the user
    agent can use, are applied ahead of them. *)
Theorem early_candidates_stranded_by_answer
    (p : PeerConnector) (early late : list RTCIceCandidate)
    (answer : RTCSessionDescription) :
  remoteDescription (connector p) = None →
  type answer = "answer" →
  applies answer (connector p) = true →
  usable late →
  ∃ p1 p2 p3,
    AddRemoteCandidates early p = (Ret tt, p1, [])
    ∧ AcceptAnswer answer p1 = (Ret tt, p2, [])
    ∧ AddRemoteCandidates late p2 = (Ret tt, p3, [])
    ∧ remoteDescription (connector p3) = Some answer
    ∧ remoteCandidates p3 = remoteCandidates p ++ early
    ∧ appliedCandidates (connector p3) = appliedCandidates (connector p) ++ late.
Proof.
  intros Hnone Hty Happlies Huse.
  pose proof Happlies as (Hopen & _ & _)%applies_true.
  destruct (applyDescription_remote_answer answer (connector p) Hty)
    as (Hremote & _ & _).
  destruct (applyDescription_frame false answer (connector p))
    as (Hopen' & _ & Happlied').
  set (p1 := set_remoteCandidates (remoteCandidates p ++ early) p).
  set (p2 := set_connector (applyDescription false answer (connector p)) p1).
  destruct (sorting_candidates late p2)
    as (taken & refused & Hrun & _ & _ & _ & _ & Hall).
  destruct Hall as [-> ->]; [simpl; congruence|simpl; rewrite Hremote; by eexists|done|].
  exists p1, p2, (set_remoteCandidates (remoteCandidates p2 ++ []) (fed late p2)).
  split_and!.
  - unfold AddRemoteCandidates. by apply async_returns, buffering.
  - by apply AcceptAnswer_applied.
  - unfold AddRemoteCandidates. by apply async_returns.
  - done.
  - simpl. by rewrite app_nil_r.
  - simpl. by rewrite Happlied'.
Qed.

(** ** Offers *)

Lemma AcceptOffer_closed offer p :
  isClosed (connector p) = true → AcceptOffer offer p = (Ret tt, p, []).
Proof. intros H. by apply AcceptOffer_refused_run, applies_closed. Qed.

(** X4. [AcceptOffer] in every state and for every description.  Given an
    offer that the connection applies, it invokes exactly one delegate,
    [OnAcceptedOffer], with the local description it has just set: an
    answer; the offer is then the remote description, the signaling state is
    stable, and the buffer of remote candidates is empty.  In every other
    case (the connection does not apply the description, or the description
    is not an offer, so that there is nothing to answer) it returns
    normally, invokes no delegate and leaves the buffer and the applied
    candidates as they were. *)
Theorem accept_offer_answers_once (p : PeerConnector) (d : RTCSessionDescription) :
  if (type d =? "offer") && applies d (connector p)
  then ∃ p' answer,
         AcceptOffer d p = (Ret tt, p', [OnAcceptedOffer (Some answer)])
         ∧ type answer = "answer"
         ∧ localDescription (connector p') = Some answer
         ∧ remoteDescription (connector p') = Some d
         ∧ signalingState (connector p') = "stable"
         ∧ remoteCandidates p' = []
  else ∃ p', AcceptOffer d p = (Ret tt, p', [])
         ∧ remoteCandidates p' = remoteCandidates p
         ∧ appliedCandidates (connector p') = appliedCandidates (connector p).
Proof.
  destruct (String.eqb_spec (type d) "offer") as [Hty|Hty];
    destruct (applies d (connector p)) eqn:Happlies; simpl.
  - destruct (AcceptOffer_applied_run d p Hty Happlies)
      as (p' & answer & taken & Hrun & Hans & Hlocal & Hremote & Hstable & _ & _
          & _ & _ & _ & Hbuf & _).
    by exists p', answer.
  - exists p. by rewrite AcceptOffer_refused_run.
  - eexists. rewrite AcceptOffer_no_offer_run by done. simpl.
    by destruct (applyDescription_frame false d (connector p)) as (_ & _ & ?).
  - exists p. by rewrite AcceptOffer_refused_run.
Qed.

Lemma setLocalDescription_closed d pc :
  isClosed pc = true →
  setLocalDescription d pc = (Throw InvalidStateError, pc, []).
Proof.
  intros H. unfold setLocalDescription, open_or_throw, bind, get. simpl.
  by rewrite H.
Qed.

(** The offer that the user agent makes on a connection. *)
Lemma implicitDescription_stable pc :
  signalingState pc = "stable" →
  implicitDescription pc = {| type := "offer"; sdp := agentSdp "offer" pc |}.
Proof. intros H. unfold implicitDescription. by rewrite H. Qed.

Lemma onnegotiationneeded_stable_run p :
  isClosed (connector p) = false →
  signalingState (connector p) = "stable" →
  shouldOffer p = true
  ∨ is_Some (localDescription (connector p))
  ∨ is_Some (remoteDescription (connector p)) →
  onnegotiationneeded p
  = (Ret tt,
     set_connector
       (applyDescription true (implicitDescription (connector p)) (connector p)) p,
     [OnHasOffer (Some (implicitDescription (connector p)))]).
Proof.
  intros Hopen Hstable Hmay.
  assert (negb (shouldOffer p)
          && bool_decide (localDescription (connector p) = None)
          && bool_decide (remoteDescription (connector p) = None) = false) as Hguard.
  { destruct Hmay as [->|[[d Hd]|[d Hd]]]; [done|..]; rewrite Hd.
    - by rewrite andb_false_r.
    - by rewrite andb_false_r. }
  unfold onnegotiationneeded, async. unfold try_catch at 1.
  step ltac:(reflexivity). rewrite Hguard. unfold try_catch.
  step ltac:(eapply onConnector_step; apply setLocalDescription_applied;
             [done|simpl; unfold implicitDescription; by rewrite Hstable]).
  cbn [default from_option id]. step ltac:(reflexivity).
  unfold emit. cbn [connector set_connector].
  assert (localDescription
            (applyDescription true (implicitDescription (connector p)) (connector p))
          = Some (implicitDescription (connector p))) as ->; [|done].
  rewrite implicitDescription_stable by done. reflexivity.
Qed.

Lemma onnegotiationneeded_closed p :
  isClosed (connector p) = true → onnegotiationneeded p = (Ret tt, p, []).
Proof.
  intros Hclosed. unfold onnegotiationneeded, async. unfold try_catch at 1.
  step ltac:(reflexivity).
  destruct (_ && _); [done|]. unfold try_catch.
  rewrite (bind_throw_step _ _ _ _ _ _
             (onConnector_step _ _ _ _ _ (setLocalDescription_closed None _ Hclosed))).
  simpl. by rewrite set_connector_id.
Qed.

(** X5. The negotiation-needed handler on an open connection in the stable
    state, for a connector that should offer or whose connection already has
    a description (an answerer that has answered renegotiates too): the
    connection is given a new local description, an offer, and [OnHasOffer]
    is invoked once, with that description.  The remote description and the
    candidate buffers are not touched. *)
Theorem negotiation_needed_offers_once (p : PeerConnector) :
  isClosed (connector p) = false →
  signalingState (connector p) = "stable" →
  shouldOffer p = true
  ∨ is_Some (localDescription (connector p))
  ∨ is_Some (remoteDescription (connector p)) →
  ∃ p' d,
    onnegotiationneeded p = (Ret tt, p', [OnHasOffer (Some d)])
    ∧ type d = "offer"
    ∧ localDescription (connector p') = Some d
    ∧ signalingState (connector p') = "have-local-offer"
    ∧ remoteDescription (connector p') = remoteDescription (connector p)
    ∧ remoteCandidates p' = remoteCandidates p
    ∧ localCandidates p' = localCandidates p.
Proof.
  intros Hopen Hstable Hmay. eexists _, _.
  split; [by apply onnegotiationneeded_stable_run|].
  rewrite implicitDescription_stable by done. by split_and!.
Qed.

(** X6. An offer/answer exchange between two connectors composes.  The
    open, stable connection of an offering connector [p] needs negotiation.
    If the connection of [q] applies the offer that [p] hands out, and the
    connection of [p], its offer made, applies the answer that the user
    agent of [q] creates to that offer, then [AcceptOffer] on [q] hands out
    exactly that answer and [AcceptAnswer] on [p] returns; both connections
    are then stable, [q]'s has the offer as its remote description and
    [p]'s has the answer. *)
Theorem offer_answer_exchange (p q : PeerConnector) :
  isClosed (connector p) = false →
  shouldOffer p = true →
  signalingState (connector p) = "stable" →
  applies (offerOf p) (connector q) = true →
  applies (answerTo (offerOf p) q) (connector (offering p)) = true →
  ∃ q1 p2,
    onnegotiationneeded p = (Ret tt, offering p, [OnHasOffer (Some (offerOf p))])
    ∧ AcceptOffer (offerOf p) q
      = (Ret tt, q1, [OnAcceptedOffer (Some (answerTo (offerOf p) q))])
    ∧ AcceptAnswer (answerTo (offerOf p) q) (offering p) = (Ret tt, p2, [])
    ∧ type (offerOf p) = "offer"
    ∧ remoteDescription (connector q1) = Some (offerOf p)
    ∧ remoteDescription (connector p2) = Some (answerTo (offerOf p) q)
    ∧ signalingState (connector p2) = "stable"
    ∧ signalingState (connector q1) = "stable".
Proof.
  intros Hp Hoffers Hstable Hq1 Hp1.
  pose proof (onnegotiationneeded_stable_run p Hp Hstable (or_introl Hoffers)) as H1.
  assert (type (offerOf p) = "offer") as Hoffer
    by (unfold offerOf; by rewrite implicitDescription_stable).
  destruct (AcceptOffer_applied_run (offerOf p) q Hoffer Hq1)
    as (q1 & answer & taken & H2 & _ & _ & Hremote & Hst & _ & _ & _ & _ & _
        & _ & _ & _ & _ & Hanswer).
  change (answer = answerTo (offerOf p) q) in Hanswer. subst answer.
  destruct (applyDescription_remote_answer (answerTo (offerOf p) q)
              (connector (offering p)) eq_refl)
    as (Hremote' & _ & Hst').
  exists q1, (set_connector
                (applyDescription false (answerTo (offerOf p) q)
                   (connector (offering p))) (offering p)).
  split_and!; try done.
  - unfold offering. by rewrite H1.
  - by apply AcceptAnswer_applied.
Qed.

(** X7. [Shutdown] closes the connection and can be repeated without effect.
    A connector that has been shut down is inert: [AcceptOffer],
    [AcceptAnswer] and the negotiation-needed handler leave it as it is and
    invoke no delegate, and [StartLocalStream] throws [InvalidStateError],
    the connector unchanged, as soon as there is a recorded sender to remove
    or a track to add. *)
Theorem shutdown_connector_is_inert
    (p : PeerConnector) (offer answer : RTCSessionDescription) (stream : MediaStream) :
  let q := set_connector (close (connector p)) p in
  Shutdown p = (Ret tt, q, [])
  ∧ isClosed (connector q) = true
  ∧ Shutdown q = (Ret tt, q, [])
  ∧ AcceptOffer offer q = (Ret tt, q, [])
  ∧ AcceptAnswer answer q = (Ret tt, q, [])
  ∧ onnegotiationneeded q = (Ret tt, q, [])
  ∧ (rtpSenders p ≠ [] ∨ getTracks stream ≠ [] →
     StartLocalStream stream q = (Throw InvalidStateError, q, [])).
Proof.
  intros q. split_and!.
  - reflexivity.
  - reflexivity.
  - by destruct p as [[] ????].
  - by apply AcceptOffer_closed.
  - by apply AcceptAnswer_closed.
  - by apply onnegotiationneeded_closed.
  - intros Hwork. by apply StartLocalStream_closed.
Qed.

(** ** The record of senders *)

Lemma StartLocalStream_senders_prefix stream p :
  rtpSenders p `prefix_of` rtpSenders (StartLocalStream stream p).1.2
  ∧ rtpSenders (StopLocalStream p).1.2 = rtpSenders p.
Proof.
  assert (∀ l, respects (λ q, rtpSenders q = l) (λ _ : Output, True) StopLocalStream)
    as Hstop by (intros l; unfold StopLocalStream; calm).
  assert (respects (λ q, rtpSenders p `prefix_of` rtpSenders q) (λ _ : Output, True)
            (StartLocalStream stream)) as Hstart.
  { unfold StartLocalStream. apply respects_bind.
    - intros q Hq. destruct (Hstop (rtpSenders q) q eq_refl) as [Heq HQ].
      split; [by rewrite Heq|done].
    - intros _. apply respects_forEach. intros t _. apply respects_bind.
      + by apply respects_onConnector.
      + intros s. apply respects_modify. intros q Hq. simpl.
        by apply prefix_app_r. }
  split.
  - by destruct (Hstart p).
  - by destruct (Hstop (rtpSenders p) p eq_refl).
Qed.

(** X8. The record of senders only grows.  [StopLocalStream] calls
    [removeTrack] on the recorded senders and keeps the record as it is, so
    that after [StartLocalStream], in any state and however it ends, the
    senders recorded before are still recorded, in place; on a connector in
    service the call adds one sender for each track of the stream, and
    nothing is ever taken out. *)
Theorem recorded_senders_only_grow (p : PeerConnector) (stream : MediaStream) :
  rtpSenders (StopLocalStream p).1.2 = rtpSenders p
  ∧ rtpSenders p `prefix_of` rtpSenders (StartLocalStream stream p).1.2
  ∧ (live p →
     List.length (rtpSenders (StartLocalStream stream p).1.2)
     = List.length (rtpSenders p) + size (tracks stream)).
Proof.
  destruct (StartLocalStream_senders_prefix stream p) as [Hprefix Hstop].
  split; [done|]. split; [done|].
  intros [Hopen Htr]. rewrite StartLocalStream_run by done. simpl.
  rewrite length_app, length_seq. done.
Qed.

(** X9. A connector stays in service (its connection open, its senders
    recorded) through every method but [Shutdown] and through every event of
    its connection. *)
Theorem connector_stays_in_service
    (p : PeerConnector) (stream : MediaStream) (d : RTCSessionDescription)
    (cs : list RTCIceCandidate) (c : option RTCIceCandidate)
    (streams : list MediaStream) :
  live p →
  live (StartLocalStream stream p).1.2
  ∧ live (AcceptOffer d p).1.2
  ∧ live (AcceptAnswer d p).1.2
  ∧ live (AddRemoteCandidates cs p).1.2
  ∧ live (onicecandidate c p).1.2
  ∧ live (onnegotiationneeded p).1.2
  ∧ live (onconnectionstatechange p).1.2
  ∧ live (oniceconnectionstatechange p).1.2
  ∧ live (onsignalingstatechange p).1.2
  ∧ live (ontrack streams p).1.2.
Proof.
  intros Hp.
  destruct service_continues
    as (H1 & H2 & H3 & H4 & H5 & H6 & H7 & H8 & H9 & H10).
  split_and!; eapply respects_state; eauto.
Qed.

(** * Further properties of the manager *)

(** ** What an envelope can and cannot do *)

Lemma runOn_quiet {A} (I : ConnectionManager → Prop) (Q : Effect → Prop) o
    (op : Method A) :
  (∀ m h, I m → List.length h = List.length (objects m) → I (set_objects h m)) →
  respects I Q (runOn o op).
Proof.
  intros HI m Hm. unfold runOn.
  destruct (objects m !! o) as [p|]; [|by split].
  destruct (op p) as [[r p'] outs]. simpl. split; [|done].
  apply HI; [done|]. apply length_insert.
Qed.

Lemma delegate_concerns k out :
  respects (λ _, True) (concerns k) (delegate k out).
Proof.
  destruct out; simpl; try by apply respects_emit.
  apply respects_bind; [by apply respects_emit|]. intros _.
  apply respects_when, respects_bind; [apply getConnector_respects|].
  intros o. apply respects_bind; [by apply runOn_quiet|].
  intros _. by apply respects_modify.
Qed.

Lemma invoke_concerns k o op :
  respects (λ _, True) (concerns k) (invoke k o op).
Proof.
  unfold invoke. apply respects_bind; [by apply runOn_quiet|]. intros [r outs].
  apply respects_bind.
  - apply respects_forEach. intros out _. apply delegate_concerns.
  - intros _. destruct r; [apply respects_ret|apply respects_throw].
Qed.

Lemma CreateConnector_concerns k :
  respects (λ _, True) (concerns k) (CreateConnector k).
Proof.
  unfold CreateConnector.
  apply respects_bind; [apply hasOwnProperty_respects|]. intros known.
  destruct known; [apply respects_ret|].
  apply respects_bind; [apply respects_get|]. intros m1.
  apply respects_bind.
  - unfold CreatePeerConnector.
    repeat first [ done | apply respects_get | apply respects_ret
                 | apply respects_modify | apply respects_bind | progress intros ].
  - intros o. apply respects_bind; [apply invoke_concerns|].
    intros _. by apply respects_modify.
Qed.

(** X10. Whatever the envelope and whatever the state of the manager,
    everything [OnMessage] sends is addressed to the sender of the envelope,
    and everything it notifies is about that sender: no envelope makes the
    manager talk to, or about, a third party. *)
Theorem replies_concern_the_sender (m : ConnectionManager) (message : Envelope) :
  Forall (concerns (FromId message)) (OnMessage message m).2.
Proof.
  assert (respects (λ _, True) (concerns (FromId message)) (OnMessage message))
    as H; [|by destruct (H m)].
  unfold OnMessage. apply respects_bind; [apply respects_get|]. intros m0.
  destruct (FromId message =? AttendeeId m0); [apply respects_ret|].
  repeat first
    [ done | apply CreateConnector_concerns | apply getConnector_respects
    | apply member_respects | apply invoke_concerns | apply respects_when
    | apply respects_emit | apply respects_bind | progress intros ].
Qed.

(** X11. What an envelope does to the registry, in every state and whatever
    its type and payload.  From the local identity, or on a registry with an
    entry named "hasOwnProperty", nothing: the manager is as it was.  From
    an identity that has an entry: the registry, its prototype and the
    number of connector objects stay as they are.  From the identity
    "__proto__": one connector object is created and becomes the prototype
    of the registry, which gets no entry, so that the next envelope from
    that identity creates another one.  From any other identity without an
    entry: one connector object is created and one entry is appended, for
    that identity, naming it.  No entry is ever removed or replaced. *)
Theorem envelope_registers_sender_once (m : ConnectionManager) (message : Envelope) :
  let m' := (OnMessage message m).1.2 in
  if (FromId message =? AttendeeId m) || shadowed m then m' = m
  else if hasOwn (connectors m) (FromId message)
  then census (connectors m) (prototype m) (List.length (objects m)) m'
  else if FromId message =? "__proto__"
  then census (connectors m) (Some (List.length (objects m)))
              (S (List.length (objects m))) m'
  else census (connectors m ++ [(FromId message, List.length (objects m))])
              (prototype m) (S (List.length (objects m))) m'.
Proof.
  intros m'. subst m'.
  destruct (String.eqb_spec (FromId message) (AttendeeId m)) as [Hself|Hother].
  { simpl. unfold OnMessage, bind, get. simpl.
    by rewrite Hself, String.eqb_refl. }
  destruct (shadowed m) eqn:Hplain; simpl.
  { by rewrite OnMessage_shadowed. }
  destruct (hasOwn (connectors m) (FromId message)) eqn:Hknown.
  { by apply OnMessage_known. }
  destruct (OnMessage_new_connector m message Hother Hplain Hknown) as [H _].
  by destruct (FromId message =? "__proto__").
Qed.

(** ** The dispatch on the type of the envelope *)

Lemma CreateConnector_returns k m :
  shadowed m = false →
  CreateConnector k m = (Ret tt, (CreateConnector k m).1.2, []).
Proof.
  intros Hplain. destruct (hasOwn (connectors m) k) eqn:Hknown.
  - by rewrite CreateConnector_known.
  - by rewrite CreateConnector_new.
Qed.

Lemma bind_ret_l {S E A B} (a : A) (k : A → Prog S E B) s :
  bind (ret a) k s = k a s.
Proof. unfold bind, ret. by destruct (k a s) as [[??]?]. Qed.

Lemma bind_ret_r {S E} (p : Prog S E unit) s :
  bind p (λ _, ret tt) s = p s.
Proof.
  unfold bind, ret. destruct (p s) as [[[[]|e] s1] es1]; [|done].
  by rewrite app_nil_r.
Qed.

(** The envelope is from another identity and the registry does not hide
    its method: [CreateConnector] returns, and the dispatch follows. *)
Ltac enter_dispatch Hother Hplain :=
  unfold OnMessage;
  erewrite bind_ret_step by reflexivity; cbv beta;
  rewrite (proj2 (String.eqb_neq _ _) Hother);
  erewrite bind_ret_step by (apply CreateConnector_returns; exact Hplain);
  cbv beta.

(** The tests on a known type. *)
Ltac decide_type Hty :=
  rewrite Hty;
  repeat match goal with
         | |- context [String.eqb ?a ?b] =>
             let r := eval vm_compute in (String.eqb a b) in
             change (String.eqb a b) with r
         end;
  cbv beta iota delta [when];
  rewrite ?bind_ret_l, ?bind_ret_r.

(** X12. A [discover] envelope from another identity, on a registry without
    an entry named "hasOwnProperty", is answered by exactly one
    [acknowledge], with an empty payload, addressed to its sender, and by
    nothing else; apart from what [CreateConnector] does for a sender
    without an entry, the manager is as it was. *)
Theorem discover_is_acknowledged (m : ConnectionManager) (message : Envelope) :
  FromId message ≠ AttendeeId m →
  shadowed m = false →
  Type' message = "discover" →
  OnMessage message m
  = (Ret tt, (CreateConnector (FromId message) m).1.2,
     [Send (AObject []) "acknowledge" (FromId message)]).
Proof.
  intros Hother Hplain Hty. enter_dispatch Hother Hplain. decide_type Hty.
  reflexivity.
Qed.

(** X13. An envelope of a type the manager does not know, from another
    identity and on a registry without an entry named "hasOwnProperty", is
    ignored without an error: [OnMessage] returns normally, sends nothing
    and notifies nothing; all it does is what it does for every envelope of
    another identity, the call of [CreateConnector] for the sender. *)
Theorem unknown_type_is_ignored (m : ConnectionManager) (message : Envelope) :
  FromId message ≠ AttendeeId m →
  shadowed m = false →
  Type' message ≠ "offer" → Type' message ≠ "accept" →
  Type' message ≠ "candidates" → Type' message ≠ "location" →
  Type' message ≠ "discover" →
  OnMessage message m = (Ret tt, (CreateConnector (FromId message) m).1.2, []).
Proof.
  intros Hother Hplain H1 H2 H3 H4 H5. enter_dispatch Hother Hplain.
  rewrite (proj2 (String.eqb_neq _ _) H1), (proj2 (String.eqb_neq _ _) H2),
    (proj2 (String.eqb_neq _ _) H3), (proj2 (String.eqb_neq _ _) H4),
    (proj2 (String.eqb_neq _ _) H5).
  cbv beta iota delta [when]. rewrite ?bind_ret_l. reflexivity.
Qed.

(** X14. A [location] envelope from another identity, on a registry without
    an entry named "hasOwnProperty": when the payload is an object,
    [OnLocation] is invoked once, for the sender, with the five members read
    by name, a missing member left undefined, and nothing is sent; when the
    payload is an array, all five are undefined; when the payload is
    [null], reading the first member throws a [TypeError] out of
    [OnMessage], after [CreateConnector] has run for the sender and before
    any notification. *)
Theorem location_is_decoded (m : ConnectionManager) (message : Envelope) :
  FromId message ≠ AttendeeId m →
  shadowed m = false →
  Type' message = "location" →
  match Data message with
  | AObject props =>
      OnMessage message m
      = (Ret tt, (CreateConnector (FromId message) m).1.2,
         [Location (FromId message)
            {| CityName := getOwn props "cityName";
               CountryName := getOwn props "countryName";
               CountryCode := getOwn props "countryCode";
               ContinentName := getOwn props "continentName";
               SubdivisionName := getOwn props "subdivisionName" |}])
  | ANull =>
      OnMessage message m
      = (Throw TypeError, (CreateConnector (FromId message) m).1.2, [])
  | AArray _ =>
      OnMessage message m
      = (Ret tt, (CreateConnector (FromId message) m).1.2,
         [Location (FromId message)
            {| CityName := None; CountryName := None; CountryCode := None;
               ContinentName := None; SubdivisionName := None |}])
  end.
Proof.
  intros Hother Hplain Hty.
  destruct (Data message) as [|props|items] eqn:Hdata;
    enter_dispatch Hother Hplain; decide_type Hty; rewrite Hdata; reflexivity.
Qed.

(** ** New connectors *)

Lemma newPeerConnector_live b : live (newPeerConnector b).
Proof. split; [done|apply newPeerConnector_tracked]. Qed.

Lemma new_connector_state stream b :
  let p := (StartLocalStream stream (newPeerConnector b)).1.2 in
  remoteCandidates p = [] ∧ localCandidates p = []
  ∧ localDescription (connector p) = None
  ∧ remoteDescription (connector p) = None
  ∧ appliedCandidates (connector p) = []
  ∧ signalingState (connector p) = "stable"
  ∧ shouldOffer p = b
  ∧ attachedTracks (connector p) = getTracks stream
  ∧ live p.
Proof.
  intros p. subst p.
  pose proof (StartLocalStream_attaches stream _ (newPeerConnector_live b)) as Hatt.
  pose proof (StartLocalStream_keeps_live stream _ (newPeerConnector_live b)) as Hlive.
  rewrite StartLocalStream_run in * by (done || apply newPeerConnector_tracked).
  by split_and!.
Qed.

(** X15. The connector [CreateConnector] makes for an identity without an
    entry, other than "__proto__", on a registry without an entry named
    "hasOwnProperty": a new object, appended to the registry under that
    identity, the entries and connectors already there untouched; it has no
    description and empty candidate buffers, its connection is open and
    already sends the tracks of the current local stream; nothing is sent or
    notified on its creation. *)
Theorem new_connector_is_fresh (m : ConnectionManager) (fromId : string) :
  shadowed m = false →
  hasOwn (connectors m) fromId = false →
  fromId ≠ "__proto__" →
  ∃ p m',
    CreateConnector fromId m = (Ret tt, m', [])
    ∧ connectors m' = connectors m ++ [(fromId, List.length (objects m))]
    ∧ prototype m' = prototype m
    ∧ objects m' = objects m ++ [p]
    ∧ registered m' fromId = Some p
    ∧ remoteCandidates p = [] ∧ localCandidates p = []
    ∧ localDescription (connector p) = None
    ∧ remoteDescription (connector p) = None
    ∧ isClosed (connector p) = false
    ∧ attachedTracks (connector p) = getTracks (OnNeedLocalStream m).
Proof.
  intros Hplain Hnew Hkey. eexists _, _.
  split; [by apply CreateConnector_new|].
  rewrite setConnector_new by done.
  destruct (new_connector_state (OnNeedLocalStream m)
              (String.ltb fromId (AttendeeId m)))
    as (H1 & H2 & H3 & H4 & _ & _ & _ & H5 & [H6 _]).
  split_and!; try done.
  unfold registered. simpl. rewrite getOwn_app.
  apply hasOwn_false in Hnew. rewrite Hnew. simpl.
  rewrite String.eqb_refl. simpl. by apply list_lookup_middle.
Qed.

Lemma teardown_run m fromId o p change :
  getOwn (connectors m) fromId = Some o →
  objects m !! o = Some p →
  State change = "failed" →
  delegate fromId (OnConnectionChanged change) m
  = (Ret tt,
     set_connectors (deleteOwn (connectors m) fromId)
       (set_objects (<[o := set_connector (close (connector p)) p]> (objects m)) m),
     [ConnectionChanged fromId change]).
Proof.
  intros Hreg Hobj Hfailed. unfold delegate.
  step ltac:(reflexivity). rewrite Hfailed. simpl.
  step ltac:(by apply getConnector_step).
  step ltac:(by eapply runOn_step).
  reflexivity.
Qed.

(** X16. No state is carried over a teardown.  On a registry without an
    entry named "hasOwnProperty", after the connector of an identity other
    than "__proto__" has failed and been torn down, [CreateConnector] for
    the same identity makes a new connector object, different from the old
    one, with no description and empty candidate buffers; the old object
    stays closed and is no longer registered. *)
Theorem reconnect_after_failure
    (m : ConnectionManager) (fromId : string) (o : nat) (p : PeerConnector)
    (change : ConnectionChange) :
  shadowed m = false →
  fromId ≠ "__proto__" →
  getOwn (connectors m) fromId = Some o →
  objects m !! o = Some p →
  State change = "failed" →
  ∃ m1 m2 p',
    delegate fromId (OnConnectionChanged change) m
    = (Ret tt, m1, [ConnectionChanged fromId change])
    ∧ registered m1 fromId = None
    ∧ CreateConnector fromId m1 = (Ret tt, m2, [])
    ∧ getOwn (connectors m2) fromId = Some (List.length (objects m))
    ∧ List.length (objects m) ≠ o
    ∧ objects m2 !! List.length (objects m) = Some p'
    ∧ remoteCandidates p' = [] ∧ localCandidates p' = []
    ∧ localDescription (connector p') = None
    ∧ remoteDescription (connector p') = None
    ∧ isClosed (connector p') = false
    ∧ objects m2 !! o = Some (set_connector (close (connector p)) p).
Proof.
  intros Hplain Hkey Hreg Hobj Hfailed.
  pose proof (teardown_run m fromId o p change Hreg Hobj Hfailed) as H1.
  set (m1 := set_connectors (deleteOwn (connectors m) fromId)
               (set_objects
                  (<[o := set_connector (close (connector p)) p]> (objects m)) m))
    in *.
  assert (hasOwn (connectors m1) fromId = false) as Hnew.
  { apply hasOwn_false. simpl. by rewrite getOwn_deleteOwn, decide_True. }
  assert (shadowed m1 = false) as Hplain1.
  { apply hasOwn_false. simpl. rewrite getOwn_deleteOwn.
    case_decide; [done|]. by apply hasOwn_false. }
  pose proof (CreateConnector_new fromId m1 Hplain1 Hnew) as H2.
  rewrite setConnector_new in H2 by done.
  destruct (new_connector_state (OnNeedLocalStream m1)
              (String.ltb fromId (AttendeeId m1)))
    as (B1 & B2 & B3 & B4 & _ & _ & _ & _ & [B5 _]).
  apply lookup_lt_Some in Hobj as Hlt.
  eexists m1, _, _. split; [exact H1|].
  split; [unfold registered; simpl; by rewrite getOwn_deleteOwn, decide_True|].
  split; [exact H2|].
  simpl. rewrite length_insert.
  split_and!; try done.
  - rewrite getOwn_app, getOwn_deleteOwn, decide_True by done.
    simpl. by rewrite String.eqb_refl.
  - lia.
  - apply list_lookup_middle. by rewrite length_insert.
  - rewrite lookup_app_l by (by rewrite length_insert).
    by apply list_lookup_insert_eq.
Qed.

(** ** Offers, answers and candidates in envelopes *)

Lemma CreateConnector_registers k m :
  sound m → shadowed m = false → k ≠ "__proto__" →
  ∃ o p, getOwn (connectors (CreateConnector k m).1.2) k = Some o
    ∧ objects (CreateConnector k m).1.2 !! o = Some p
    ∧ live p
    ∧ (hasOwn (connectors m) k = false → p = freshConnector k m).
Proof.
  intros [Hwf Hlive] Hplain Hkey.
  destruct (hasOwn (connectors m) k) eqn:Hknown.
  - rewrite CreateConnector_known by done. simpl.
    destruct (getOwn (connectors m) k) as [o|] eqn:Hreg;
      [|apply hasOwn_false in Hreg; congruence].
    destruct (registered_exists m k o Hwf Hreg) as [p Hp].
    exists o, p. split_and!; try done.
    apply (Hlive k). apply registered_Some. eauto.
  - rewrite CreateConnector_new, setConnector_new by done. simpl.
    eexists _, _. split_and!.
    + rewrite getOwn_app. apply hasOwn_false in Hknown. rewrite Hknown.
      simpl. by rewrite String.eqb_refl.
    + by apply list_lookup_middle.
    + apply freshConnector_live.
    + done.
Qed.

Lemma OnMessage_offer_run
    (m : ConnectionManager) (message : Envelope) (offer : RTCSessionDescription) :
  sound m →
  FromId message ≠ AttendeeId m →
  shadowed m = false →
  FromId message ≠ "__proto__" →
  Type' message = "offer" →
  asDescription (Data message) = Some offer →
  type offer = "offer" →
  (∀ p, registered (CreateConnector (FromId message) m).1.2 (FromId message)
        = Some p →
        applies offer (connector p) = true) →
  ∃ m' p' answer,
    OnMessage message m
    = (Ret tt, m', [Send (ofDescription (Some answer)) "accept" (FromId message)])
    ∧ registered m' (FromId message) = Some p'
    ∧ type answer = "answer"
    ∧ remoteDescription (connector p') = Some offer
    ∧ localDescription (connector p') = Some answer
    ∧ remoteCandidates p' = []
    ∧ signalingState (connector p') = "stable"
    ∧ ∃ p, registered (CreateConnector (FromId message) m).1.2 (FromId message)
           = Some p
        ∧ answer = answerTo offer p.
Proof.
  intros Hsound Hother Hplain Hkey Hty Hdata Hoffer Happlies.
  destruct (CreateConnector_registers (FromId message) m Hsound Hplain Hkey)
    as (o & p & Hreg & Hobj & _ & _).
  assert (registered (CreateConnector (FromId message) m).1.2 (FromId message)
          = Some p) as Hregistered
    by (apply registered_Some; eauto).
  assert (applies offer (connector p) = true) as Hp by by apply Happlies.
  destruct (AcceptOffer_applied_run offer p Hoffer Hp)
    as (p' & answer & taken & Hrun & Hans & Hlocal & Hremote & Hstable & _ & _
        & _ & _ & _ & Hbuf & _ & _ & _ & Hanswer).
  assert (bind (getConnector (FromId message))
            (λ o, invoke (FromId message) o
                    (withDescription (Data message) AcceptOffer))
            (CreateConnector (FromId message) m).1.2
          = (Ret tt,
             set_objects (<[o := p']> (objects (CreateConnector (FromId message) m).1.2))
               (CreateConnector (FromId message) m).1.2,
             [Send (ofDescription (Some answer)) "accept" (FromId message)]))
    as Hinner.
  { step ltac:(by apply getConnector_step).
    unfold withDescription. rewrite Hdata. unfold invoke.
    step ltac:(by eapply runOn_step).
    reflexivity. }
  enter_dispatch Hother Hplain. decide_type Hty.
  erewrite bind_ret_step by exact Hinner. cbv beta. rewrite ?bind_ret_l.
  eexists _, p', answer. split; [reflexivity|].
  split_and!; try done.
  - unfold registered. simpl. rewrite Hreg. simpl.
    apply list_lookup_insert_eq. by eapply lookup_lt_Some.
  - by exists p.
Qed.

(** X17. An [offer] envelope carrying an offer, from an identity other than
    the local one and "__proto__", on a manager at rest whose registry has
    no entry named "hasOwnProperty", when the connection to the sender, as
    [CreateConnector] leaves it, applies the offer: the connector of the
    sender, created on the spot if need be, takes the offer as its remote
    description and an answer as its local description, its buffer of
    remote candidates is emptied, and the manager sends exactly one
    envelope, of type [accept], to the sender, carrying that answer. *)
Theorem offer_is_answered
    (m : ConnectionManager) (message : Envelope) (offer : RTCSessionDescription) :
  sound m →
  FromId message ≠ AttendeeId m →
  shadowed m = false →
  FromId message ≠ "__proto__" →
  Type' message = "offer" →
  asDescription (Data message) = Some offer →
  type offer = "offer" →
  (∀ p, registered (CreateConnector (FromId message) m).1.2 (FromId message)
        = Some p →
        applies offer (connector p) = true) →
  ∃ m' p' answer,
    OnMessage message m
    = (Ret tt, m', [Send (ofDescription (Some answer)) "accept" (FromId message)])
    ∧ registered m' (FromId message) = Some p'
    ∧ type answer = "answer"
    ∧ remoteDescription (connector p') = Some offer
    ∧ localDescription (connector p') = Some answer
    ∧ remoteCandidates p' = [].
Proof.
  intros Hsound Hother Hplain Hkey Hty Hdata Hoffer Happlies.
  destruct (OnMessage_offer_run m message offer
              Hsound Hother Hplain Hkey Hty Hdata Hoffer Happlies)
    as (m' & p' & answer & H1 & H2 & H3 & H4 & H5 & H6 & _).
  by exists m', p', answer.
Qed.

(** X18. An [offer] or [accept] envelope whose payload is not a description
    (null, an array, an object whose [type] is missing or not a description
    type) is dropped without an error and without a reply; so is a
    [candidates] envelope whose payload is not an array.  On a manager at
    rest whose registry has no entry named "hasOwnProperty", and for a
    sender other than "__proto__", all that happens is what
    [CreateConnector] does. *)
Theorem malformed_payload_is_dropped (m : ConnectionManager) (message : Envelope) :
  sound m →
  FromId message ≠ AttendeeId m →
  shadowed m = false →
  FromId message ≠ "__proto__" →
  (Type' message = "offer" ∨ Type' message = "accept")
  ∧ (∀ props ty, Data message = AObject props → getOwn props "type" = Some ty →
                 ty ∉ ["offer"; "answer"; "pranswer"; "rollback"])
  ∨ Type' message = "candidates" ∧ (∀ cs, Data message ≠ AArray cs) →
  OnMessage message m = (Ret tt, (CreateConnector (FromId message) m).1.2, []).
Proof.
  intros Hsound Hother Hplain Hkey Hcase.
  assert ((Type' message = "offer" ∨ Type' message = "accept")
          ∧ asDescription (Data message) = None
          ∨ Type' message = "candidates" ∧ (∀ cs, Data message ≠ AArray cs))
    as Hcase'.
  { destruct Hcase as [[Hty Hdata]|?]; [left|by right]. split; [done|].
    destruct (Data message) as [|props|cs]; [done| |done].
    unfold asDescription.
    destruct (getOwn props "type") as [ty|] eqn:Hget; [|done].
    specialize (Hdata props ty eq_refl Hget).
    rewrite !not_elem_of_cons in Hdata. destruct Hdata as (H1 & H2 & H3 & H4 & _).
    apply String.eqb_neq in H1, H2, H3, H4. by rewrite H1, H2, H3, H4. }
  clear Hcase. rename Hcase' into Hcase.
  destruct (CreateConnector_registers (FromId message) m Hsound Hplain Hkey)
    as (o & p & Hreg & Hobj & _).
  assert (invoke (FromId message) o (ret tt) (CreateConnector (FromId message) m).1.2
          = (Ret tt, (CreateConnector (FromId message) m).1.2, [])) as Hnoop.
  { rewrite (invoke_returns _ _ _ _ p p Hobj eq_refl).
    rewrite list_insert_id by done. by destruct (CreateConnector _ m).1.2. }
  assert (∀ op, op = ret tt →
            bind (getConnector (FromId message))
              (λ o, invoke (FromId message) o op)
              (CreateConnector (FromId message) m).1.2
            = (Ret tt, (CreateConnector (FromId message) m).1.2, [])) as Hinner.
  { intros op ->. step ltac:(by apply getConnector_step). by rewrite Hnoop. }
  destruct Hcase as [[[Hty|Hty] Hdata]|[Hty Hdata]];
    enter_dispatch Hother Hplain; decide_type Hty.
  - erewrite bind_ret_step
      by (apply Hinner; unfold withDescription; by rewrite Hdata).
    cbv beta. by rewrite ?bind_ret_l.
  - erewrite bind_ret_step
      by (apply Hinner; unfold withDescription; by rewrite Hdata).
    cbv beta. by rewrite ?bind_ret_l.
  - assert (withCandidates (Data message) AddRemoteCandidates = ret tt) as Hop.
    { destruct (Data message) as [| |cs]; try done. by destruct (Hdata cs). }
    erewrite bind_ret_step by (by apply Hinner).
    cbv beta. by rewrite ?bind_ret_l.
Qed.

(** X19. A [candidates] envelope from an identity without an entry, other
    than the local one and "__proto__", on a registry without an entry named
    "hasOwnProperty": the connector is created first, and the candidates,
    which its connection cannot take without a remote description, are all
    in its buffer, in the order of the envelope; nothing is applied, sent or
    notified. *)
Theorem first_candidates_are_buffered
    (m : ConnectionManager) (message : Envelope) (cs : list RTCIceCandidate) :
  FromId message ≠ AttendeeId m →
  shadowed m = false →
  FromId message ≠ "__proto__" →
  hasOwn (connectors m) (FromId message) = false →
  Type' message = "candidates" →
  Data message = AArray cs →
  ∃ m' p,
    OnMessage message m = (Ret tt, m', [])
    ∧ registered m' (FromId message) = Some p
    ∧ remoteCandidates p = cs
    ∧ appliedCandidates (connector p) = []
    ∧ remoteDescription (connector p) = None.
Proof.
  intros Hother Hplain Hkey Hnew Hty Hdata.
  destruct (new_connector_state (OnNeedLocalStream m)
              (String.ltb (FromId message) (AttendeeId m)))
    as (B1 & _ & _ & B4 & B5 & _).
  fold (freshConnector (FromId message) m) in B1, B4, B5.
  assert (getOwn (connectors m ++ [(FromId message, List.length (objects m))])
            (FromId message) = Some (List.length (objects m))) as Hreg.
  { rewrite getOwn_app. apply hasOwn_false in Hnew. rewrite Hnew.
    simpl. by rewrite String.eqb_refl. }
  enter_dispatch Hother Hplain. decide_type Hty.
  rewrite (CreateConnector_new _ m Hplain Hnew), setConnector_new by done.
  cbn [fst snd].
  erewrite bind_ret_step; cycle 1.
  { step ltac:(by apply getConnector_step).
    rewrite Hdata. cbn [withCandidates].
    erewrite invoke_returns;
      [reflexivity
      |simpl; by apply list_lookup_middle
      |unfold AddRemoteCandidates; by apply async_returns, buffering]. }
  cbv beta. rewrite ?bind_ret_l.
  eexists _, _. split; [reflexivity|].
  unfold registered. simpl. rewrite Hreg. simpl.
  rewrite insert_app_r_alt by done. rewrite Nat.sub_diag. simpl.
  split; [by apply list_lookup_middle|].
  simpl. rewrite B1. by split_and!.
Qed.

(** ** The manager at rest *)

(** X20. The state of a manager at rest (every identity registered once, to
    a connector object of its own that exists, is open and has its senders
    recorded; a connector that is the prototype of the registry is none of
    these) is kept by everything that happens to the manager: an envelope,
    a refresh of the local stream, and any event of any connector object,
    registered or not, with the teardown it may trigger. *)
Theorem manager_stays_at_rest
    (m : ConnectionManager) (message : Envelope) (k : string) (o : nat)
    (c : option RTCIceCandidate) (streams : list MediaStream) :
  sound m →
  sound (OnMessage message m).1.2
  ∧ sound (RefreshLocalStream m).1.2
  ∧ sound (invoke k o onconnectionstatechange m).1.2
  ∧ sound (invoke k o oniceconnectionstatechange m).1.2
  ∧ sound (invoke k o onsignalingstatechange m).1.2
  ∧ sound (invoke k o (onicecandidate c) m).1.2
  ∧ sound (invoke k o onnegotiationneeded m).1.2
  ∧ sound (invoke k o (ontrack streams) m).1.2.
Proof.
  intros Hm.
  destruct manager_stays_sound as (Hmsg & Hrefresh & _).
  destruct service_continues
    as (_ & _ & _ & _ & H5 & H6 & H7 & H8 & H9 & H10).
  split_and!;
    (eapply respects_state; [|exact Hm]);
    first [ apply Hmsg | exact Hrefresh | by apply invoke_sound ].
Qed.

(** ** What a refresh never does *)

Lemma invoke_silent r pr n k o op :
  (∀ p, (op p).2 = []) →
  respects (census r pr n) (λ _ : Effect, False) (invoke k o op).
Proof.
  intros Hop m (Hr & Hpr & Hn). unfold invoke, bind, runOn.
  destruct (objects m !! o) as [p0|] eqn:Hp0; [|by split].
  pose proof (Hop p0) as Houts.
  destruct (op p0) as [[res p0'] outs]; simpl in *. subst outs. simpl.
  assert (census r pr n (set_objects (<[o := p0']> (objects m)) m)) as HJ.
  { split_and!; simpl; [done|done|by rewrite length_insert]. }
  by destruct res.
Qed.

(** X21. [RefreshLocalStream] talks to nobody and keeps the books as they
    are: in every state of the manager, and also when it ends in an
    exception, it sends nothing and notifies nothing, and the registry and
    the number of connector objects are what they were. *)
Theorem refresh_is_silent (m : ConnectionManager) :
  (RefreshLocalStream m).2 = []
  ∧ connectors (RefreshLocalStream m).1.2 = connectors m
  ∧ List.length (objects (RefreshLocalStream m).1.2) = List.length (objects m).
Proof.
  assert (respects (census (connectors m) (prototype m) (List.length (objects m)))
            (λ _ : Effect, False) RefreshLocalStream) as H.
  { unfold RefreshLocalStream.
    repeat first
      [ done | apply getConnector_respects | apply hasOwnProperty_respects
      | apply invoke_silent; apply StartLocalStream_silent
      | apply respects_when | apply respects_forEach | apply respects_get
      | apply respects_bind | progress intros ]. }
  destruct (H m) as [(Hr & Hpr & Hn) Hes]; [done|].
  split_and!; try done.
  destruct (RefreshLocalStream m).2 as [|e es]; [done|]. by inversion Hes.
Qed.

(** ** Events of a registered connector *)

Lemma forward_run m fromId change :
  State change ≠ "failed" →
  delegate fromId (OnConnectionChanged change) m
  = (Ret tt, m, [ConnectionChanged fromId change]).
Proof.
  intros Hok. unfold delegate. step ltac:(reflexivity).
  by rewrite (proj2 (String.eqb_neq _ _) Hok).
Qed.

Lemma forEach_singleton {S E A} (f : A → Prog S E unit) x s :
  forEach f [x] s = f x s.
Proof. simpl. apply bind_ret_r. Qed.

Lemma set_objects_id m p o :
  objects m !! o = Some p → set_objects (<[o := p]> (objects m)) m = m.
Proof. intros H. rewrite list_insert_id by done. by destruct m. Qed.

Lemma state_change_run m fromId o p handler change :
  getOwn (connectors m) fromId = Some o →
  objects m !! o = Some p →
  handler p = (Ret tt, p, [OnConnectionChanged change]) →
  ∃ m', invoke fromId o handler m
        = (Ret tt, m', [ConnectionChanged fromId change])
    ∧ if State change =? "failed"
      then registered m' fromId = None
           ∧ objects m' !! o = Some (set_connector (close (connector p)) p)
      else m' = m.
Proof.
  intros Hreg Hobj Hrun. unfold invoke.
  step ltac:(by eapply runOn_step).
  rewrite (set_objects_id m p o Hobj). cbn [fst snd].
  rewrite bind_ret_r, forEach_singleton.
  destruct (State change =? "failed") eqn:Hfailed.
  - apply String.eqb_eq in Hfailed.
    rewrite (teardown_run m fromId o p change Hreg Hobj Hfailed). simpl.
    eexists. split; [reflexivity|]. split.
    + unfold registered. simpl. by rewrite getOwn_deleteOwn, decide_True.
    + simpl. apply list_lookup_insert_eq. by eapply lookup_lt_Some.
  - apply String.eqb_neq in Hfailed.
    rewrite (forward_run m fromId change Hfailed). simpl. by exists m.
Qed.

(** X22. The three state-change handlers of a registered connector, through
    the manager: each reports the state its connection has at that moment
    under its own kind (RTC for the connection state, Ice for the ICE state,
    Signal for the signaling state), the manager forwards exactly that as
    [OnConnectionChanged] for the identity, and the connector is closed and
    unregistered precisely when the reported state is "failed"; otherwise the
    manager is unchanged. *)
Theorem state_changes_are_forwarded
    (m : ConnectionManager) (fromId : string) (o : nat) (p : PeerConnector) :
  getOwn (connectors m) fromId = Some o →
  objects m !! o = Some p →
  ∀ handler kind state,
    (handler, kind, state)
    ∈ [(onconnectionstatechange, RTC, connectionState (connector p));
       (oniceconnectionstatechange, Ice, iceConnectionState (connector p));
       (onsignalingstatechange, Signal, signalingState (connector p))] →
    ∃ m', invoke fromId o handler m
          = (Ret tt, m',
             [ConnectionChanged fromId {| ChangeType := kind; State := state |}])
      ∧ if state =? "failed"
        then registered m' fromId = None
             ∧ objects m' !! o = Some (set_connector (close (connector p)) p)
        else m' = m.
Proof.
  intros Hreg Hobj handler kind state Hin.
  apply (state_change_run m fromId o p handler
           {| ChangeType := kind; State := state |} Hreg Hobj).
  repeat (apply elem_of_cons in Hin as [[= -> -> ->]|Hin]; [reflexivity|]).
  by apply elem_of_nil in Hin.
Qed.

(** ** What a connector hands out, relayed *)

Lemma candidate_event_run m fromId o p c :
  objects m !! o = Some p →
  invoke fromId o (onicecandidate (Some c)) m
  = (Ret tt,
     set_objects (<[o := set_localCandidates (localCandidates p ++ [c]) p]> (objects m)) m,
     []).
Proof. intros Hobj. by eapply invoke_returns. Qed.

Lemma gathering_relayed cs : ∀ m fromId o p,
  objects m !! o = Some p →
  forEach (λ event, invoke fromId o (onicecandidate event)) (Some <$> cs) m
  = (Ret tt,
     set_objects (<[o := set_localCandidates (localCandidates p ++ cs) p]> (objects m)) m,
     []).
Proof.
  induction cs as [|c cs IH]; intros m fromId o p Hobj; simpl.
  - rewrite app_nil_r, set_localCandidates_id. by rewrite set_objects_id.
  - step ltac:(by apply candidate_event_run).
    erewrite IH; cycle 1.
    { simpl. apply list_lookup_insert_eq. by eapply lookup_lt_Some. }
    simpl. rewrite list_insert_insert_eq, <- app_assoc. done.
Qed.

(** X23. Local candidates, relayed.  The candidate events of a connector
    created for an identity reach the manager one by one; nothing is sent
    while candidates are gathered, and the end-of-gathering event makes the
    manager send one envelope of type [candidates] to that identity, with the
    whole batch in discovery order, leaving the buffer of the connector
    empty. *)
Theorem candidates_are_relayed_in_one_batch
    (m : ConnectionManager) (fromId : string) (o : nat) (p : PeerConnector)
    (cs : list RTCIceCandidate) :
  objects m !! o = Some p →
  forEach (λ event, invoke fromId o (onicecandidate event))
          ((Some <$> cs) ++ [None]) m
  = (Ret tt,
     set_objects (<[o := set_localCandidates [] p]> (objects m)) m,
     [Send (AArray (localCandidates p ++ cs)) "candidates" fromId]).
Proof.
  intros Hobj.
  rewrite (forEach_app _ _ _ _ _ _ (gathering_relayed cs m fromId o p Hobj)).
  simpl forEach. unfold invoke.
  erewrite bind_ret_step; cycle 1.
  { erewrite bind_ret_step; cycle 1.
    { eapply runOn_step; [|reflexivity].
      simpl. apply list_lookup_insert_eq. by eapply lookup_lt_Some. }
    reflexivity. }
  simpl. by rewrite list_insert_insert_eq.
Qed.

(** X24. An offer, relayed.  When the open, stable connection of a
    connector created for an identity and fit to offer needs negotiation,
    the manager sends exactly one envelope of type [offer] to that identity,
    carrying the new local description of the connection, an offer, and
    touches neither the registry nor any other connector. *)
Theorem offer_is_relayed
    (m : ConnectionManager) (fromId : string) (o : nat) (p : PeerConnector) :
  objects m !! o = Some p →
  isClosed (connector p) = false →
  signalingState (connector p) = "stable" →
  shouldOffer p = true
  ∨ is_Some (localDescription (connector p))
  ∨ is_Some (remoteDescription (connector p)) →
  ∃ p' d,
    invoke fromId o onnegotiationneeded m
    = (Ret tt, set_objects (<[o := p']> (objects m)) m,
       [Send (ofDescription (Some d)) "offer" fromId])
    ∧ type d = "offer"
    ∧ localDescription (connector p') = Some d.
Proof.
  intros Hobj Hopen Hstable Hmay.
  pose proof (onnegotiationneeded_stable_run p Hopen Hstable Hmay) as Hrun.
  rewrite implicitDescription_stable in Hrun by done.
  eexists _, _. split; [|split].
  - unfold invoke.
    step ltac:(eapply runOn_step; [exact Hobj|exact Hrun]).
    reflexivity.
  - reflexivity.
  - reflexivity.
Qed.

Lemma OnMessage_accept_run
    (m : ConnectionManager) (message : Envelope) (answer : RTCSessionDescription)
    (p : PeerConnector) :
  FromId message ≠ AttendeeId m →
  shadowed m = false →
  registered m (FromId message) = Some p →
  Type' message = "accept" →
  asDescription (Data message) = Some answer →
  applies answer (connector p) = true →
  ∃ o,
    getOwn (connectors m) (FromId message) = Some o
    ∧ OnMessage message m
      = (Ret tt,
         set_objects
           (<[o := set_connector (applyDescription false answer (connector p)) p]>
              (objects m)) m,
         []).
Proof.
  intros Hother Hplain (o & Hreg & Hobj)%registered_Some Hty Hdata Happlies.
  pose proof (hasOwn_true _ _ _ Hreg) as Hknown.
  exists o. split; [done|].
  enter_dispatch Hother Hplain. decide_type Hty.
  rewrite (CreateConnector_known _ m Hplain Hknown). cbn [fst snd].
  erewrite bind_ret_step; cycle 1.
  { step ltac:(by apply getConnector_step).
    unfold withDescription. rewrite Hdata.
    erewrite invoke_returns; [reflexivity|exact Hobj|by apply AcceptAnswer_applied]. }
  cbv beta. by rewrite ?bind_ret_l.
Qed.

(** X25. An [accept] envelope carrying an answer, from an identity whose
    connector applies it (it is open and has made its offer, and the user
    agent accepts the answer), on a registry without an entry named
    "hasOwnProperty": the answer becomes the remote description of that
    connector, whose connection is stable again, and that is all; nothing is
    sent back, nothing is notified, and the candidates waiting in the buffer
    of the connector are left there. *)
Theorem answer_is_applied
    (m : ConnectionManager) (message : Envelope) (answer : RTCSessionDescription)
    (p : PeerConnector) :
  FromId message ≠ AttendeeId m →
  shadowed m = false →
  registered m (FromId message) = Some p →
  Type' message = "accept" →
  asDescription (Data message) = Some answer →
  type answer = "answer" →
  applies answer (connector p) = true →
  ∃ m' p',
    OnMessage message m = (Ret tt, m', [])
    ∧ connectors m' = connectors m
    ∧ registered m' (FromId message) = Some p'
    ∧ remoteDescription (connector p') = Some answer
    ∧ signalingState (connector p') = "stable"
    ∧ localDescription (connector p') = localDescription (connector p)
    ∧ remoteCandidates p' = remoteCandidates p
    ∧ appliedCandidates (connector p') = appliedCandidates (connector p).
Proof.
  intros Hother Hplain Hreg Hty Hdata Hanswer Happlies.
  destruct (OnMessage_accept_run m message answer p
              Hother Hplain Hreg Hty Hdata Happlies) as (o & Ho & Hrun).
  apply registered_Some in Hreg as (o' & Ho' & Hobj).
  assert (o' = o) as -> by congruence.
  destruct (applyDescription_remote_answer answer (connector p) Hanswer)
    as (Hremote & Hlocal & Hstable).
  destruct (applyDescription_frame false answer (connector p)) as (_ & _ & Happlied).
  eexists _, _. split; [exact Hrun|]. simpl. split; [done|]. split.
  - unfold registered. simpl. rewrite Ho. simpl.
    apply list_lookup_insert_eq. by eapply lookup_lt_Some.
  - by split_and!.
Qed.

(** A description survives the trip through a payload: what [ofDescription]
    writes, [asDescription] reads back. *)
Lemma asDescription_ofDescription (d : RTCSessionDescription) :
  type d = "offer" ∨ type d = "answer" ∨ type d = "pranswer" →
  asDescription (ofDescription (Some d)) = Some d.
Proof.
  destruct d as [ty body]. simpl. intros Hty.
  unfold asDescription, ofDescription, getOwn. simpl.
  by destruct Hty as [->| [->| ->]].
Qed.

(** X26. The offer/answer handshake between two managers at rest whose
    registries have no entry named "hasOwnProperty", the payloads being
    delivered as they were sent.  [ma] holds an offering connector [pa] for
    the identity of [mb], its connection stable.  The connection that [mb]
    has to [ma], created on the spot if need be, applies the offer of [pa],
    and the connection of [pa], its offer made, applies the answer created
    to it.  Then: when its connection needs negotiation, [ma] sends an
    offer; when that payload reaches [mb] in an envelope from [ma], [mb]
    replies with an answer; when that payload reaches [ma] in an envelope
    from [mb], [ma] sends nothing more.  Both connections are then stable;
    [mb]'s has the offer as its remote description and [ma]'s has the
    answer. *)
Theorem handshake_completes
    (ma mb : ConnectionManager) (pa : PeerConnector) (room : string) :
  sound ma → sound mb →
  shadowed ma = false → shadowed mb = false →
  AttendeeId ma ≠ AttendeeId mb →
  AttendeeId ma ≠ "__proto__" →
  registered ma (AttendeeId mb) = Some pa →
  shouldOffer pa = true →
  signalingState (connector pa) = "stable" →
  (∀ pb, registered (CreateConnector (AttendeeId ma) mb).1.2 (AttendeeId ma)
         = Some pb →
         applies (offerOf pa) (connector pb) = true
         ∧ applies (answerTo (offerOf pa) pb) (connector (offering pa)) = true) →
  ∃ o offer answer ma1 mb1 ma2 pa2 pb1,
    getOwn (connectors ma) (AttendeeId mb) = Some o
    ∧ invoke (AttendeeId mb) o onnegotiationneeded ma
      = (Ret tt, ma1, [Send (ofDescription (Some offer)) "offer" (AttendeeId mb)])
    ∧ OnMessage {| RoomId := room; FromId := AttendeeId ma;
                   Type' := "offer"; Data := ofDescription (Some offer) |} mb
      = (Ret tt, mb1,
         [Send (ofDescription (Some answer)) "accept" (AttendeeId ma)])
    ∧ OnMessage {| RoomId := room; FromId := AttendeeId mb;
                   Type' := "accept"; Data := ofDescription (Some answer) |} ma1
      = (Ret tt, ma2, [])
    ∧ registered ma2 (AttendeeId mb) = Some pa2
    ∧ registered mb1 (AttendeeId ma) = Some pb1
    ∧ type offer = "offer"
    ∧ type answer = "answer"
    ∧ remoteDescription (connector pb1) = Some offer
    ∧ remoteDescription (connector pa2) = Some answer
    ∧ signalingState (connector pa2) = "stable"
    ∧ signalingState (connector pb1) = "stable".
Proof.
  intros Hsa Hsb Hplaina Hplainb Hne Hkey Hreg Hrole Hstable Hagree.
  pose proof Hreg as (o & Ho & Hobj)%registered_Some.
  destruct (proj2 Hsa _ _ Hreg) as [Hopen _].
  pose proof (onnegotiationneeded_stable_run pa Hopen Hstable (or_introl Hrole))
    as Hneg.
  assert (type (offerOf pa) = "offer") as Hoffer
    by (unfold offerOf; by rewrite implicitDescription_stable).
  assert (offering pa
          = set_connector
              (applyDescription true (offerOf pa) (connector pa)) pa) as Hpa1
    by (unfold offering; by rewrite Hneg).
  set (ma1 := set_objects (<[o := offering pa]> (objects ma)) ma).
  assert (invoke (AttendeeId mb) o onnegotiationneeded ma
          = (Ret tt, ma1,
             [Send (ofDescription (Some (offerOf pa))) "offer" (AttendeeId mb)]))
    as Hsend.
  { unfold invoke.
    step ltac:(eapply runOn_step; [exact Hobj|exact Hneg]).
    unfold ma1. rewrite Hpa1. reflexivity. }
  assert (registered ma1 (AttendeeId mb) = Some (offering pa)) as Hreg1.
  { apply registered_Some. exists o. split; [done|]. simpl.
    apply list_lookup_insert_eq. by eapply lookup_lt_Some. }
  (* the side of [mb] *)
  destruct (OnMessage_offer_run mb
              {| RoomId := room; FromId := AttendeeId ma;
                 Type' := "offer"; Data := ofDescription (Some (offerOf pa)) |}
              (offerOf pa))
    as (mb1 & pb1 & answer & Hb & Hregb & Hans & Hremb & _ & _ & Hstb
        & pb & Hpb & Hanswer);
    [done|done|done|done|done|apply asDescription_ofDescription; by left|done| |].
  { cbn [FromId]. intros pb Hpb. by destruct (Hagree pb Hpb). }
  cbn [FromId] in Hb, Hregb, Hpb.
  (* the side of [ma] *)
  assert (applies answer (connector (offering pa)) = true) as Happlies
    by (rewrite Hanswer; by destruct (Hagree pb Hpb)).
  destruct (OnMessage_accept_run ma1
              {| RoomId := room; FromId := AttendeeId mb;
                 Type' := "accept"; Data := ofDescription (Some answer) |}
              answer (offering pa))
    as (o' & Ho' & Ha);
    [cbn [FromId]; simpl; congruence|done|done|done
    |apply asDescription_ofDescription; by (right; left)|done|].
  cbn [FromId] in Ho', Ha. simpl in Ho'.
  assert (o' = o) as -> by congruence.
  destruct (applyDescription_remote_answer answer (connector (offering pa)) Hans)
    as (Hrema & _ & Hsta).
  eexists o, (offerOf pa), answer, ma1, mb1, _, _, pb1.
  split; [done|]. split; [exact Hsend|]. split; [exact Hb|]. split; [exact Ha|].
  split.
  { apply registered_Some. exists o. split; [done|]. simpl.
    apply list_lookup_insert_eq. rewrite length_insert. by eapply lookup_lt_Some. }
  by split_and!.
Qed.

End Orchestration.

(** ** The sample sessions are at rest *)

Lemma sample_candidates_usable :
  usable sampleTakes ["c1"; "c2"; "c3"].
Proof.
  intros c pc Hc. unfold sampleTakes.
  repeat (apply elem_of_cons in Hc as [->|Hc]; [reflexivity|]).
  by apply elem_of_nil in Hc.
Qed.

Lemma usable_sublist (cs cs' : list RTCIceCandidate) :
  cs' ⊆ cs → usable sampleTakes cs → usable sampleTakes cs'.
Proof. intros Hsub Hcs c pc Hc. apply Hcs, Hsub, Hc. Qed.

Lemma manager200_sound : sound manager200.
Proof.
  split.
  - split_and!; simpl;
      [apply NoDup_nil_2|apply NoDup_nil_2|apply Forall_nil_2|by intros o Ho].
  - intros k p Hreg. vm_compute in Hreg. discriminate.
Qed.

Lemma manager100_sound : sound manager100.
Proof.
  split.
  - split_and!; simpl;
      [apply NoDup_nil_2|apply NoDup_nil_2|apply Forall_nil_2|by intros o Ho].
  - intros k p Hreg. vm_compute in Hreg. discriminate.
Qed.

Lemma manager200_knows100_sound : sound manager200_knows100.
Proof. apply (CreateConnector_sound "100" manager200), manager200_sound. Qed.


Lemma manager200_offered100_sound : sound (manager200_offered100 sampleSdp).
Proof.
  apply (invoke_sound "100" 0 (onnegotiationneeded sampleSdp));
    [apply (service_continues sampleSdp sampleAccepts sampleTakes)
    |apply manager200_knows100_sound].
Qed.

Lemma connector100_live : live connector100.
Proof.
  destruct (service_continues sampleSdp sampleAccepts sampleTakes) as [Hstart _].
  apply (Hstart camera (newPeerConnector true)), newPeerConnector_live.
Qed.


(** ** The properties on the sample sessions *)



Lemma exactly_one_offerer_witness :
  let pa := (StartLocalStream camera (newPeerConnector false)).1.2 in
  let pb := connector100 in
  AttendeeId manager100 ≠ AttendeeId manager200
  ∧ created manager100
      (OnMessage sampleSdp sampleAccepts sampleTakes
                 (discoverFrom "200") manager100).1.2 pa
  ∧ created manager200
      (OnMessage sampleSdp sampleAccepts sampleTakes
                 (discoverFrom "100") manager200).1.2 pb
  ∧ ((role pa = Offerer ∧ role pb = Answerer)
     ∨ (role pa = Answerer ∧ role pb = Offerer)).
Proof.
  intros pa pb.
  assert (AttendeeId manager100 ≠ AttendeeId manager200) as Hne by discriminate.
  assert (created manager100
            (OnMessage sampleSdp sampleAccepts sampleTakes
                       (discoverFrom "200") manager100).1.2 pa) as Ha
    by (split; reflexivity).
  assert (created manager200
            (OnMessage sampleSdp sampleAccepts sampleTakes
                       (discoverFrom "100") manager200).1.2 pb) as Hb
    by (split; reflexivity).
  split; [exact Hne|]. split; [exact Ha|]. split; [exact Hb|].
  exact (exactly_one_offerer sampleSdp sampleAccepts sampleTakes
           manager100 manager200 (discoverFrom "200") (discoverFrom "100") pa pb
           Hne eq_refl eq_refl Ha Hb).
Defined.

(** C3, as stated, fails: the connector of "100" reports a failure of the Ice
    kind, not of the RTC (overall) kind, and the manager tears it down all
    the same: "100" is registered before the change and not after it. *)
Lemma ice_failure_tears_down :
  ChangeType {| ChangeType := Ice; State := "failed" |} ≠ RTC
  ∧ is_Some (registered manager200_knows100 "100")
  ∧ registered
      (delegate "100" (OnConnectionChanged {| ChangeType := Ice; State := "failed" |})
                manager200_knows100).1.2 "100"
    = None.
Proof. vm_compute. split; [discriminate|]. split; [eexists|]; reflexivity. Qed.

Lemma failed_change_tears_down_witness :
  getOwn (connectors manager200_knows100) "100" = Some 0
  ∧ is_Some (objects manager200_knows100 !! 0)
  ∧ ∃ m', delegate "100"
            (OnConnectionChanged {| ChangeType := RTC; State := "failed" |})
            manager200_knows100
          = (Ret tt, m',
             [ConnectionChanged "100" {| ChangeType := RTC; State := "failed" |}])
      ∧ registered m' "100" = None.
Proof.
  assert (getOwn (connectors manager200_knows100) "100" = Some 0) as Hreg
    by reflexivity.
  destruct (objects manager200_knows100 !! 0) as [p|] eqn:Hobj;
    [|vm_compute in Hobj; discriminate].
  split; [exact Hreg|]. split; [by eexists|].
  destruct (failed_change_tears_down manager200_knows100 "100" 0 p
              {| ChangeType := RTC; State := "failed" |} Hreg Hobj)
    as (m' & Hrun & Hfailed).
  exists m'. split; [exact Hrun|]. simpl in Hfailed. apply Hfailed.
Defined.



Lemma answerer_never_offers_first_witness :
  shouldOffer (newPeerConnector false) = false
  ∧ localDescription (connector (newPeerConnector false)) = None
  ∧ remoteDescription (connector (newPeerConnector false)) = None
  ∧ onnegotiationneeded sampleSdp (newPeerConnector false)
    = (Ret tt, newPeerConnector false, []).
Proof.
  split; [reflexivity|]. split; [reflexivity|]. split; [reflexivity|].
  apply (answerer_never_offers_first sampleSdp (newPeerConnector false));
    reflexivity.
Defined.

Lemma connector100_tracked : tracked connector100.
Proof. exact (proj2 connector100_live). Qed.

(** C7, as stated, fails: on the connector of "100" once it is shut down,
    [StartLocalStream] with the screen throws at the first sender that it
    tries to remove; nothing is detached and nothing attached, and the
    attached tracks are not those of the screen. *)
Lemma start_local_stream_throws_when_shut_down :
  let q := (Shutdown connector100).1.2 in
  tracked q
  ∧ isClosed (connector q) = true
  ∧ StartLocalStream screen q = (Throw InvalidStateError, q, [])
  ∧ attachedTracks (connector q) ≠ getTracks screen.
Proof.
  intros q. split.
  - exact connector100_tracked.
  - vm_compute. split; [reflexivity|]. split; [reflexivity|discriminate].
Qed.

Lemma start_local_stream_replaces_tracks_witness :
  let p := connector100 in
  let q := (Shutdown connector100).1.2 in
  tracked p
  ∧ isClosed (connector p) = false
  ∧ attachedTracks (connector p) = getTracks camera
  ∧ (∃ p2, StartLocalStream screen p = (Ret tt, p2, [])
       ∧ attachedTracks (connector p2) = getTracks screen)
  ∧ tracked q
  ∧ isClosed (connector q) = true
  ∧ StartLocalStream screen q = (Throw InvalidStateError, q, []).
Proof.
  intros p q.
  split; [exact connector100_tracked|]. split; [reflexivity|].
  split; [reflexivity|]. split.
  - pose proof (start_local_stream_replaces_tracks p screen connector100_tracked)
      as H.
    change (isClosed (connector p)) with false in H. cbv iota in H.
    destruct H as [_ (p2 & Hrun & Hattached & _)].
    exists p2. split; [exact Hrun|exact Hattached].
  - split; [exact connector100_tracked|]. split; [reflexivity|].
    pose proof (start_local_stream_replaces_tracks q screen connector100_tracked)
      as H.
    change (isClosed (connector q)) with true in H. cbv iota in H.
    apply H. right. vm_compute. discriminate.
Defined.



Lemma own_envelope_ignored_witness :
  FromId (discoverFrom "200") = AttendeeId manager200_knows100
  ∧ OnMessage sampleSdp sampleAccepts sampleTakes
              (discoverFrom "200") manager200_knows100
    = (Ret tt, manager200_knows100, []).
Proof.
  split; [reflexivity|].
  apply (own_envelope_ignored sampleSdp sampleAccepts sampleTakes
           manager200_knows100 (discoverFrom "200")).
  reflexivity.
Defined.

(** ** Further properties on the sample sessions *)

Lemma remote_candidates_applied_or_buffered_witness :
  let p := (AcceptOffer sampleSdp sampleAccepts sampleTakes sampleOffer
                        (newPeerConnector false)).1.2 in
  let cs := ["c1"; "garbage"; "c2"] in
  AddRemoteCandidates sampleTakes cs p
  = (Ret tt, set_remoteCandidates ["garbage"] (fed ["c1"; "c2"] p), [])
  ∧ ∃ taken refused,
      AddRemoteCandidates sampleTakes cs p
      = (Ret tt,
         set_remoteCandidates (remoteCandidates p ++ refused) (fed taken p), [])
      ∧ taken ++ refused ≡ₚ cs.
Proof.
  intros p cs. split; [reflexivity|].
  destruct (remote_candidates_applied_or_buffered sampleTakes p cs)
    as (taken & refused & Hrun & Hperm & _).
  exists taken, refused. split; [exact Hrun|exact Hperm].
Defined.

Lemma accept_answer_does_not_flush_witness :
  let p := set_remoteCandidates ["c1"] (offering sampleSdp connector100) in
  let rollback := {| type := "rollback"; sdp := "" |} in
  localDescription (connector p) = Some sampleOffer
  ∧ applies sampleAccepts rollback (connector p) = true
  ∧ ∃ p', AcceptAnswer sampleAccepts rollback p = (Ret tt, p', [])
      ∧ remoteCandidates p' = ["c1"]
      ∧ localDescription (connector p') = None
      ∧ signalingState (connector p') = "stable".
Proof.
  intros p rollback. do 2 (split; [reflexivity|]).
  destruct (accept_answer_does_not_flush sampleAccepts p rollback)
    as (p' & Hrun & Hbuf & _ & _ & _ & _ & _ & Happlied).
  change (applies sampleAccepts rollback (connector p)) with true in Happlied.
  cbv iota in Happlied.
  exists p'. split; [exact Hrun|]. split; [exact Hbuf|].
  rewrite Happlied. split; reflexivity.
Defined.

Lemma early_candidates_stranded_by_answer_witness :
  let p := offering sampleSdp (newPeerConnector true) in
  remoteDescription (connector p) = None
  ∧ type sampleAnswer = "answer"
  ∧ applies sampleAccepts sampleAnswer (connector p) = true
  ∧ usable sampleTakes ["c2"]
  ∧ ∃ p1 p2 p3,
      AddRemoteCandidates sampleTakes ["c1"] p = (Ret tt, p1, [])
      ∧ AcceptAnswer sampleAccepts sampleAnswer p1 = (Ret tt, p2, [])
      ∧ AddRemoteCandidates sampleTakes ["c2"] p2 = (Ret tt, p3, [])
      ∧ remoteCandidates p3 = ["c1"]
      ∧ appliedCandidates (connector p3) = ["c2"].
Proof.
  intros p.
  assert (usable sampleTakes ["c2"]) as Husable.
  { apply (usable_sublist ["c1"; "c2"; "c3"]); [|exact sample_candidates_usable].
    intros c Hc. apply elem_of_cons in Hc as [->|Hc]; [right; left|].
    by apply elem_of_nil in Hc. }
  do 3 (split; [reflexivity|]). split; [exact Husable|].
  destruct (early_candidates_stranded_by_answer sampleAccepts sampleTakes
              p ["c1"] ["c2"] sampleAnswer eq_refl eq_refl eq_refl Husable)
    as (p1 & p2 & p3 & H1 & H2 & H3 & _ & Hbuf & Happlied).
  exists p1, p2, p3. split; [exact H1|]. split; [exact H2|]. split; [exact H3|].
  split; [exact Hbuf|exact Happlied].
Defined.

Lemma accept_offer_answers_once_witness :
  let p := set_remoteCandidates ["c1"; "c2"] (newPeerConnector false) in
  applies sampleAccepts sampleOffer (connector p) = true
  ∧ applies sampleAccepts refusedOffer (connector p) = false
  ∧ (∃ p' answer,
       AcceptOffer sampleSdp sampleAccepts sampleTakes sampleOffer p
       = (Ret tt, p', [OnAcceptedOffer (Some answer)])
       ∧ localDescription (connector p') = Some answer
       ∧ remoteDescription (connector p') = Some sampleOffer
       ∧ remoteCandidates p' = [])
  ∧ (∃ p',
       AcceptOffer sampleSdp sampleAccepts sampleTakes refusedOffer p
       = (Ret tt, p', [])
       ∧ remoteCandidates p' = ["c1"; "c2"]
       ∧ appliedCandidates (connector p') = []).
Proof.
  intros p. do 2 (split; [reflexivity|]). split.
  - pose proof (accept_offer_answers_once sampleSdp sampleAccepts sampleTakes
                  p sampleOffer) as H.
    change ((type sampleOffer =? "offer")
            && applies sampleAccepts sampleOffer (connector p))
      with true in H.
    cbv iota in H.
    destruct H as (p' & answer & Hrun & _ & Hlocal & Hremote & _ & Hbuf).
    exists p', answer. split; [exact Hrun|]. split; [exact Hlocal|].
    split; [exact Hremote|exact Hbuf].
  - pose proof (accept_offer_answers_once sampleSdp sampleAccepts sampleTakes
                  p refusedOffer) as H.
    change ((type refusedOffer =? "offer")
            && applies sampleAccepts refusedOffer (connector p))
      with false in H.
    cbv iota in H. exact H.
Defined.

Lemma negotiation_needed_offers_once_witness :
  let p := newPeerConnector true in
  isClosed (connector p) = false
  ∧ signalingState (connector p) = "stable"
  ∧ shouldOffer p = true
  ∧ ∃ p' d,
      onnegotiationneeded sampleSdp p = (Ret tt, p', [OnHasOffer (Some d)])
      ∧ type d = "offer"
      ∧ signalingState (connector p') = "have-local-offer".
Proof.
  intros p. do 3 (split; [reflexivity|]).
  destruct (negotiation_needed_offers_once sampleSdp p eq_refl eq_refl
              (or_introl eq_refl))
    as (p' & d & Hrun & Hty & _ & Hstate & _).
  exists p', d. split; [exact Hrun|]. split; [exact Hty|exact Hstate].
Defined.

Lemma offer_answer_exchange_witness :
  let p := newPeerConnector true in
  let q := newPeerConnector false in
  isClosed (connector p) = false
  ∧ shouldOffer p = true
  ∧ signalingState (connector p) = "stable"
  ∧ offerOf sampleSdp p = sampleOffer
  ∧ answerTo sampleSdp sampleOffer q = sampleAnswer
  ∧ applies sampleAccepts sampleOffer (connector q) = true
  ∧ applies sampleAccepts sampleAnswer (connector (offering sampleSdp p)) = true
  ∧ ∃ p1 q1 p2,
      onnegotiationneeded sampleSdp p = (Ret tt, p1, [OnHasOffer (Some sampleOffer)])
      ∧ AcceptOffer sampleSdp sampleAccepts sampleTakes sampleOffer q
        = (Ret tt, q1, [OnAcceptedOffer (Some sampleAnswer)])
      ∧ AcceptAnswer sampleAccepts sampleAnswer p1 = (Ret tt, p2, [])
      ∧ remoteDescription (connector q1) = Some sampleOffer
      ∧ remoteDescription (connector p2) = Some sampleAnswer.
Proof.
  intros p q. do 7 (split; [reflexivity|]).
  destruct (offer_answer_exchange sampleSdp sampleAccepts sampleTakes p q
              eq_refl eq_refl eq_refl eq_refl eq_refl)
    as (q1 & p2 & H1 & H2 & H3 & _ & Hq & Hp & _).
  exists (offering sampleSdp p), q1, p2.
  split; [exact H1|]. split; [exact H2|]. split; [exact H3|].
  split; [exact Hq|exact Hp].
Defined.

Lemma shutdown_connector_is_inert_witness :
  let q := set_connector (close (connector connector100)) connector100 in
  rtpSenders connector100 ≠ []
  ∧ Shutdown connector100 = (Ret tt, q, [])
  ∧ StartLocalStream screen q = (Throw InvalidStateError, q, []).
Proof.
  intros q.
  assert (rtpSenders connector100 ≠ []) as Hsenders by (vm_compute; discriminate).
  split; [exact Hsenders|].
  pose proof (shutdown_connector_is_inert sampleSdp sampleAccepts sampleTakes
                connector100 sampleOffer sampleAnswer screen) as H.
  cbv zeta in H. destruct H as (Hshut & _ & _ & _ & _ & _ & Hstart).
  split; [exact Hshut|]. exact (Hstart (or_introl Hsenders)).
Defined.

Lemma recorded_senders_only_grow_witness :
  live connector100
  ∧ List.length (rtpSenders connector100) = 2
  ∧ List.length (rtpSenders (StartLocalStream screen connector100).1.2) = 3.
Proof.
  split; [exact connector100_live|]. split; [reflexivity|].
  destruct (recorded_senders_only_grow connector100 screen) as (_ & _ & Hgrow).
  exact (Hgrow connector100_live).
Defined.

Lemma connector_stays_in_service_witness :
  live connector100
  ∧ live (AcceptOffer sampleSdp sampleAccepts sampleTakes sampleOffer
                      connector100).1.2
  ∧ live (onnegotiationneeded sampleSdp connector100).1.2.
Proof.
  split; [exact connector100_live|].
  destruct (connector_stays_in_service sampleSdp sampleAccepts sampleTakes
              connector100 screen sampleOffer
              ["c1"] (Some "c2") [camera] connector100_live)
    as (_ & Hoffer & _ & _ & _ & Hneg & _).
  split; [exact Hoffer|exact Hneg].
Defined.

Lemma envelope_registers_sender_once_witness :
  let m1 := (OnMessage sampleSdp sampleAccepts sampleTakes
                       (discoverFrom "__proto__") manager200_knows100).1.2 in
  let m2 := (OnMessage sampleSdp sampleAccepts sampleTakes
                       (discoverFrom "__proto__") m1).1.2 in
  m1 = manager200_knows_proto
  ∧ census [("100", 0)] (Some 1) 2 m1
  ∧ census [("100", 0)] (Some 2) 3 m2
  ∧ (OnMessage sampleSdp sampleAccepts sampleTakes
               (discoverFrom "300") manager200_shadowed).1.2
    = manager200_shadowed.
Proof.
  intros m1 m2. split; [reflexivity|]. split; [|split].
  - exact (envelope_registers_sender_once sampleSdp sampleAccepts sampleTakes
             manager200_knows100 (discoverFrom "__proto__")).
  - exact (envelope_registers_sender_once sampleSdp sampleAccepts sampleTakes
             m1 (discoverFrom "__proto__")).
  - exact (envelope_registers_sender_once sampleSdp sampleAccepts sampleTakes
             manager200_shadowed (discoverFrom "300")).
Defined.

Lemma discover_is_acknowledged_witness :
  FromId (discoverFrom "100") ≠ AttendeeId manager200
  ∧ shadowed manager200 = false
  ∧ Type' (discoverFrom "100") = "discover"
  ∧ OnMessage sampleSdp sampleAccepts sampleTakes (discoverFrom "100") manager200
    = (Ret tt, manager200_knows100, [Send (AObject []) "acknowledge" "100"]).
Proof.
  assert (FromId (discoverFrom "100") ≠ AttendeeId manager200) as Hother
    by discriminate.
  split; [exact Hother|]. split; [reflexivity|]. split; [reflexivity|].
  exact (discover_is_acknowledged sampleSdp sampleAccepts sampleTakes
           manager200 (discoverFrom "100") Hother eq_refl eq_refl).
Defined.

Lemma unknown_type_is_ignored_witness :
  FromId (from100 "hello" ANull) ≠ AttendeeId manager200
  ∧ shadowed manager200 = false
  ∧ (Type' (from100 "hello" ANull)
     ∉ ["offer"; "accept"; "candidates"; "location"; "discover"])
  ∧ OnMessage sampleSdp sampleAccepts sampleTakes (from100 "hello" ANull) manager200
    = (Ret tt, manager200_knows100, []).
Proof.
  assert (FromId (from100 "hello" ANull) ≠ AttendeeId manager200) as Hother
    by discriminate.
  split; [exact Hother|]. split; [reflexivity|].
  split; [apply (bool_decide_unpack _); vm_compute; exact I|].
  apply (unknown_type_is_ignored sampleSdp sampleAccepts sampleTakes
           manager200 (from100 "hello" ANull) Hother eq_refl);
    discriminate.
Defined.

Lemma location_is_decoded_witness :
  let data := AObject [("cityName", "Leeds"); ("countryCode", "GB")] in
  FromId (from100 "location" data) ≠ AttendeeId manager200
  ∧ shadowed manager200 = false
  ∧ Type' (from100 "location" data) = "location"
  ∧ OnMessage sampleSdp sampleAccepts sampleTakes (from100 "location" data) manager200
    = (Ret tt, manager200_knows100,
       [Location "100"
          {| CityName := Some "Leeds"; CountryName := None;
             CountryCode := Some "GB"; ContinentName := None;
             SubdivisionName := None |}]).
Proof.
  intros data.
  assert (FromId (from100 "location" data) ≠ AttendeeId manager200) as Hother
    by discriminate.
  split; [exact Hother|]. split; [reflexivity|]. split; [reflexivity|].
  exact (location_is_decoded sampleSdp sampleAccepts sampleTakes
           manager200 (from100 "location" data) Hother eq_refl eq_refl).
Defined.

Lemma new_connector_is_fresh_witness :
  shadowed manager200 = false
  ∧ hasOwn (connectors manager200) "100" = false
  ∧ "100" ≠ "__proto__"
  ∧ ∃ p m',
      CreateConnector "100" manager200 = (Ret tt, m', [])
      ∧ connectors m' = [("100", 0)]
      ∧ objects m' = [p]
      ∧ attachedTracks (connector p) = getTracks camera.
Proof.
  assert ("100" ≠ "__proto__") as Hkey by discriminate.
  split; [reflexivity|]. split; [reflexivity|]. split; [exact Hkey|].
  destruct (new_connector_is_fresh manager200 "100" eq_refl eq_refl Hkey)
    as (p & m' & Hrun & Hreg & _ & Hobj & _ & _ & _ & _ & _ & _ & Htracks).
  exists p, m'. split; [exact Hrun|]. split; [exact Hreg|].
  split; [exact Hobj|exact Htracks].
Defined.

Lemma reconnect_after_failure_witness :
  let change := {| ChangeType := Ice; State := "failed" |} in
  shadowed manager200_knows100 = false
  ∧ "100" ≠ "__proto__"
  ∧ getOwn (connectors manager200_knows100) "100" = Some 0
  ∧ objects manager200_knows100 !! 0 = Some connector100
  ∧ ∃ m1 m2 p',
      delegate "100" (OnConnectionChanged change) manager200_knows100
      = (Ret tt, m1, [ConnectionChanged "100" change])
      ∧ CreateConnector "100" m1 = (Ret tt, m2, [])
      ∧ getOwn (connectors m2) "100" = Some 1
      ∧ objects m2 !! 1 = Some p'
      ∧ isClosed (connector p') = false
      ∧ isClosed <$> (connector <$> objects m2 !! 0) = Some true.
Proof.
  intros change.
  assert ("100" ≠ "__proto__") as Hkey by discriminate.
  split; [reflexivity|]. split; [exact Hkey|].
  split; [reflexivity|]. split; [reflexivity|].
  destruct (reconnect_after_failure manager200_knows100 "100" 0 connector100
              change eq_refl Hkey eq_refl eq_refl eq_refl)
    as (m1 & m2 & p' & H1 & _ & H2 & Hreg & _ & Hobj & _ & _ & _ & _ & Hopen & Hold).
  exists m1, m2, p'. split; [exact H1|]. split; [exact H2|].
  split; [exact Hreg|]. split; [exact Hobj|]. split; [exact Hopen|].
  rewrite Hold. reflexivity.
Defined.

Lemma offer_is_answered_witness :
  let message := from100 "offer" (ofDescription (Some sampleOffer)) in
  sound manager200
  ∧ FromId message ≠ AttendeeId manager200
  ∧ shadowed manager200 = false
  ∧ FromId message ≠ "__proto__"
  ∧ asDescription (Data message) = Some sampleOffer
  ∧ applies sampleAccepts sampleOffer (connector connector100) = true
  ∧ ∃ m' p' answer,
      OnMessage sampleSdp sampleAccepts sampleTakes message manager200
      = (Ret tt, m', [Send (ofDescription (Some answer)) "accept" "100"])
      ∧ registered m' "100" = Some p'
      ∧ remoteDescription (connector p') = Some sampleOffer
      ∧ localDescription (connector p') = Some answer.
Proof.
  intros message.
  assert (FromId message ≠ AttendeeId manager200) as Hother by discriminate.
  assert (FromId message ≠ "__proto__") as Hkey by discriminate.
  assert (∀ p, registered (CreateConnector (FromId message) manager200).1.2
                          (FromId message) = Some p →
               applies sampleAccepts sampleOffer (connector p) = true) as Happlies.
  { intros p Hp. vm_compute in Hp. injection Hp as <-. reflexivity. }
  split; [exact manager200_sound|]. split; [exact Hother|].
  split; [reflexivity|]. split; [exact Hkey|].
  split; [reflexivity|]. split; [reflexivity|].
  destruct (offer_is_answered sampleSdp sampleAccepts sampleTakes
              manager200 message sampleOffer
              manager200_sound Hother eq_refl Hkey eq_refl eq_refl eq_refl Happlies)
    as (m' & p' & answer & Hrun & Hreg & _ & Hremote & Hlocal & _).
  exists m', p', answer. split; [exact Hrun|]. split; [exact Hreg|].
  split; [exact Hremote|exact Hlocal].
Defined.

Lemma malformed_payload_is_dropped_witness :
  let message := from100 "offer" (AObject [("type", "bogus"); ("sdp", "v=0")]) in
  sound manager200
  ∧ FromId message ≠ AttendeeId manager200
  ∧ shadowed manager200 = false
  ∧ FromId message ≠ "__proto__"
  ∧ Type' message = "offer"
  ∧ OnMessage sampleSdp sampleAccepts sampleTakes message manager200
    = (Ret tt, manager200_knows100, []).
Proof.
  intros message.
  assert (FromId message ≠ AttendeeId manager200) as Hother by discriminate.
  assert (FromId message ≠ "__proto__") as Hkey by discriminate.
  assert (∀ props ty, Data message = AObject props →
            getOwn props "type" = Some ty →
            ty ∉ ["offer"; "answer"; "pranswer"; "rollback"]) as Hdata.
  { intros props ty Hprops Hty. injection Hprops as <-.
    vm_compute in Hty. injection Hty as <-.
    apply (bool_decide_unpack _). vm_compute. exact I. }
  split; [exact manager200_sound|]. split; [exact Hother|].
  split; [reflexivity|]. split; [exact Hkey|]. split; [reflexivity|].
  exact (malformed_payload_is_dropped sampleSdp sampleAccepts sampleTakes
           manager200 message manager200_sound Hother eq_refl Hkey
           (or_introl (conj (or_introl eq_refl) Hdata))).
Defined.

Lemma first_candidates_are_buffered_witness :
  let message := from100 "candidates" (AArray ["c1"; "c2"]) in
  FromId message ≠ AttendeeId manager200
  ∧ shadowed manager200 = false
  ∧ FromId message ≠ "__proto__"
  ∧ hasOwn (connectors manager200) (FromId message) = false
  ∧ ∃ m' p,
      OnMessage sampleSdp sampleAccepts sampleTakes message manager200
      = (Ret tt, m', [])
      ∧ registered m' "100" = Some p
      ∧ remoteCandidates p = ["c1"; "c2"]
      ∧ appliedCandidates (connector p) = [].
Proof.
  intros message.
  assert (FromId message ≠ AttendeeId manager200) as Hother by discriminate.
  assert (FromId message ≠ "__proto__") as Hkey by discriminate.
  split; [exact Hother|]. split; [reflexivity|]. split; [exact Hkey|].
  split; [reflexivity|].
  destruct (first_candidates_are_buffered sampleSdp sampleAccepts sampleTakes
              manager200 message ["c1"; "c2"]
              Hother eq_refl Hkey eq_refl eq_refl eq_refl)
    as (m' & p & Hrun & Hreg & Hbuf & Happlied & _).
  exists m', p. split; [exact Hrun|]. split; [exact Hreg|].
  split; [exact Hbuf|exact Happlied].
Defined.

Lemma manager_stays_at_rest_witness :
  sound manager200_knows100
  ∧ sound (OnMessage sampleSdp sampleAccepts sampleTakes
                     (discoverFrom "300") manager200_knows100).1.2
  ∧ sound (RefreshLocalStream manager200_knows100).1.2
  ∧ sound (invoke "100" 0 oniceconnectionstatechange manager200_knows100).1.2.
Proof.
  split; [exact manager200_knows100_sound|].
  destruct (manager_stays_at_rest sampleSdp sampleAccepts sampleTakes
              manager200_knows100
              (discoverFrom "300") "100" 0 (Some "c1") [camera]
              manager200_knows100_sound)
    as (Hmessage & Hrefresh & _ & Hice & _).
  split; [exact Hmessage|]. split; [exact Hrefresh|exact Hice].
Defined.

Lemma state_changes_are_forwarded_witness :
  getOwn (connectors manager200_knows100) "100" = Some 0
  ∧ objects manager200_knows100 !! 0 = Some connector100
  ∧ iceConnectionState (connector connector100) = "new"
  ∧ invoke "100" 0 oniceconnectionstatechange manager200_knows100
    = (Ret tt, manager200_knows100,
       [ConnectionChanged "100" {| ChangeType := Ice; State := "new" |}]).
Proof.
  split; [reflexivity|]. split; [reflexivity|]. split; [reflexivity|].
  destruct (state_changes_are_forwarded manager200_knows100 "100" 0 connector100
              eq_refl eq_refl oniceconnectionstatechange Ice "new")
    as (m' & Hrun & Hsame).
  - apply elem_of_cons. right. apply elem_of_cons. left. reflexivity.
  - simpl in Hsame. rewrite Hsame in Hrun. exact Hrun.
Defined.

Lemma candidates_are_relayed_in_one_batch_witness :
  objects manager200_knows100 !! 0 = Some connector100
  ∧ localCandidates connector100 = []
  ∧ (forEach (λ event, invoke "100" 0 (onicecandidate event))
       [Some "c1"; Some "c2"; None] manager200_knows100).2
    = [Send (AArray ["c1"; "c2"]) "candidates" "100"].
Proof.
  split; [reflexivity|]. split; [reflexivity|].
  exact (f_equal snd
           (candidates_are_relayed_in_one_batch manager200_knows100 "100" 0
              connector100 ["c1"; "c2"] eq_refl)).
Defined.

Lemma offer_is_relayed_witness :
  objects manager200_knows100 !! 0 = Some connector100
  ∧ isClosed (connector connector100) = false
  ∧ signalingState (connector connector100) = "stable"
  ∧ shouldOffer connector100 = true
  ∧ ∃ p' d,
      invoke "100" 0 (onnegotiationneeded sampleSdp) manager200_knows100
      = (Ret tt,
         set_objects (<[0 := p']> (objects manager200_knows100)) manager200_knows100,
         [Send (ofDescription (Some d)) "offer" "100"])
      ∧ type d = "offer"
      ∧ localDescription (connector p') = Some d.
Proof.
  do 4 (split; [reflexivity|]).
  exact (offer_is_relayed sampleSdp manager200_knows100 "100" 0 connector100
           eq_refl eq_refl eq_refl (or_introl eq_refl)).
Defined.

Lemma answer_is_applied_witness :
  let m := manager200_offered100 sampleSdp in
  let p := offering sampleSdp connector100 in
  let message := from100 "accept" (ofDescription (Some sampleAnswer)) in
  FromId message ≠ AttendeeId m
  ∧ shadowed m = false
  ∧ registered m (FromId message) = Some p
  ∧ asDescription (Data message) = Some sampleAnswer
  ∧ applies sampleAccepts sampleAnswer (connector p) = true
  ∧ ∃ m' p',
      OnMessage sampleSdp sampleAccepts sampleTakes message m = (Ret tt, m', [])
      ∧ registered m' "100" = Some p'
      ∧ remoteDescription (connector p') = Some sampleAnswer
      ∧ signalingState (connector p') = "stable".
Proof.
  intros m p message.
  assert (FromId message ≠ AttendeeId m) as Hother by discriminate.
  split; [exact Hother|].
  do 4 (split; [reflexivity|]).
  destruct (answer_is_applied sampleSdp sampleAccepts sampleTakes
              m message sampleAnswer p
              Hother eq_refl eq_refl eq_refl eq_refl eq_refl eq_refl)
    as (m' & p' & Hrun & _ & Hreg & Hremote & Hstable & _).
  exists m', p'. split; [exact Hrun|]. split; [exact Hreg|].
  split; [exact Hremote|exact Hstable].
Defined.

Lemma handshake_completes_witness :
  let pb := (StartLocalStream camera (newPeerConnector false)).1.2 in
  sound manager200_knows100
  ∧ sound manager100
  ∧ shadowed manager200_knows100 = false
  ∧ shadowed manager100 = false
  ∧ AttendeeId manager200_knows100 ≠ AttendeeId manager100
  ∧ AttendeeId manager200_knows100 ≠ "__proto__"
  ∧ registered manager200_knows100 (AttendeeId manager100) = Some connector100
  ∧ shouldOffer connector100 = true
  ∧ signalingState (connector connector100) = "stable"
  ∧ registered (CreateConnector (AttendeeId manager200_knows100) manager100).1.2
               (AttendeeId manager200_knows100)
    = Some pb
  ∧ applies sampleAccepts (offerOf sampleSdp connector100) (connector pb) = true
  ∧ applies sampleAccepts (answerTo sampleSdp (offerOf sampleSdp connector100) pb)
            (connector (offering sampleSdp connector100))
    = true
  ∧ ∃ ma1 mb1 ma2 pa2 pb1,
      invoke "100" 0 (onnegotiationneeded sampleSdp) manager200_knows100
      = (Ret tt, ma1, [Send (ofDescription (Some sampleOffer)) "offer" "100"])
      ∧ OnMessage sampleSdp sampleAccepts sampleTakes
          {| RoomId := "room"; FromId := "200"; Type' := "offer";
             Data := ofDescription (Some sampleOffer) |}
          manager100
        = (Ret tt, mb1, [Send (ofDescription (Some sampleAnswer)) "accept" "200"])
      ∧ OnMessage sampleSdp sampleAccepts sampleTakes
          {| RoomId := "room"; FromId := "100"; Type' := "accept";
             Data := ofDescription (Some sampleAnswer) |}
          ma1
        = (Ret tt, ma2, [])
      ∧ registered ma2 "100" = Some pa2
      ∧ registered mb1 "200" = Some pb1
      ∧ remoteDescription (connector pb1) = Some sampleOffer
      ∧ remoteDescription (connector pa2) = Some sampleAnswer.
Proof.
  intros pb.
  assert (AttendeeId manager200_knows100 ≠ AttendeeId manager100) as Hne
    by discriminate.
  assert (AttendeeId manager200_knows100 ≠ "__proto__") as Hkey by discriminate.
  split; [exact manager200_knows100_sound|]. split; [exact manager100_sound|].
  assert (∀ pb',
            registered
              (CreateConnector (AttendeeId manager200_knows100) manager100).1.2
              (AttendeeId manager200_knows100) = Some pb' →
            applies sampleAccepts (offerOf sampleSdp connector100) (connector pb')
            = true
            ∧ applies sampleAccepts
                (answerTo sampleSdp (offerOf sampleSdp connector100) pb')
                (connector (offering sampleSdp connector100))
              = true) as Happlies.
  { intros pb' Hpb'. vm_compute in Hpb'. injection Hpb' as <-.
    split; reflexivity. }
  do 2 (split; [reflexivity|]). split; [exact Hne|]. split; [exact Hkey|].
  do 6 (split; [reflexivity|]).
  destruct (handshake_completes sampleSdp sampleAccepts sampleTakes
              manager200_knows100 manager100
              connector100 "room"
              manager200_knows100_sound manager100_sound eq_refl eq_refl
              Hne Hkey eq_refl eq_refl eq_refl Happlies)
    as (o & offer & answer & ma1 & mb1 & ma2 & pa2 & pb1
        & Ho & H1 & H2 & H3 & Hra & Hrb & _ & _ & Hb & Ha & _).
  injection Ho as <-.
  assert (offer = sampleOffer) as ->.
  { pose proof H1 as H. destruct offer as [ty body]. vm_compute in H.
    inversion H. reflexivity. }
  assert (answer = sampleAnswer) as ->.
  { pose proof H2 as H. destruct answer as [ty body]. vm_compute in H.
    inversion H. reflexivity. }
  exists ma1, mb1, ma2, pa2, pb1.
  split; [exact H1|]. split; [exact H2|]. split; [exact H3|].
  split; [exact Hra|]. split; [exact Hrb|]. split; [exact Hb|exact Ha].
Defined.
